(** * multifan: a closed-loop fan-speed controller (src/main.cpp)

    Shallow embedding of the controller and proofs about it.

    - [int32_t]/[int] values are [Z] with the two's-complement wrap-around of the
      build target written out ([wrap32]; the C++ standard leaves signed
      overflow undefined); [uint8_t] is [Z] reduced modulo 256.
    - [double] is Rocq's primitive binary64 [float]; its operations are specified
      by the [SpecFloat] functions of the standard library.
    - File-system and provider behaviour is an oracle ([env]) consulted in the
      order the program performs its I/O; the program state ([world]) holds the
      resources written so far, the [last_value_] of every source object, and the
      trace of observable events.
    - A [std::ofstream] is buffered: the few characters the program inserts
      into an open stream only fill its buffer, so the insertion leaves the
      stream good; whether the device takes them is decided when the destructor
      flushes, and the destructor ignores a failure.
    - C++ exceptions are an outcome of the state monad [M]; a conversion of a
      [double] that does not fit [uint8_t], and [std::max_element] on an empty
      range, yield [Undefined].
    - [assert] is taken as enabled (no [NDEBUG]).
    - Every log statement is an event carrying its level; which levels a sink
      shows is not modelled.
    - The cancellation flag is set by a signal handler at a time of the
      environment's choosing: the environment fixes how many evaluations of the
      loop condition still find it clear ([signal_after]). Runs in which the
      signal never arrives do not end and are not represented. *)

From Stdlib Require Import ZArith Lia Bool List Ascii String.
From Stdlib Require Import Floats Uint63.
From stdpp Require Import base functions gmap strings list fin_maps pretty.

Open Scope Z_scope.

(* ================================================================= *)
(** * Part I: the program *)
(* ================================================================= *)

(** ** Machine arithmetic *)

(** Result of an [int] subtraction whose mathematical value is [z], on a
    two's-complement target. *)
Definition wrap32 (z : Z) : Z := (z + 2 ^ 31) mod 2 ^ 32 - 2 ^ 31.

(** The values of [int32_t]. *)
Definition int32 (z : Z) : Prop := - 2 ^ 31 <= z < 2 ^ 31.

(** Conversion to [uint8_t]. *)
Definition to_uint8 (z : Z) : Z := z mod 256.

(** The values of [uint8_t]. *)
Definition uint8 (z : Z) : Prop := 0 <= z <= 255.

(** [static_cast<double>] of an [int]; every [int] is exactly representable. *)
Definition double_of_int (z : Z) : float :=
  if z <? 0 then (- PrimFloat.of_uint63 (Uint63.of_Z (- z)))%float
  else PrimFloat.of_uint63 (Uint63.of_Z z).

(** Integral part of a spec float, rounding toward zero. *)
Definition trunc_SF (x : spec_float) : option Z :=
  match x with
  | S754_zero _ => Some 0
  | S754_finite s m e => Some (cond_Zopp s (Z.shiftl (Zpos m) e))
  | S754_infinity _ | S754_nan => None
  end.

(** [static_cast<uint8_t>] of a [double]: the fractional part is discarded; the
    behaviour is undefined ([None]) when the truncated value does not fit. *)
Definition cast_uint8 (x : float) : option Z :=
  match trunc_SF (Prim2SF x) with
  | Some z => if (0 <=? z) && (z <=? 255) then Some z else None
  | None => None
  end.

(** The double 1.0: mantissa [2^52], exponent [-52]. *)
Definition SF_one : spec_float := S754_finite false 4503599627370496 (-52).

(** [t] is the floor of the exact value of the double [x]. *)
Definition floor_of (t : Z) (x : float) : Prop :=
  match Prim2SF x with
  | S754_zero _ => t = 0
  | S754_finite s m e =>
      t * 2 ^ Z.max 0 (- e) <= cond_Zopp s (Zpos m) * 2 ^ Z.max 0 e
        < (t + 1) * 2 ^ Z.max 0 (- e)
  | S754_infinity _ | S754_nan => False
  end.

Abbreviation fexp64 := (SpecFloat.fexp prec emax).

(** Multiplying the converted integer [r] by one and casting back returns [r]. *)
Definition mul_one_check (r : Z) : bool :=
  match cast_uint8 (double_of_int r * 1)%float with
  | Some t => (t =? r) && (0 <=? double_of_int r * 1)%float
  | None => false
  end.

(** ** Exceptions, outcomes, events *)

(** Addresses of the source and fan objects ([this]). *)
Definition addr := nat.

Inductive errc := invalid_argument | result_out_of_range.

Inductive exn :=
| bad_optional_access
| system_error (ec : errc)
| reset_failed (fan_this : addr) (fan_name : string)
| set_pwm_failed (fan_this : addr) (fan_name : string) (wanted_pwm_value : Z).

(** Exceptions derived from [fan::exception]. *)
Definition is_fan_exception (e : exn) : bool :=
  match e with
  | reset_failed _ _ | set_pwm_failed _ _ _ => true
  | _ => false
  end.

(** [fex.fan.name()] *)
Definition exception_fan_name (e : exn) : string :=
  match e with
  | reset_failed _ n | set_pwm_failed _ n _ => n
  | _ => ""
  end.

(** How a call ends: it returns, throws, or has undefined behaviour. *)
Inductive outcome (A : Type) :=
| Ok (a : A)
| Throw (e : exn)
| Undefined.
Arguments Ok {A} a.
Arguments Throw {A} e.
Arguments Undefined {A}.

(** The log statements of the program, by level and content. *)
Inductive level := TRACE | DEBUG | INFO | WARN | CRITICAL.

Inductive message :=
| msg_last_value (source_this : addr) (v : Z)
| msg_source_reset (source_this : addr)
| msg_no_enable (enable_path : string)
| msg_no_value (fan_this : addr) (source_this : addr)
| msg_coefficients (values : list float)
| msg_fan_set (name : string) (final_pwm : Z)
| msg_pwm_set (value : Z)
| msg_resetting_all
| msg_reset_failed (name : string)
| msg_signal_caught
| msg_exception (e : exn).

(** Observable events: log statements, stream operations, calls of the
    accumulation function, and sleeps. *)
Inductive event :=
| EvLog (l : level) (m : message)
| EvOpen (path : string) (is_open : bool)
| EvWrite (path : string) (data : string) (good : bool)
| EvAccum (values : list float)
| EvSleep (tv_sec tv_nsec : Z).

(** ** Environment and program state *)

(** What happens to a [std::ofstream] constructed on a path and then written:
    the open fails; or the file opens and the device rejects the data when the
    buffer is flushed; or the file opens and the data are stored. The program
    writes at most three characters to a stream, which only fills the buffer
    of the stream: the flush happens in the destructor, which ignores its
    failure. *)
Inductive io_answer := OpenFails | WriteLost | WriteOk.

(** The environment of one run. *)
Record env := {
  (** answer to the [n]-th I/O operation of the run when it opens [path] for writing *)
  ofstream_answer : nat -> string -> io_answer;
  (** bytes a fresh [std::ifstream] on [path] delivers to the [n]-th I/O operation;
      empty when the file cannot be opened *)
  ifstream_bytes : nat -> string -> string;
  (** number of evaluations of the loop condition that find [g_signal_caught] clear *)
  signal_after : nat;
}.

(** The program state. *)
Record world := {
  files : gmap string string;
  last_value_ : addr -> option Z;
  trace : list event;
  now : nat;
}.

Definition emit (ev : event) (w : world) : world :=
  {| files := files w; last_value_ := last_value_ w;
     trace := trace w ++ [ev]; now := now w |}.

Definition tick (w : world) : world :=
  {| files := files w; last_value_ := last_value_ w;
     trace := trace w; now := S (now w) |}.

Definition store_file (path data : string) (w : world) : world :=
  {| files := <[path := data]> (files w); last_value_ := last_value_ w;
     trace := trace w; now := now w |}.

Definition store_last_value (s : addr) (v : option Z) (w : world) : world :=
  {| files := files w; last_value_ := <[s := v]> (last_value_ w);
     trace := trace w; now := now w |}.

(** Events appended to the trace between two states. *)
Definition new_events (w w' : world) : list event :=
  drop (length (trace w)) (trace w').

(** ** The state-and-exception monad *)

(** Computations that read and change the state and may throw. *)
Definition M (A : Type) : Type := world -> outcome A * world.

#[global] Instance M_ret : MRet M := fun A a w => (Ok a, w).

#[global] Instance M_bind : MBind M := fun A B k m w =>
  match m w with
  | (Ok a, w') => k a w'
  | (Throw e, w') => (Throw e, w')
  | (Undefined, w') => (Undefined, w')
  end.

Definition throw {A} (e : exn) : M A := fun w => (Throw e, w).

Definition undefined {A} : M A := fun w => (Undefined, w).

Definition log (l : level) (m : message) : M unit :=
  fun w => (Ok tt, emit (EvLog l m) w).

(** [try { body } catch (fan::exception const &fex) { handler }] *)
Definition try_catch_fan {A} (body : M A) (handler : exn -> M A) : M A :=
  fun w =>
    match body w with
    | (Throw e, w') => if is_fan_exception e then handler e w' else (Throw e, w')
    | r => r
    end.

(** ** Output streams *)

Definition is_open (a : io_answer) : bool :=
  match a with OpenFails => false | _ => true end.

(** The state of the stream after an insertion: a stream that did not open
    has [failbit] set and stays failed; an open stream takes the characters
    into its buffer and stays good. *)
Definition is_good (a : io_answer) : bool :=
  match a with OpenFails => false | _ => true end.

(** [std::ofstream{path, std::ios::out}]: an opened file is truncated. *)
Definition ofstream (E : env) (path : string) : M io_answer :=
  fun w =>
    let a := ofstream_answer E (now w) path in
    let w1 := emit (EvOpen path (is_open a)) (tick w) in
    (Ok a, if is_open a then store_file path "" w1 else w1).

(** [f << data], returning whether the stream is good afterwards. What has
    become of the data by the time the stream is destroyed is recorded here:
    nothing reads the file in between. *)
Definition stream_insert (path : string) (a : io_answer) (data : string) : M bool :=
  fun w =>
    match a with
    | OpenFails => (Ok false, emit (EvWrite path data false) w)
    | WriteLost => (Ok true, emit (EvWrite path data true) w)
    | WriteOk => (Ok true, store_file path data (emit (EvWrite path data true) w))
    end.

(** ** Sources *)

(** A [source] object: its address and its implementation of [get()]. *)
Record source := {
  source_this : addr;
  (** the virtual [get()], reading the environment at the current time: the
      value returned or the exception thrown *)
  get : env -> nat -> Z + exn;
}.

(** Decimal digits. *)
Definition is_digit (c : ascii) : bool :=
  let n := N_of_ascii c in ((48 <=? n) && (n <=? 57))%N.

Definition digit_value (c : ascii) : Z := Z.of_N (N_of_ascii c) - 48.

Fixpoint leading_digits (s : string) : list Z :=
  match s with
  | String c s' => if is_digit c then digit_value c :: leading_digits s' else []
  | EmptyString => []
  end.

(** [std::from_chars] into an [int32_t], base 10. *)
Definition from_chars (s : string) : Z + errc :=
  let '(negative, body) :=
    match s with
    | String "-"%char s' => (true, s')
    | _ => (false, s)
    end in
  match leading_digits body with
  | [] => inr invalid_argument
  | ds =>
      let magnitude := fold_left (fun acc d => acc * 10 + d) ds 0 in
      let val := if negative then - magnitude else magnitude in
      if (- 2 ^ 31 <=? val) && (val <? 2 ^ 31) then inl val
      else inr result_out_of_range
  end.

(** [file_source::get]: read up to 32 bytes and parse them. *)
Definition file_source_get (path_ : string) (E : env) (t : nat) : Z + exn :=
  let buf := String.substring 0 32 (ifstream_bytes E t path_) in
  match from_chars buf with
  | inl val => inl val
  | inr ec => inr (system_error ec)
  end.

Definition file_source (this : addr) (path : string) : source :=
  {| source_this := this; get := file_source_get path |}.

(** [source::update] *)
Definition source_update (E : env) (s : source) : M unit :=
  fun w =>
    match get s E (now w) with
    | inl v =>
        log TRACE (msg_last_value (source_this s) v)
          (store_last_value (source_this s) (Some v) (tick w))
    | inr _ =>
        (* catch (...) *)
        log DEBUG (msg_source_reset (source_this s))
          (store_last_value (source_this s) None (tick w))
    end.

(** ** Drivers and fans *)

(** [fan::driver] *)
Module driver.
Record t := make {
  src : addr;
  min : Z;
  max : Z;
}.
End driver.

(** [fan::accum_fn_t]: the scale computed from the coefficients, or [None] where
    the call has undefined behaviour. *)
Definition accum_fn_t := list float -> option float.

(** A [fan] object. *)
Record fan := {
  this : addr;
  pwm_ : string;
  pwm_min_ : Z;
  pwm_max_ : Z;
  accum_fn_ : accum_fn_t;
  drivers_ : list driver.t;
}.

(** A constructor either completes or fails an [assert]. *)
Inductive construction (A : Type) :=
| Constructed (a : A)
| AssertionFailed (expr : string).
Arguments Constructed {A} a.
Arguments AssertionFailed {A} expr.

(** [fan::fan] with its two assertions; [pwm_min] and [pwm_max] are [uint8_t]
    values, a null [acc_fn] is [None]. *)
Definition fan_new (this : addr) (pwm : string) (pwm_min pwm_max : Z)
    (acc_fn : option accum_fn_t) : construction fan :=
  if negb (pwm_min <? pwm_max) then AssertionFailed "pwm_max > pwm_min"
  else match acc_fn with
       | None => AssertionFailed "acc_fn"
       | Some fn =>
           Constructed {| this := this; pwm_ := pwm; pwm_min_ := pwm_min;
                          pwm_max_ := pwm_max; accum_fn_ := fn; drivers_ := [] |}
       end.

(** [fan::name] *)
Definition name (f : fan) : string := pwm_ f.

(** [fan::add_driver] *)
Definition add_driver (f : fan) (src : source) (min max : Z) : fan :=
  {| this := this f; pwm_ := pwm_ f; pwm_min_ := pwm_min_ f; pwm_max_ := pwm_max_ f;
     accum_fn_ := accum_fn_ f;
     drivers_ := drivers_ f ++ [driver.make (source_this src) min max] |}.

(** The arithmetic of [fan::driver::get_coeff] on a present sensor value. *)
Definition coeff (value min max : Z) : float :=
  if value <? min then 0%float
  else if value >? max then 1%float
  else
    let range := wrap32 (max - min) in
    let scaled := wrap32 (value - min) in
    (double_of_int scaled / double_of_int range)%float.

(** [fan::driver::get_coeff] *)
Definition get_coeff (d : driver.t) : M float :=
  fun w =>
    match last_value_ w (driver.src d) with
    | None => (Throw bad_optional_access, w)
    | Some value => (Ok (coeff value (driver.min d) (driver.max d)), w)
    end.

(** [fan::set_pwm]; the argument is converted to the [uint8_t] parameter. *)
Definition set_pwm (E : env) (f : fan) (v : Z) : M unit :=
  let value := to_uint8 v in
  a ← ofstream E (pwm_ f);
  good ← stream_insert (pwm_ f) a (pretty value);
  if good : bool then log TRACE (msg_pwm_set value)
  else throw (set_pwm_failed (this f) (name f) value).

(** [pwm_] with its file name replaced by the file name followed by [_enable]. *)
Definition enable_path (f : fan) : string := pwm_ f +:+ "_enable".

(** [fan::reset] *)
Definition reset (E : env) (f : fan) : M unit :=
  a ← ofstream E (enable_path f);
  (if is_open a then
     good ← stream_insert (enable_path f) a "1";
     if good : bool then mret tt else throw (reset_failed (this f) (name f))
   else log DEBUG (msg_no_enable (enable_path f)));;
  set_pwm E f 255.

(** The loop of [fan::update] over the drivers: either every coefficient, or the
    first driver whose [get_coeff] threw ([bad_optional_access] is all it throws). *)
Fixpoint collect_coeffs (ds : list driver.t) (values : list float) (w : world)
    : driver.t + list float :=
  match ds with
  | [] => inr values
  | d :: ds' =>
      match get_coeff d w with
      | (Ok c, _) => collect_coeffs ds' (values ++ [c]) w
      | _ => inl d
      end
  end.

(** [fan::update] *)
Definition update (E : env) (f : fan) : M unit :=
  fun w =>
    match collect_coeffs (drivers_ f) [] w with
    | inl d => log WARN (msg_no_value (this f) (driver.src d)) w
    | inr values =>
        (log TRACE (msg_coefficients values);;
         (fun w => (Ok tt, emit (EvAccum values) w));;
         match accum_fn_ f values with
         | None => undefined
         | Some pwm_scale =>
             let pwm_range := pwm_max_ f - pwm_min_ f in
             match cast_uint8 (double_of_int pwm_range * pwm_scale)%float with
             | None => undefined
             | Some c =>
                 let final_pwm := pwm_min_ f + c in
                 set_pwm E f final_pwm;;
                 log INFO (msg_fan_set (pwm_ f) final_pwm)
             end
         end) w
    end.

(** ** The control loop *)

(** The loop of [reset_fans]. *)
Fixpoint reset_each (E : env) (fans : list fan) : M unit :=
  match fans with
  | [] => mret tt
  | f :: fans' =>
      try_catch_fan (reset E f)
        (fun fex => log CRITICAL (msg_reset_failed (exception_fan_name fex));;
                    throw fex);;
      reset_each E fans'
  end.

(** [reset_fans] *)
Definition reset_fans (E : env) (fans : list fan) : M unit :=
  log INFO msg_resetting_all;; reset_each E fans.

(** [interruptible_sleep] of a whole number of seconds. *)
Definition interruptible_sleep (seconds : Z) : M unit :=
  fun w => (Ok tt, emit (EvSleep seconds ((seconds * 1000000000) mod 1000000000)) w).

(** A range-based [for] whose body may throw. *)
Fixpoint for_each {A} (body : A -> M unit) (xs : list A) : M unit :=
  match xs with
  | [] => mret tt
  | x :: xs' => body x;; for_each body xs'
  end.

Definition poll_interval : Z := 5.

(** [main_loop]; [n] counts the iterations performed before the loop condition
    observes [g_signal_caught]. *)
Fixpoint main_loop (E : env) (n : nat) (sources : list source) (fans : list fan)
    : M unit :=
  match n with
  | O => mret tt
  | S n' =>
      for_each (source_update E) sources;;
      for_each (update E) fans;;
      interruptible_sleep poll_interval;;
      main_loop E n' sources fans
  end.

(** How the process ends: [main] returns [rv], an exception leaves [main],
    an assertion fails, or the behaviour was undefined. *)
Inductive process_status :=
| Exited (rv : Z)
| Terminated (uncaught : exn)
| Aborted (assertion : string)
| Unspecified.

(** The statements of the [try] block of [main]. *)
Definition guarded (E : env) (sources : list source) (fans : list fan) : M unit :=
  reset_fans E fans;;
  main_loop E (signal_after E) sources fans;;
  log INFO msg_signal_caught.

(** The [try]/[catch] of [main]: the value of [rv] afterwards. *)
Definition try_block (E : env) (sources : list source) (fans : list fan) : M Z :=
  fun w =>
    match guarded E sources fans w with
    | (Ok _, w1) => (Ok 0, w1)
    | (Throw ex, w1) => (Ok 1, emit (EvLog WARN (msg_exception ex)) w1)
    | (Undefined, w1) => (Undefined, w1)
    end.

(** [main] from the point where the topology exists; an exception that leaves
    [main] ends the process through [std::terminate]. *)
Definition run (E : env) (sources : list source) (fans : list fan) (w : world)
    : process_status * world :=
  match try_block E sources fans w with
  | (Ok rv, w1) =>
      match reset_fans E fans w1 with
      | (Ok _, w2) => (Exited rv, w2)
      | (Throw ex, w2) => (Terminated ex, w2)
      | (Undefined, w2) => (Unspecified, w2)
      end
  | (_, w1) => (Unspecified, w1)
  end.

(** Exit status as a shell reports it: [std::terminate] and a failed [assert]
    both raise [SIGABRT]. *)
Definition exit_status (st : process_status) : option Z :=
  match st with
  | Exited rv => Some rv
  | Terminated _ | Aborted _ => Some 134
  | Unspecified => None
  end.

(** [std::max_element] with [operator<], dereferenced. *)
Fixpoint max_element_from (largest : float) (vals : list float) : float :=
  match vals with
  | [] => largest
  | v :: vals' => max_element_from (if (largest <? v)%float then v else largest) vals'
  end.

Definition max_element (vals : list float) : option float :=
  match vals with
  | [] => None
  | v :: vals' => Some (max_element_from v vals')
  end.

Definition cpu_source : source :=
  file_source 1%nat "/sys/devices/platform/coretemp.0/hwmon/hwmon1/temp1_input".

Definition hdd_source : source :=
  file_source 2%nat
    "/sys/devices/pci0000:00/0000:00:17.0/ata1/host0/target0:0:0/0:0:0:0/hwmon/hwmon3/temp1_input".

Definition initial_world : world :=
  {| files := ∅; last_value_ := fun _ => None; trace := []; now := 0%nat |}.

(** [main] with the range and accumulation function of its fan left open: the
    fan is constructed before the [try] block is entered. *)
Definition main_with (pwm_min pwm_max : Z) (acc_fn : option accum_fn_t) (E : env)
    : process_status * world :=
  match fan_new 3%nat "/sys/devices/platform/nct6775.672/hwmon/hwmon2/pwm2"
          pwm_min pwm_max acc_fn with
  | AssertionFailed expr => (Aborted expr, initial_world)
  | Constructed fan0 =>
      let fan0 := add_driver fan0 cpu_source 60000 80000 in
      let fan0 := add_driver fan0 hdd_source 42000 50000 in
      run E [cpu_source; hdd_source] [fan0] initial_world
  end.

(** [main] *)
Definition main (E : env) : process_status * world :=
  main_with 60 240 (Some max_element) E.

(** ** Trace properties *)

(** Every event a computation appends to the trace satisfies [P]. *)
Definition emits {A} (P : event -> Prop) (m : M A) : Prop :=
  forall w, exists evs, trace (snd (m w)) = trace w ++ evs /\ Forall P evs.

(** A write carries the decimal text of a [uint8_t] value. *)
Definition uint8_text (ev : event) : Prop :=
  match ev with
  | EvWrite _ data _ => exists n, uint8 n /\ data = pretty n
  | _ => True
  end.

(** A write goes to the path [p] and carries the decimal text of [v]. *)
Definition writes_only (p : string) (v : Z) (ev : event) : Prop :=
  match ev with
  | EvWrite p' data _ => p' = p /\ data = pretty v
  | _ => True
  end.

(** What [fan::update] may write: decimal [uint8_t] text, to the fan's actuator. *)
Definition update_event (f : fan) (ev : event) : Prop :=
  match ev with
  | EvWrite p data _ => p = pwm_ f /\ exists n, uint8 n /\ data = pretty n
  | _ => True
  end.

(** What [fan::reset] may write: the marker to the enable resource and 255 to
    the actuator. *)
Definition reset_event (f : fan) (ev : event) : Prop :=
  match ev with
  | EvWrite p data _ =>
      (p = pwm_ f /\ data = pretty 255) \/ (p = enable_path f /\ data = "1")
  | _ => True
  end.

(** The computation never runs into undefined behaviour. *)
Definition defined {A} (m : M A) : Prop :=
  forall w, fst (m w) <> Undefined.

(** A double between 0.0 and 1.0. *)
Definition in_unit (c : float) : Prop :=
  (0 <=? c)%float = true /\ (c <=? 1)%float = true.

(** Thresholds in increasing order whose difference fits an [int]. *)
Definition fitting (d : driver.t) : Prop :=
  driver.min d < driver.max d /\ driver.max d - driver.min d < 2 ^ 31.

(** A fan as [main] builds them: a proper [uint8_t] range, at least one driver,
    fitting thresholds, and the maximum as accumulation function. *)
Definition max_fan (f : fan) : Prop :=
  uint8 (pwm_min_ f) /\ uint8 (pwm_max_ f) /\ pwm_min_ f < pwm_max_ f /\
  drivers_ f <> [] /\ Forall fitting (drivers_ f) /\ accum_fn_ f = max_element.

(** ** Scenarios used to exercise the statements below *)

(** The fan of [main] with both drivers attached. *)
Definition scenario_fan : fan :=
  {| this := 3%nat;
     pwm_ := "/sys/devices/platform/nct6775.672/hwmon/hwmon2/pwm2";
     pwm_min_ := 60; pwm_max_ := 240; accum_fn_ := max_element;
     drivers_ := [driver.make 1%nat 60000 80000; driver.make 2%nat 42000 50000] |}.

(** The same fan with the single driver of the worked example. *)
Definition single_driver_fan : fan :=
  {| this := 3%nat;
     pwm_ := "/sys/devices/platform/nct6775.672/hwmon/hwmon2/pwm2";
     pwm_min_ := 60; pwm_max_ := 240; accum_fn_ := max_element;
     drivers_ := [driver.make 1%nat 60000 80000] |}.

(** A state in which the sources hold the given readings. *)
Definition world_with (cpu hdd : option Z) : world :=
  store_last_value 2%nat hdd (store_last_value 1%nat cpu initial_world).

(** An environment in which every resource can be written. *)
Definition writable_env : env :=
  {| ofstream_answer := fun _ _ => WriteOk;
     ifstream_bytes := fun _ _ => "70000";
     signal_after := 1%nat |}.

(** An environment whose fifth I/O operation, the first actuator write of the
    loop, fails to open its resource. *)
Definition failing_write_env : env :=
  {| ofstream_answer := fun t _ => if (t =? 4)%nat then OpenFails else WriteOk;
     ifstream_bytes := fun _ _ => "70000";
     signal_after := 1%nat |}.

(** An environment in which nothing can be opened for writing from the fifth
    I/O operation on. *)
Definition failing_from_env : env :=
  {| ofstream_answer := fun t _ => if (t <? 4)%nat then WriteOk else OpenFails;
     ifstream_bytes := fun _ _ => "70000";
     signal_after := 1%nat |}.

(** The environment answers a [reset()] of [f] started in [w'] as it answers
    one started in [w]. *)
Definition same_answers (E : env) (f : fan) (w w' : world) : Prop :=
  ofstream_answer E (now w') (enable_path f)
    = ofstream_answer E (now w) (enable_path f) /\
  ofstream_answer E (S (now w')) (pwm_ f)
    = ofstream_answer E (S (now w)) (pwm_ f).

(** ** Further properties *)

(** The largest double below one that a coefficient can be: [1 - 2^-31]. *)
Definition largest_interior : float :=
  Eval compute in (double_of_int 2147483647 / double_of_int 2147483648)%float.

(** A double between 0.0 and [1 - 2^-31]. *)
Definition below_one (c : float) : Prop :=
  (0 <=? c)%float = true /\ (c <=? largest_interior)%float = true.

(** A bound above every finite double, on the scale of [SF_key]. *)
Definition key_infinity : Z := 2 ^ 2200.

(** An order-preserving image of the doubles that are not NaN: the value
    scaled by [2^1074], with the infinities beyond every finite one. *)
Definition SF_key (x : spec_float) : Z :=
  match x with
  | S754_zero _ | S754_nan => 0
  | S754_infinity s => cond_Zopp s key_infinity
  | S754_finite s m e => cond_Zopp s (Zpos m * 2 ^ (e + 1074))
  end.

Definition key (x : float) : Z := SF_key (Prim2SF x).

(** [c] is the coefficient of driver [d] for the value its source holds in [w]. *)
Definition coeff_at (w : world) (d : driver.t) (c : float) : Prop :=
  exists v, last_value_ w (driver.src d) = Some v /\
            c = coeff v (driver.min d) (driver.max d).

(** The event is not a call of the accumulation function. *)
Definition not_accum (ev : event) : Prop :=
  match ev with EvAccum _ => False | _ => True end.

(** The event is a call of [nanosleep]. *)
Definition is_sleep (ev : event) : bool :=
  match ev with EvSleep _ _ => true | _ => false end.

(** Every exception a computation throws satisfies [Q]. *)
Definition throws {A} (Q : exn -> Prop) (m : M A) : Prop :=
  forall w e w', m w = (Throw e, w') -> Q e.

(** The exceptions of [fan::reset]. *)
Definition reset_exception (f : fan) (e : exn) : Prop :=
  e = reset_failed (this f) (name f) \/ e = set_pwm_failed (this f) (name f) 255.

(** The exceptions of [fan::update]. *)
Definition update_exception (f : fan) (e : exn) : Prop :=
  exists v, uint8 v /\ e = set_pwm_failed (this f) (name f) v.

(** What a run may open for writing, and write: the actuator of one of its
    fans, with a duty of that fan's range or full speed, and its enable
    resource, with the marker. *)
Definition fan_event (fans : list fan) (ev : event) : Prop :=
  match ev with
  | EvOpen p _ => exists f, f ∈ fans /\ (p = pwm_ f \/ p = enable_path f)
  | EvWrite p data _ =>
      exists f, f ∈ fans /\
        ((p = pwm_ f /\
          exists n, data = pretty n /\ (pwm_min_ f <= n <= pwm_max_ f \/ n = 255)) \/
         (p = enable_path f /\ data = "1"))
  | _ => True
  end.

(** [c] is the coefficient of driver [d] for the value that the pass over
    [sources] started at time [t] reads for it. *)
Definition fresh_coeff (E : env) (sources : list source) (t : nat) (d : driver.t)
    (c : float) : Prop :=
  exists i s v,
    sources !! i = Some s /\ source_this s = driver.src d /\
    get s E (t + i)%nat = inl v /\ c = coeff v (driver.min d) (driver.max d).

(** A second fan, driven by the disk sensor alone. *)
Definition second_fan : fan :=
  {| this := 4%nat;
     pwm_ := "/sys/devices/platform/nct6775.672/hwmon/hwmon2/pwm3";
     pwm_min_ := 80; pwm_max_ := 200; accum_fn_ := max_element;
     drivers_ := [driver.make 2%nat 42000 50000] |}.

(** A fan whose only driver has equal thresholds. *)
Definition flat_fan : fan :=
  {| this := 5%nat;
     pwm_ := "/sys/devices/platform/nct6775.672/hwmon/hwmon2/pwm4";
     pwm_min_ := 60; pwm_max_ := 240; accum_fn_ := max_element;
     drivers_ := [driver.make 1%nat 70000 70000] |}.

(** An environment whose sensor files hold a reading followed by a newline,
    as the files of [hwmon] do. *)
Definition newline_env : env :=
  {| ofstream_answer := fun _ _ => WriteOk;
     ifstream_bytes := fun _ _ => "42000" +:+ String "010"%char EmptyString;
     signal_after := 1%nat |}.

(** An environment whose sensor files hold a number that does not fit
    [int32_t]. *)
Definition overflow_env : env :=
  {| ofstream_answer := fun _ _ => WriteOk;
     ifstream_bytes := fun _ _ => "3000000000" +:+ String "010"%char EmptyString;
     signal_after := 1%nat |}.

(** An environment in which nothing can be opened for writing from the fourth
    I/O operation on: the actuator of a second fan does not open. *)
Definition failing_second_env : env :=
  {| ofstream_answer := fun t _ => if (t <? 3)%nat then WriteOk else OpenFails;
     ifstream_bytes := fun _ _ => "70000";
     signal_after := 1%nat |}.

(** An environment in which every resource opens and the device rejects
    whatever is written. *)
Definition rejecting_env : env :=
  {| ofstream_answer := fun _ _ => WriteLost;
     ifstream_bytes := fun _ _ => "70000";
     signal_after := 1%nat |}.

(** The devices of the environment take every write that reaches them. *)
Definition accepting (E : env) : Prop :=
  forall t path, ofstream_answer E t path <> WriteLost.

(* ================================================================= *)
(** * Part II: binary64 arithmetic *)
(* ================================================================= *)

(** ** Digits, shifts and the rounding step of [SpecFloat] *)

Lemma digits2_pos_size p : digits2_pos p = Pos.size p.
Proof. induction p; simpl; congruence. Qed.

Lemma Zdigits2_bounds p :
  2 ^ (Zdigits2 (Zpos p) - 1) <= Zpos p < 2 ^ Zdigits2 (Zpos p).
Proof.
  unfold Zdigits2. rewrite digits2_pos_size.
  pose proof (Pos.size_gt p) as Hgt. pose proof (Pos.size_le p) as Hle.
  assert (H2 : Zpos (2 ^ Pos.size p) = 2 ^ Zpos (Pos.size p)) by (rewrite Pos2Z.inj_pow; reflexivity).
  split.
  - assert (2 * 2 ^ (Zpos (Pos.size p) - 1) = 2 ^ Zpos (Pos.size p)).
    { rewrite <- Z.pow_succ_r by lia. f_equal. lia. }
    lia.
  - lia.
Qed.

Lemma Zdigits2_pos p : 0 < Zdigits2 (Zpos p).
Proof. reflexivity. Qed.

(** [m < 2^k] bounds the number of binary digits of [m] by [k]. *)
Lemma Zdigits2_le_of_lt m k : 0 <= m -> 0 <= k -> m < 2 ^ k -> Zdigits2 m <= k.
Proof.
  intros Hm Hk Hlt. destruct m as [|p|p]; [simpl; lia| |lia].
  destruct (Zdigits2_bounds p) as [Hlo _].
  destruct (Z_le_gt_dec (Zdigits2 (Zpos p)) k) as [|Hgt]; [assumption|exfalso].
  assert (2 ^ k <= 2 ^ (Zdigits2 (Zpos p) - 1)) by (apply Z.pow_le_mono_r; lia).
  lia.
Qed.

Lemma shr_m_shr_1 r : 0 <= shr_m r -> shr_m (shr_1 r) = shr_m r / 2.
Proof.
  destruct r as [m rb sb]. destruct m as [|[p|p|]|p]; simpl; intros H; try lia.
  - reflexivity.
  - rewrite Pos2Z.inj_xI. rewrite Z.mul_comm, Z.div_add_l by lia. reflexivity.
  - rewrite Pos2Z.inj_xO. rewrite Z.mul_comm, Z.div_mul by lia. reflexivity.
  - reflexivity.
Qed.


Lemma shr_m_iter_pos p : forall r,
  0 <= shr_m r -> shr_m (SpecFloat.iter_pos shr_1 p r) = shr_m r / 2 ^ Zpos p.
Proof.
  induction p as [p IH|p IH|]; intros r Hr; simpl SpecFloat.iter_pos.
  - assert (H1 : 0 <= shr_m (shr_1 r)) by (rewrite shr_m_shr_1 by assumption; apply Z.div_pos; lia).
    assert (H2 : 0 <= shr_m (SpecFloat.iter_pos shr_1 p (shr_1 r))) by (rewrite IH by assumption; apply Z.div_pos; lia).
    rewrite IH, IH, shr_m_shr_1 by assumption.
    rewrite !Z.div_div by lia. f_equal.
    replace (Zpos p~1) with (1 + Zpos p + Zpos p) by lia.
    rewrite !Z.pow_add_r by lia. ring.
  - assert (H2 : 0 <= shr_m (SpecFloat.iter_pos shr_1 p r)) by (rewrite IH by assumption; apply Z.div_pos; lia).
    rewrite IH, IH by assumption.
    rewrite !Z.div_div by lia. f_equal.
    replace (Zpos p~0) with (Zpos p + Zpos p) by lia.
    rewrite !Z.pow_add_r by lia. ring.
  - rewrite shr_m_shr_1 by assumption. reflexivity.
Qed.

Lemma shr_spec r e n :
  0 <= shr_m r ->
  shr_m (fst (shr r e n)) = shr_m r / 2 ^ Z.max 0 n /\ snd (shr r e n) = e + Z.max 0 n.
Proof.
  intros Hr. destruct n as [|p|p]; simpl fst; simpl snd.
  - simpl. rewrite Z.div_1_r. lia.
  - rewrite shr_m_iter_pos by assumption.
    replace (Z.max 0 (Zpos p)) with (Zpos p) by lia. lia.
  - simpl. rewrite Z.div_1_r. lia.
Qed.

Lemma shr_m_of_loc m l : shr_m (shr_record_of_loc m l) = m.
Proof. destruct l as [|[]]; reflexivity. Qed.

(** First component of [shr_fexp]: the mantissa is divided by the power of two
    that brings the exponent up to the canonical one. *)
Lemma shr_fexp_spec m e l :
  0 <= m ->
  let e' := Z.max e (fexp64 (Zdigits2 m + e)) in
  shr_m (fst (shr_fexp prec emax m e l)) = m / 2 ^ (e' - e) /\
  snd (shr_fexp prec emax m e l) = e'.
Proof.
  intros Hm e'. unfold shr_fexp.
  destruct (shr_spec (shr_record_of_loc m l) e (fexp64 (Zdigits2 m + e) - e)) as [H1 H2].
  { rewrite shr_m_of_loc. assumption. }
  rewrite H1, H2, shr_m_of_loc.
  replace (Z.max 0 (fexp64 (Zdigits2 m + e) - e)) with (e' - e) by (unfold e'; lia).
  split; [reflexivity | lia].
Qed.

Lemma round_nearest_even_bounds m l :
  m <= round_nearest_even m l <= m + 1.
Proof. destruct l as [|[]]; simpl; try lia. destruct (Z.even m); lia. Qed.

Lemma fexp64_eq e : fexp64 e = Z.max (e - 53) (-1074).
Proof. reflexivity. Qed.

Lemma Zdigits2_scaled_le m R k :
  0 <= m -> 0 < R -> 0 <= k -> m <= R * 2 ^ k -> Zdigits2 m <= Zdigits2 R + k.
Proof.
  intros Hm HR Hk Hle. destruct R as [|r|r]; try lia.
  destruct (Zdigits2_bounds r) as [_ Hhi].
  pose proof (Zdigits2_pos r).
  apply Zdigits2_le_of_lt; [lia | lia |].
  rewrite Z.pow_add_r by lia.
  assert (0 < 2 ^ k) by (apply Z.pow_pos_nonneg; lia).
  nia.
Qed.

(** Upper bound on the result of the rounding step: when the exact value
    [mx * 2^ex] is strictly below a number [R * 2^eR] that is itself
    representable, the rounded result does not exceed it (and does not overflow). *)
Lemma binary_round_aux_le sx mx ex lx R eR :
  0 <= mx -> 0 < R -> Zdigits2 R <= 53 -> -1074 <= eR <= 971 -> ex <= eR ->
  mx < R * 2 ^ (eR - ex) ->
  binary_round_aux prec emax sx mx ex lx = S754_zero sx \/
  exists m e, binary_round_aux prec emax sx mx ex lx = S754_finite sx m e /\
              e <= eR /\ Zpos m <= R * 2 ^ (eR - e).
Proof.
  intros Hmx HR HdR HeR Hex Hlt. unfold binary_round_aux.
  destruct (shr_fexp_spec mx ex lx Hmx) as [Hm1 He1].
  destruct (shr_fexp prec emax mx ex lx) as [mrs1 e1]. simpl fst in *; simpl snd in *.
  rewrite <- He1 in Hm1. set (m1 := shr_m mrs1) in *.
  assert (Hd1 : Zdigits2 mx <= Zdigits2 R + (eR - ex))
    by (apply Zdigits2_scaled_le; lia).
  assert (He1R : ex <= e1 <= eR) by (rewrite fexp64_eq in He1; lia).
  assert (Hm1lt : 0 <= m1 < R * 2 ^ (eR - e1)).
  { rewrite Hm1. split; [apply Z.div_pos; [lia | apply Z.pow_pos_nonneg; lia] |].
    apply Z.div_lt_upper_bound; [apply Z.pow_pos_nonneg; lia |].
    replace (eR - ex) with ((e1 - ex) + (eR - e1)) in Hlt by lia.
    rewrite Z.pow_add_r in Hlt by lia.
    replace (2 ^ (e1 - ex) * (R * 2 ^ (eR - e1)))
      with (R * (2 ^ (e1 - ex) * 2 ^ (eR - e1))) by ring.
    exact Hlt. }
  pose proof (round_nearest_even_bounds m1 (loc_of_shr_record mrs1)) as Hrnd.
  set (m2 := round_nearest_even m1 (loc_of_shr_record mrs1)) in *.
  assert (Hm2 : 0 <= m2) by lia.
  destruct (shr_fexp_spec m2 e1 loc_Exact Hm2) as [Hm3 He2].
  destruct (shr_fexp prec emax m2 e1 loc_Exact) as [mrs2 e2]. simpl fst in *; simpl snd in *.
  rewrite <- He2 in Hm3.
  assert (Hd2 : Zdigits2 m2 <= Zdigits2 R + (eR - e1))
    by (apply Zdigits2_scaled_le; lia).
  assert (He2R : e1 <= e2 <= eR) by (rewrite fexp64_eq in He2; lia).
  assert (Hm3le : 0 <= shr_m mrs2 <= R * 2 ^ (eR - e2)).
  { rewrite Hm3. split; [apply Z.div_pos; [lia | apply Z.pow_pos_nonneg; lia] |].
    apply Z.div_le_upper_bound; [apply Z.pow_pos_nonneg; lia |].
    replace (2 ^ (e2 - e1) * (R * 2 ^ (eR - e2))) with (R * 2 ^ (eR - e1)); [lia|].
    replace (eR - e1) with ((e2 - e1) + (eR - e2)) by lia.
    rewrite Z.pow_add_r by lia. ring. }
  destruct (shr_m mrs2) as [|m3|m3]; [left; reflexivity | right | lia].
  exists m3, e2.
  replace (e2 <=? emax - prec) with true
    by (symmetry; apply Z.leb_le; unfold emax, prec; lia).
  repeat split; lia.
Qed.

Lemma Pos_iter_xO m d : Zpos (Pos.iter xO m d) = Zpos m * 2 ^ Zpos d.
Proof.
  rewrite (Pos.iter_swap_gen _ _ Zpos xO (Z.mul 2)) by reflexivity.
  change (Pos.iter (Z.mul 2) (Zpos m) d) with (Z.shiftl (Zpos m) (Zpos d)).
  apply Z.shiftl_mul_pow2. lia.
Qed.

Lemma shl_align_spec mx ex ex' :
  snd (shl_align mx ex ex') = Z.min ex ex' /\
  Zpos (fst (shl_align mx ex ex')) = Zpos mx * 2 ^ (ex - Z.min ex ex').
Proof.
  unfold shl_align. destruct (ex' - ex) as [|d|d] eqn:Hd; simpl fst; simpl snd.
  - replace (Z.min ex ex') with ex by lia. rewrite Z.sub_diag. lia.
  - replace (Z.min ex ex') with ex by lia. rewrite Z.sub_diag. lia.
  - replace (Z.min ex ex') with ex' by lia. rewrite Pos_iter_xO.
    replace (ex - ex') with (Zpos d) by lia. split; reflexivity.
Qed.

Lemma Zdigits2_mul_pow2 m k :
  0 <= k -> Zdigits2 (Zpos m * 2 ^ k) = Zdigits2 (Zpos m) + k.
Proof.
  intros Hk. destruct (Zdigits2_bounds m) as [Hlo Hhi].
  pose proof (Zdigits2_pos m) as Hd.
  assert (H2k : 0 < 2 ^ k) by (apply Z.pow_pos_nonneg; lia).
  assert (Hpos : 0 < Zpos m * 2 ^ k) by lia.
  destruct (Zpos m * 2 ^ k) as [|q|q] eqn:Hq; try lia.
  destruct (Zdigits2_bounds q) as [Hlo' Hhi'].
  pose proof (Zdigits2_pos q) as Hd'.
  assert (A1 : 2 ^ (Zdigits2 (Zpos m) - 1 + k) < 2 ^ Zdigits2 (Zpos q)).
  { rewrite Z.pow_add_r by lia. nia. }
  assert (A2 : 2 ^ (Zdigits2 (Zpos q) - 1) < 2 ^ (Zdigits2 (Zpos m) + k)).
  { rewrite (Z.pow_add_r _ _ k) by lia. nia. }
  apply Z.pow_lt_mono_r_iff in A1; [|lia|lia].
  apply Z.pow_lt_mono_r_iff in A2; [|lia|lia].
  lia.
Qed.

(** A mantissa that already sits at (or above) its canonical exponent is left
    untouched by the rounding step. *)
Lemma binary_round_aux_exact sx m e :
  fexp64 (Zdigits2 (Zpos m) + e) <= e -> e <= 971 ->
  binary_round_aux prec emax sx (Zpos m) e loc_Exact = S754_finite sx m e.
Proof.
  intros Hc He. unfold binary_round_aux, shr_fexp.
  assert (Hshr : forall r, shr r e (fexp64 (Zdigits2 (Zpos m) + e) - e) = (r, e)).
  { intros r. unfold shr. destruct (fexp64 (Zdigits2 (Zpos m) + e) - e) eqn:Hn; try reflexivity. lia. }
  rewrite Hshr. simpl shr_m. simpl loc_of_shr_record. simpl round_nearest_even.
  rewrite Hshr. simpl shr_m.
  replace (e <=? emax - prec) with true
    by (symmetry; apply Z.leb_le; unfold emax, prec; lia).
  reflexivity.
Qed.

(** The [spec_float] of a positive integer below [2^53]: the conversion is exact. *)
Lemma binary_normalize_pos a :
  0 < a < 2 ^ 53 ->
  exists m e, binary_normalize prec emax a 0 false = S754_finite false m e /\
              -52 <= e <= 0 /\ Zpos m = a * 2 ^ (- e) /\ Zdigits2 (Zpos m) = 53.
Proof.
  intros Ha. destruct a as [|p|p]; try lia. simpl binary_normalize. unfold binary_round.
  pose proof (Zdigits2_pos p) as Hd.
  assert (Hd53 : Zdigits2 (Zpos p) <= 53) by (apply Zdigits2_le_of_lt; lia).
  destruct (shl_align_spec p 0 (fexp64 (Zpos (digits2_pos p) + 0))) as [He Hm].
  destruct (shl_align p 0 (fexp64 (Zpos (digits2_pos p) + 0))) as [mz ez].
  simpl fst in *; simpl snd in *.
  change (Zpos (digits2_pos p)) with (Zdigits2 (Zpos p)) in *.
  rewrite fexp64_eq in *.
  assert (Hez : ez = Zdigits2 (Zpos p) - 53) by lia.
  assert (Hdz : Zdigits2 (Zpos mz) = 53).
  { rewrite Hm, Zdigits2_mul_pow2 by lia. lia. }
  exists mz, ez. rewrite binary_round_aux_exact.
  - repeat split; try lia. rewrite Hm. f_equal. f_equal. lia.
  - rewrite Hdz, fexp64_eq. lia.
  - lia.
Qed.

(** ** Conversions, comparison, product and quotient *)

Lemma double_of_int_pos a :
  0 < a < 2 ^ 53 ->
  exists m e, Prim2SF (double_of_int a) = S754_finite false m e /\
              -52 <= e <= 0 /\ Zpos m = a * 2 ^ (- e) /\ Zdigits2 (Zpos m) = 53.
Proof.
  intros Ha. unfold double_of_int.
  replace (a <? 0) with false by (symmetry; apply Z.ltb_ge; lia).
  rewrite of_uint63_spec, Uint63.of_Z_spec.
  rewrite Z.mod_small by (change wB with (2 ^ 63); split; [lia|];
    apply Z.lt_trans with (2 ^ 53); [lia | reflexivity]).
  apply binary_normalize_pos. assumption.
Qed.

Lemma Prim2SF_one : Prim2SF 1%float = SF_one.
Proof. reflexivity. Qed.

Lemma canonical_digits m e :
  bounded prec emax m e = true -> Zdigits2 (Zpos m) <= 53 /\ -1074 <= e <= 971 /\
  (Zdigits2 (Zpos m) < 53 -> e = -1074).
Proof.
  unfold bounded, canonical_mantissa. intros H.
  apply andb_true_iff in H. destruct H as [H1 H2].
  apply Z.eqb_eq in H1. apply Z.leb_le in H2.
  change (Zpos (digits2_pos m)) with (Zdigits2 (Zpos m)) in H1.
  rewrite fexp64_eq in H1. unfold emax, prec in H2. lia.
Qed.

Lemma SFleb_finite_pos m1 e1 m2 e2 :
  SFleb (S754_finite false m1 e1) (S754_finite false m2 e2) = true <->
  e1 < e2 \/ (e1 = e2 /\ Zpos m1 <= Zpos m2).
Proof.
  unfold SFleb, SFcompare. rewrite Pos.compare_cont_spec. simpl Pos.switch_Eq.
  destruct (Z.compare_spec e1 e2) as [He|He|He].
  - destruct (Pos.compare_spec m1 m2) as [Hm|Hm|Hm]; split; intros H; try lia; try discriminate; try reflexivity.
  - split; [lia | reflexivity].
  - split; [discriminate | lia].
Qed.

Lemma SFleb_zero_l x :
  SFleb (S754_zero false) x = true <->
  match x with
  | S754_zero _ | S754_infinity false | S754_finite false _ _ => True
  | _ => False
  end.
Proof. destruct x as [b|[]| |[] m e]; unfold SFleb; simpl; intuition discriminate. Qed.

(** Shape of a double that compares between 0 and 1 (inclusive). *)
Lemma unit_interval_shape s :
  (0 <=? s)%float = true -> (s <=? 1)%float = true ->
  (exists b, Prim2SF s = S754_zero b) \/ s = 1%float \/
  exists m e, Prim2SF s = S754_finite false m e /\ e <= -52 /\ Zpos m < 2 ^ (- e).
Proof.
  rewrite !FloatAxioms.leb_spec. change (Prim2SF 0) with (S754_zero false). rewrite Prim2SF_one.
  pose proof (Prim2SF_valid s) as Hv. pose proof (SF2Prim_Prim2SF s) as Hs.
  rewrite SFleb_zero_l.
  destruct (Prim2SF s) as [b|b| |b m e]; intros H0 H1.
  - left. eauto.
  - destruct b; [contradiction | discriminate].
  - contradiction.
  - destruct b; [contradiction|]. right.
    apply SFleb_finite_pos in H1.
    simpl in Hv. apply canonical_digits in Hv. destruct Hv as (Hd & He & _).
    pose proof (Zdigits2_bounds m) as [_ Hhi].
    destruct H1 as [Hlt|[Heq Hm]].
    + right. exists m, e. repeat split; try lia.
      apply Z.lt_le_trans with (2 ^ 53).
      * apply Z.lt_le_trans with (2 ^ Zdigits2 (Zpos m)); [lia|].
        apply Z.pow_le_mono_r; lia.
      * apply Z.pow_le_mono_r; lia.
    + subst e. destruct (Z.eq_dec (Zpos m) 4503599627370496) as [E|E].
      * left. injection E as ->. rewrite <- Hs. reflexivity.
      * right. exists m, (-52). repeat split; try lia.
Qed.

(** Product of an exactly converted positive integer with a double strictly
    below one: the rounded product does not exceed the integer. *)
Lemma SFmul_below r mr er ms es :
  0 < r < 2 ^ 53 -> -52 <= er <= 0 -> Zpos mr = r * 2 ^ (- er) ->
  es <= -52 -> Zpos ms < 2 ^ (- es) ->
  let p := SF64mul (S754_finite false mr er) (S754_finite false ms es) in
  p = S754_zero false \/
  exists m e, p = S754_finite false m e /\ e <= 0 /\ Zpos m <= r * 2 ^ (- e).
Proof.
  intros Hr Her Hmr Hes Hms p. unfold p, SF64mul, SFmul. simpl xorb.
  destruct (binary_round_aux_le false (Zpos (mr * ms)) (er + es) loc_Exact r 0) as [H|H].
  - lia.
  - lia.
  - apply Zdigits2_le_of_lt; lia.
  - lia.
  - lia.
  - rewrite Pos2Z.inj_mul, Hmr.
    replace (0 - (er + es)) with (- er + - es) by lia.
    rewrite Z.pow_add_r by lia.
    assert (0 < r * 2 ^ (- er)) by lia.
    nia.
  - left. exact H.
  - right. destruct H as (m & e & H & He & Hm). exists m, e.
    rewrite Z.sub_0_l in Hm. auto.
Qed.

Lemma trunc_SF_bounded m e r :
  e <= 0 -> Zpos m <= r * 2 ^ (- e) ->
  exists t, trunc_SF (S754_finite false m e) = Some t /\ 0 <= t <= r.
Proof.
  intros He Hm. simpl. eexists; split; [reflexivity|].
  rewrite Z.shiftl_div_pow2 by lia.
  assert (0 < 2 ^ (- e)) by (apply Z.pow_pos_nonneg; lia).
  split.
  - apply Z.div_pos; lia.
  - apply Z.div_le_upper_bound; lia.
Qed.

(** Division of exactly converted integers [0 < a < b]: the quotient is at most one. *)
Lemma SFdiv_below a ma ea b mb eb :
  0 < a < b -> 
  -52 <= ea <= 0 -> Zpos ma = a * 2 ^ (- ea) -> Zdigits2 (Zpos ma) = 53 ->
  -52 <= eb <= 0 -> Zpos mb = b * 2 ^ (- eb) -> Zdigits2 (Zpos mb) = 53 ->
  let q := SF64div (S754_finite false ma ea) (S754_finite false mb eb) in
  q = S754_zero false \/
  exists m e, q = S754_finite false m e /\ e <= 0 /\ Zpos m <= 2 ^ (- e).
Proof.
  intros Hab Hea Hma Hda Heb Hmb Hdb q. unfold q, SF64div, SFdiv. simpl xorb.
  assert (Hee : ea <= eb).
  { destruct (Z_le_gt_dec ea eb) as [|Hgt]; [assumption|exfalso].
    destruct (Zdigits2_bounds ma) as [Hlo _]. destruct (Zdigits2_bounds mb) as [_ Hhi].
    rewrite Hda in Hlo. rewrite Hdb in Hhi.
    assert (E : 2 ^ (- eb) = 2 ^ (ea - eb) * 2 ^ (- ea))
      by (rewrite <- Z.pow_add_r by lia; f_equal; lia).
    assert (2 <= 2 ^ (ea - eb)) by (change 2 with (2 ^ 1) at 1; apply Z.pow_le_mono_r; lia).
    assert (0 < 2 ^ (- ea)) by (apply Z.pow_pos_nonneg; lia).
    change (2 ^ (53 - 1)) with 4503599627370496 in Hlo.
    change (2 ^ 53) with 9007199254740992 in Hhi.
    nia. }
  unfold SFdiv_core_binary. rewrite Hda, Hdb.
  replace (53 + ea - (53 + eb)) with (ea - eb) by lia.
  rewrite fexp64_eq.
  replace (Z.min (Z.max (ea - eb - 53) (-1074)) (ea - eb)) with (ea - eb - 53) by lia.
  replace (ea - eb - (ea - eb - 53)) with 53 by lia.
  change (IntDef.Z.div_eucl (IntDef.Z.shiftl (Zpos ma) 53) (Zpos mb))
    with (Z.div_eucl (Z.shiftl (Zpos ma) 53) (Zpos mb)).
  rewrite Z.shiftl_mul_pow2 by lia.
  pose proof (Z.div_eucl_eq (Zpos ma * 2 ^ 53) (Zpos mb) ltac:(lia)) as Heq.
  pose proof (Z.mod_pos_bound (Zpos ma * 2 ^ 53) (Zpos mb) ltac:(lia)) as Hmod.
  unfold Z.modulo in Hmod.
  destruct (Z.div_eucl (Zpos ma * 2 ^ 53) (Zpos mb)) as [qq rr].
  assert (Hpow : 2 ^ (- ea) = 2 ^ (eb - ea) * 2 ^ (- eb))
    by (rewrite <- Z.pow_add_r by lia; f_equal; lia).
  assert (H2eb : 0 < 2 ^ (- eb)) by (apply Z.pow_pos_nonneg; lia).
  assert (H2ba : 0 < 2 ^ (eb - ea)) by (apply Z.pow_pos_nonneg; lia).
  assert (Hmab : Zpos ma < Zpos mb * 2 ^ (eb - ea)) by (rewrite Hma, Hmb, Hpow; nia).
  destruct (binary_round_aux_le false qq (ea - eb - 53) (new_location (Zpos mb) rr) 1 0) as [H|H].
  - nia.
  - lia.
  - simpl. lia.
  - lia.
  - lia.
  - replace (0 - (ea - eb - 53)) with (53 + (eb - ea)) by lia.
    rewrite Z.pow_add_r by lia. nia.
  - left. exact H.
  - right. destruct H as (m & e & H & He & Hm). exists m, e.
    rewrite Z.sub_0_l, Z.mul_1_l in Hm. auto.
Qed.

(** A finite double divided by itself is exactly one. *)
Lemma SFdiv_same m e :
  Zdigits2 (Zpos m) = 53 ->
  SF64div (S754_finite false m e) (S754_finite false m e) = SF_one.
Proof.
  intros Hd. unfold SF64div, SFdiv, SFdiv_core_binary. simpl xorb.
  rewrite Hd. replace (53 + e - (53 + e)) with 0 by lia. rewrite Z.sub_diag.
  change (Z.min (fexp64 0) 0) with (-53). change (0 - -53) with 53.
  change (IntDef.Z.div_eucl (IntDef.Z.shiftl (Zpos m) 53) (Zpos m))
    with (Z.div_eucl (Z.shiftl (Zpos m) 53) (Zpos m)).
  rewrite Z.shiftl_mul_pow2 by lia.
  pose proof (Z.div_eucl_eq (Zpos m * 2 ^ 53) (Zpos m) ltac:(lia)) as Heq.
  pose proof (Z_div_mult_full (2 ^ 53) (Zpos m) ltac:(lia)) as Hq.
  pose proof (Z_mod_mult (2 ^ 53) (Zpos m)) as Hr.
  rewrite (Z.mul_comm (2 ^ 53)) in Hq, Hr.
  unfold Z.div in Hq. unfold Z.modulo in Hr.
  destruct (Z.div_eucl (Zpos m * 2 ^ 53) (Zpos m)) as [q r].
  subst q r. 
  replace (new_location (Zpos m) 0) with loc_Exact
    by (unfold new_location, new_location_even, new_location_odd; destruct (Z.even (Zpos m)); reflexivity).
  vm_compute. reflexivity.
Qed.

Lemma SFleb_one m e :
  bounded prec emax m e = true -> e <= 0 -> Zpos m <= 2 ^ (- e) ->
  SFleb (S754_finite false m e) SF_one = true.
Proof.
  intros Hv He Hm. apply SFleb_finite_pos.
  apply canonical_digits in Hv. destruct Hv as (Hd & Hr & Hsub).
  destruct (Zdigits2_bounds m) as [Hlo Hhi].
  destruct (Z_lt_le_dec e (-52)) as [|Hge]; [left; assumption | right].
  assert (Hd53 : Zdigits2 (Zpos m) = 53) by lia.
  rewrite Hd53 in Hlo. change (2 ^ (53 - 1)) with (2 ^ 52) in Hlo.
  assert (e = -52).
  { destruct (Z.eq_dec e (-52)); [assumption|exfalso].
    assert (2 ^ (- e) <= 2 ^ 51) by (apply Z.pow_le_mono_r; lia).
    assert (2 ^ 51 < 2 ^ 52) by reflexivity. lia. }
  subst e. split; [reflexivity|]. exact Hm.
Qed.

Lemma wrap32_id z : int32 z -> wrap32 z = z.
Proof.
  unfold int32, wrap32. intros H.
  change (2 ^ 31) with 2147483648 in *. change (2 ^ 32) with 4294967296.
  rewrite Z.mod_small by lia. lia.
Qed.

Lemma leb_zero_of_shape c :
  (Prim2SF c = S754_zero false \/ exists m e, Prim2SF c = S754_finite false m e) ->
  (0 <=? c)%float = true.
Proof.
  intros H. rewrite FloatAxioms.leb_spec. change (Prim2SF 0) with (S754_zero false).
  apply SFleb_zero_l. destruct H as [-> | (m & e & ->)]; exact I.
Qed.

(** The quotient of two converted integers [0 < a < b] lies in the unit interval. *)
Lemma div_unit_interval a b :
  0 < a < b -> b < 2 ^ 53 ->
  let c := (double_of_int a / double_of_int b)%float in
  (0 <=? c)%float = true /\ (c <=? 1)%float = true.
Proof.
  intros Hab Hb c.
  destruct (double_of_int_pos a ltac:(lia)) as (ma & ea & Ha & Hea & Hma & Hda).
  destruct (double_of_int_pos b ltac:(lia)) as (mb & eb & Hb' & Heb & Hmb & Hdb).
  pose proof (Prim2SF_valid c) as Hv.
  assert (Hc : Prim2SF c = SF64div (S754_finite false ma ea) (S754_finite false mb eb))
    by (unfold c; rewrite FloatAxioms.div_spec, Ha, Hb'; reflexivity).
  destruct (SFdiv_below a ma ea b mb eb Hab Hea Hma Hda Heb Hmb Hdb) as [Hz | (m & e & Hf & He & Hm)];
    rewrite <- Hc in *.
  - split; [apply leb_zero_of_shape; auto |].
    rewrite FloatAxioms.leb_spec, Hz. reflexivity.
  - split; [apply leb_zero_of_shape; eauto |].
    rewrite FloatAxioms.leb_spec, Hf. rewrite Hf in Hv.
    apply SFleb_one; assumption.
Qed.

Lemma div_same a :
  0 < a < 2 ^ 53 -> (double_of_int a / double_of_int a)%float = 1%float.
Proof.
  intros Ha. destruct (double_of_int_pos a Ha) as (m & e & Hs & _ & _ & Hd).
  apply Prim2SF_inj. rewrite FloatAxioms.div_spec, Hs, SFdiv_same by assumption. reflexivity.
Qed.

Lemma div_zero_l b :
  0 < b < 2 ^ 53 -> (double_of_int 0 / double_of_int b)%float = 0%float.
Proof.
  intros Hb. destruct (double_of_int_pos b Hb) as (m & e & Hs & _).
  apply Prim2SF_inj. rewrite FloatAxioms.div_spec, Hs. reflexivity.
Qed.

Lemma mul_one_cast r :
  1 <= r <= 255 ->
  cast_uint8 (double_of_int r * 1)%float = Some r /\
  (0 <=? double_of_int r * 1)%float = true.
Proof.
  intros Hr.
  assert (Hall : forallb mul_one_check (seqZ 1 255) = true) by (vm_compute; reflexivity).
  rewrite forallb_forall in Hall.
  specialize (Hall r). unfold mul_one_check in Hall.
  destruct (cast_uint8 (double_of_int r * 1)%float) as [t|].
  - assert (Hin : In r (seqZ 1 255)) by (apply list_elem_of_In, elem_of_seqZ; lia).
    apply Hall, andb_true_iff in Hin. destruct Hin as [Ht Hpos].
    apply Z.eqb_eq in Ht. subst t. auto.
  - discriminate Hall. apply list_elem_of_In, elem_of_seqZ. lia.
Qed.

(** The scaling step of [fan::update]: for a range [r] of at most 255 and a
    scale in the unit interval the truncated product is defined and within [0, r]. *)
Lemma scale_cast r s :
  1 <= r <= 255 -> (0 <=? s)%float = true -> (s <=? 1)%float = true ->
  exists t, cast_uint8 (double_of_int r * s)%float = Some t /\ 0 <= t <= r /\
            (0 <=? double_of_int r * s)%float = true /\
            ((s =? 0)%float = true -> t = 0) /\ (s = 1%float -> t = r).
Proof.
  intros Hr H0 H1.
  destruct (double_of_int_pos r) as (mr & er & Hsr & Her & Hmr & Hdr).
  { split; [lia|]. apply Z.le_lt_trans with 255; [lia | reflexivity]. }
  destruct (unit_interval_shape s H0 H1) as [[b Hz] | [-> | (ms & es & Hs & Hes & Hms)]].
  - assert (Hp : Prim2SF (double_of_int r * s) = S754_zero b)
      by (rewrite FloatAxioms.mul_spec, Hsr, Hz; reflexivity).
    exists 0. unfold cast_uint8. rewrite Hp. simpl.
    repeat split; try lia.
    + rewrite FloatAxioms.leb_spec, Hp. destruct b; reflexivity.
    + intros ->. vm_compute in Hz. discriminate.
  - exists r. destruct (mul_one_cast r Hr) as [Hc Hpos]. rewrite Hc.
    repeat split; try lia; try assumption.
    intros Hc0. vm_compute in Hc0. discriminate.
  - assert (Hne0 : (s =? 0)%float = true -> False).
    { rewrite FloatAxioms.eqb_spec, Hs. discriminate. }
    assert (Hne1 : s = 1%float -> False).
    { intros ->. rewrite Prim2SF_one in Hs. injection Hs as <- <-.
      revert Hms. vm_compute. discriminate. }
    assert (Hp : Prim2SF (double_of_int r * s)
                 = SF64mul (S754_finite false mr er) (S754_finite false ms es))
      by (rewrite FloatAxioms.mul_spec, Hsr, Hs; reflexivity).
    destruct (SFmul_below r mr er ms es) as [Hz | (m & e & Hf & He & Hm)]; try assumption.
    { split; [lia|]. apply Z.le_lt_trans with 255; [lia | reflexivity]. }
    + rewrite <- Hp in Hz.
      exists 0. unfold cast_uint8. rewrite Hz. simpl.
      repeat split; try lia; try (intros; exfalso; auto; fail).
      apply leb_zero_of_shape. auto.
    + rewrite <- Hp in Hf.
      destruct (trunc_SF_bounded m e r He Hm) as (t & Ht & Hrange).
      exists t. unfold cast_uint8. rewrite Hf, Ht.
      replace ((0 <=? t) && (t <=? 255)) with true
        by (symmetry; apply andb_true_iff; split; apply Z.leb_le; lia).
      repeat split; try lia; try (intros; exfalso; auto; fail).
      apply leb_zero_of_shape. eauto.
Qed.

(* ================================================================= *)
(** * Part III: the controller *)
(* ================================================================= *)

Ltac unfold_M :=
  unfold mbind, M_bind, mret, M_ret, throw, undefined, log in *.

(** ** Sensors *)

(** C4. [source::update] always returns normally, whatever the provider does;
    afterwards [last_value()] is the value just read when [get()] succeeded and
    is empty when [get()] failed, so a failed read never leaves the old value
    behind. Nothing but this source's value, the clock and the log changes. *)
Theorem source_update_fresh_or_empty (E : env) (s : source) (w : world) :
  exists w',
    source_update E s w = (Ok tt, w') /\
    last_value_ w' (source_this s) =
      match get s E (now w) with
      | inl v => Some v
      | inr _ => None
      end /\
    (forall v, get s E (now w) = inl v -> last_value_ w' (source_this s) = Some v) /\
    (forall e, get s E (now w) = inr e -> last_value_ w' (source_this s) = None) /\
    (forall a, a <> source_this s -> last_value_ w' a = last_value_ w a) /\
    files w' = files w.
Proof.
  unfold source_update, log.
  destruct (get s E (now w)) as [v|e] eqn:Hget; eexists; (split; [reflexivity|]);
    simpl; rewrite fn_lookup_insert;
    (repeat split; try reflexivity; try congruence;
     intros a Ha; rewrite fn_lookup_insert_ne by congruence; reflexivity).
Qed.

(** [std::from_chars] on the contents of a sensor file: an optional minus sign
    and digits, trailing bytes ignored; no digits or a value beyond [int32_t]
    is an error. *)
Example from_chars_examples :
  from_chars "42000" = inl 42000 /\
  from_chars "-5 C" = inl (-5) /\
  from_chars "" = inr invalid_argument /\
  from_chars "-" = inr invalid_argument /\
  from_chars "+5" = inr invalid_argument /\
  from_chars "2147483647" = inl 2147483647 /\
  from_chars "2147483648" = inr result_out_of_range /\
  from_chars "-2147483648" = inl (-2147483648).
Proof. vm_compute. repeat split; reflexivity. Qed.

(** A file source whose file turns unreadable loses its previous value. *)
Example file_source_clears_stale_value :
  let E := {| ofstream_answer := fun _ _ => WriteOk;
              ifstream_bytes := fun t _ => if (t =? 0)%nat then "61000" else "";
              signal_after := 0%nat |} in
  let w1 := snd (source_update E cpu_source initial_world) in
  let w2 := snd (source_update E cpu_source w1) in
  last_value_ w1 1%nat = Some 61000 /\ last_value_ w2 1%nat = None.
Proof. vm_compute. split; reflexivity. Qed.

(** ** Drivers *)

Lemma double_of_int_range a : 0 < a < 2 ^ 31 -> 0 < a < 2 ^ 53.
Proof.
  intros [H0 H1]. split; [assumption|].
  apply Z.lt_trans with (2 ^ 31); [assumption | reflexivity].
Qed.

(** The claim C3 as stated fails when [max - min] does not fit an [int]: with
    thresholds [INT32_MIN] and [INT32_MAX] and a reading of 0, strictly between
    them, the subtractions wrap and the coefficient is [2^31], outside [0, 1]. *)
Lemma get_coeff_overflow_counterexample :
  let d := driver.make 1%nat (-2147483648) 2147483647 in
  let w := world_with (Some 0) None in
  driver.min d < driver.max d /\
  driver.min d < 0 < driver.max d /\
  get_coeff d w = (Ok 2147483648%float, w) /\
  (2147483648 <=? 1)%float = false.
Proof. vm_compute. repeat split; reflexivity. Qed.

(** The arithmetic of the coefficient when the threshold difference fits. *)
Lemma coeff_spec (v lo hi : Z) :
  lo < hi -> hi - lo < 2 ^ 31 ->
  (v <= lo -> coeff v lo hi = 0%float) /\
  (hi <= v -> coeff v lo hi = 1%float) /\
  (lo < v < hi ->
     coeff v lo hi = (double_of_int (v - lo) / double_of_int (hi - lo))%float /\
     in_unit (coeff v lo hi)).
Proof.
  intros Hlt Hfit.
  assert (Hrange : wrap32 (hi - lo) = hi - lo).
  { apply wrap32_id. unfold int32. split; [|lia].
    apply Z.le_trans with 0; [vm_compute; discriminate | lia]. }
  assert (Hmid : lo <= v <= hi -> wrap32 (v - lo) = v - lo).
  { intros H. apply wrap32_id. unfold int32. split; [|lia].
    apply Z.le_trans with 0; [vm_compute; discriminate | lia]. }
  unfold coeff.
  destruct (Z.ltb_spec v lo) as [Hlo|Hlo]; [repeat split; intros; try reflexivity; lia|].
  destruct (Z.gtb_spec v hi) as [Hhi|Hhi]; [repeat split; intros; try reflexivity; lia|].
  rewrite Hrange, Hmid by lia.
  split; [|split].
  - intros H. replace v with lo by lia. rewrite Z.sub_diag.
    apply div_zero_l. apply double_of_int_range. lia.
  - intros H. replace v with hi by lia.
    apply div_same. apply double_of_int_range. lia.
  - intros H. split; [reflexivity|].
    apply div_unit_interval; [lia|].
    apply Z.lt_trans with (2 ^ 31); [lia | reflexivity].
Qed.

Lemma coeff_in_unit (v lo hi : Z) :
  lo < hi -> hi - lo < 2 ^ 31 -> in_unit (coeff v lo hi).
Proof.
  intros Hlt Hfit. destruct (coeff_spec v lo hi Hlt Hfit) as (H0 & H1 & Hmid).
  destruct (Z_le_gt_dec v lo) as [Hlo|Hlo]; [rewrite H0 by lia; split; reflexivity|].
  destruct (Z_le_gt_dec hi v) as [Hhi|Hhi]; [rewrite H1 by lia; split; reflexivity|].
  apply Hmid. lia.
Qed.

(** C3 (amended). For a driver with [min < max] whose difference fits an [int]
    and whose sensor holds [v], [get_coeff] returns exactly 0.0 when [v <= min],
    exactly 1.0 when [v >= max], and otherwise the double quotient of
    [v - min] by [max - min], which lies between 0.0 and 1.0. *)
Theorem get_coeff_spec (d : driver.t) (w : world) (v : Z) :
  last_value_ w (driver.src d) = Some v ->
  driver.min d < driver.max d ->
  driver.max d - driver.min d < 2 ^ 31 ->
  exists c,
    get_coeff d w = (Ok c, w) /\
    (v <= driver.min d -> c = 0%float) /\
    (driver.max d <= v -> c = 1%float) /\
    (driver.min d < v < driver.max d ->
       c = (double_of_int (v - driver.min d) /
            double_of_int (driver.max d - driver.min d))%float /\
       (0 <=? c)%float = true /\ (c <=? 1)%float = true).
Proof.
  intros Hv Hlt Hfit. unfold get_coeff. rewrite Hv.
  eexists; split; [reflexivity|].
  exact (coeff_spec v (driver.min d) (driver.max d) Hlt Hfit).
Qed.

Lemma get_coeff_spec_witness :
  exists c,
    get_coeff (driver.make 1%nat 60000 80000) (world_with (Some 70000) None)
      = (Ok c, world_with (Some 70000) None) /\
    (70000 <= 60000 -> c = 0%float) /\
    (80000 <= 70000 -> c = 1%float) /\
    (60000 < 70000 < 80000 ->
       c = (double_of_int (70000 - 60000) / double_of_int (80000 - 60000))%float /\
       (0 <=? c)%float = true /\ (c <=? 1)%float = true).
Proof.
  apply (get_coeff_spec (driver.make 1%nat 60000 80000)
           (world_with (Some 70000) None) 70000).
  - reflexivity.
  - simpl. lia.
  - simpl. lia.
Defined.

(** ** Construction *)

(** The claim C7 as stated fails for driver thresholds: [add_driver] has no
    check, so a driver with [min >= max] is attached to a constructed fan and the
    fan is used as it is (here the coefficient is a silent 0.0). *)
Lemma add_driver_unchecked_counterexample :
  exists f0,
    fan_new 3%nat "pwm2" 60 240 (Some max_element) = Constructed f0 /\
    drivers_ (add_driver f0 cpu_source 80000 60000) = [driver.make 1%nat 80000 60000] /\
    80000 >= 60000 /\
    get_coeff (driver.make 1%nat 80000 60000) (world_with (Some 70000) None)
      = (Ok 0%float, world_with (Some 70000) None).
Proof. eexists. repeat split. vm_compute. discriminate. Qed.

(** C7 (amended). The fan constructor asserts both of its invariants: it
    constructs a fan exactly when [pwm_min < pwm_max] and the accumulation
    function is not null, and fails its assertion otherwise; the constructed fan
    keeps the checked range, and a [main] whose fan violates an invariant
    aborts before anything is logged, read or written. [add_driver] checks
    nothing: it attaches the driver with whatever thresholds it is given. *)
Theorem construction_invariants (this0 : addr) (pwm : string) (pwm_min pwm_max : Z)
    (acc_fn : option accum_fn_t) :
  (pwm_min < pwm_max /\ acc_fn <> None <->
   exists f, fan_new this0 pwm pwm_min pwm_max acc_fn = Constructed f) /\
  (~ (pwm_min < pwm_max /\ acc_fn <> None) <->
   exists expr, fan_new this0 pwm pwm_min pwm_max acc_fn = AssertionFailed expr) /\
  (forall f, fan_new this0 pwm pwm_min pwm_max acc_fn = Constructed f ->
     pwm_min_ f < pwm_max_ f /\ Some (accum_fn_ f) = acc_fn /\ drivers_ f = []) /\
  (~ (pwm_min < pwm_max /\ acc_fn <> None) ->
   forall E, exists expr,
     main_with pwm_min pwm_max acc_fn E = (Aborted expr, initial_world) /\
     trace initial_world = []) /\
  (forall f src min max,
     drivers_ (add_driver f src min max)
       = drivers_ f ++ [driver.make (source_this src) min max] /\
     pwm_min_ (add_driver f src min max) = pwm_min_ f /\
     pwm_max_ (add_driver f src min max) = pwm_max_ f).
Proof.
  unfold main_with, fan_new.
  destruct (Z.ltb_spec pwm_min pwm_max) as [Hlt|Hge]; simpl;
    [destruct acc_fn as [fn|] |].
  - split; [|split; [|split; [|split]]].
    + split; [eauto | intros _; split; [assumption | discriminate]].
    + split; [intros H; exfalso; apply H; split; [assumption | discriminate]
             | intros [expr H]; discriminate].
    + intros f H. injection H as <-. auto.
    + intros H. exfalso. apply H. split; [assumption | discriminate].
    + intros; auto.
  - split; [|split; [|split; [|split]]].
    + split; [intros [_ H]; congruence | intros [f H]; discriminate].
    + split; [eauto | intros _ [_ H]; congruence].
    + intros f H. discriminate.
    + intros _ E. eauto.
    + intros; auto.
  - split; [|split; [|split; [|split]]].
    + split; [intros [H _]; lia | intros [f H]; discriminate].
    + split; [eauto | intros _ [H _]; lia].
    + intros f H. discriminate.
    + intros _ E. eauto.
    + intros; auto.
Qed.

(** ** Fan update *)

Lemma get_coeff_present d w v :
  last_value_ w (driver.src d) = Some v ->
  get_coeff d w = (Ok (coeff v (driver.min d) (driver.max d)), w).
Proof. intros H. unfold get_coeff. rewrite H. reflexivity. Qed.

Lemma get_coeff_absent d w :
  last_value_ w (driver.src d) = None ->
  get_coeff d w = (Throw bad_optional_access, w).
Proof. intros H. unfold get_coeff. rewrite H. reflexivity. Qed.

(** The loop stops at the first driver whose source holds no value. *)
Lemma collect_coeffs_first_missing ds1 d ds2 w : forall values,
  Forall (fun d' => last_value_ w (driver.src d') <> None) ds1 ->
  last_value_ w (driver.src d) = None ->
  collect_coeffs (ds1 ++ d :: ds2) values w = inl d.
Proof.
  induction ds1 as [|d1 ds1 IH]; intros values Hall Hd; simpl.
  - rewrite get_coeff_absent by assumption. reflexivity.
  - apply Forall_cons in Hall. destruct Hall as [H1 Hall].
    destruct (last_value_ w (driver.src d1)) as [v|] eqn:Hv; [|congruence].
    rewrite (get_coeff_present _ _ _ Hv). apply IH; assumption.
Qed.

(** Splitting a driver list at the first source without a value. *)
Lemma first_missing_split (ds : list driver.t) (w : world) :
  (exists d, d ∈ ds /\ last_value_ w (driver.src d) = None) ->
  exists ds1 d ds2,
    ds = ds1 ++ d :: ds2 /\
    Forall (fun d' => last_value_ w (driver.src d') <> None) ds1 /\
    last_value_ w (driver.src d) = None.
Proof.
  induction ds as [|d0 ds IH]; intros (d & Hin & Hd).
  - inversion Hin.
  - destruct (last_value_ w (driver.src d0)) as [v|] eqn:Hv0.
    + destruct IH as (ds1 & d1 & ds2 & -> & Hall & Hd1).
      { exists d. split; [|assumption].
        apply elem_of_cons in Hin. destruct Hin as [->|Hin]; [congruence | assumption]. }
      exists (d0 :: ds1), d1, ds2. repeat split; [|assumption].
      apply Forall_cons. split; [congruence | assumption].
    + exists [], d0, ds. repeat split; [constructor | assumption].
Qed.

(** C1. If the sensor of any attached driver has no value, [fan::update]
    returns normally having done nothing but log one warning that names the fan
    and the first source without a value: no resource is opened or written (the
    files, and so the last commanded duty, are unchanged), the accumulation
    function is not called, and the result does not depend on the fan's
    accumulation function, range or path. *)
Theorem update_skips_on_missing_value (E : env) (f : fan) (w : world) :
  (exists d, d ∈ drivers_ f /\ last_value_ w (driver.src d) = None) ->
  exists ds1 d ds2,
    drivers_ f = ds1 ++ d :: ds2 /\
    Forall (fun d' => last_value_ w (driver.src d') <> None) ds1 /\
    last_value_ w (driver.src d) = None /\
    update E f w = (Ok tt, emit (EvLog WARN (msg_no_value (this f) (driver.src d))) w) /\
    files (snd (update E f w)) = files w /\
    new_events w (snd (update E f w))
      = [EvLog WARN (msg_no_value (this f) (driver.src d))] /\
    (forall E' f', this f' = this f -> drivers_ f' = drivers_ f ->
       update E' f' w = update E f w).
Proof.
  intros Hmiss.
  destruct (first_missing_split _ _ Hmiss) as (ds1 & d & ds2 & Hds & Hall & Hd).
  exists ds1, d, ds2.
  assert (Hupd : forall E' f', this f' = this f -> drivers_ f' = drivers_ f ->
            update E' f' w
              = (Ok tt, emit (EvLog WARN (msg_no_value (this f) (driver.src d))) w)).
  { intros E' f' Ht Hdr. unfold update. rewrite Hdr, Hds.
    rewrite collect_coeffs_first_missing by assumption.
    unfold log. rewrite Ht. reflexivity. }
  repeat split; try assumption.
  - apply Hupd; reflexivity.
  - rewrite Hupd by reflexivity. reflexivity.
  - rewrite Hupd by reflexivity. unfold new_events. simpl.
    apply drop_app_length.
  - intros E' f' Ht Hdr. rewrite !Hupd by (reflexivity || assumption). reflexivity.
Qed.

Lemma update_skips_on_missing_value_witness :
  exists ds1 d ds2,
    drivers_ scenario_fan = ds1 ++ d :: ds2 /\
    Forall (fun d' => last_value_ (world_with (Some 64000) None) (driver.src d') <> None) ds1 /\
    last_value_ (world_with (Some 64000) None) (driver.src d) = None /\
    update writable_env scenario_fan (world_with (Some 64000) None)
      = (Ok tt, emit (EvLog WARN (msg_no_value (this scenario_fan) (driver.src d)))
                  (world_with (Some 64000) None)) /\
    files (snd (update writable_env scenario_fan (world_with (Some 64000) None)))
      = files (world_with (Some 64000) None) /\
    new_events (world_with (Some 64000) None)
      (snd (update writable_env scenario_fan (world_with (Some 64000) None)))
      = [EvLog WARN (msg_no_value (this scenario_fan) (driver.src d))] /\
    (forall E' f', this f' = this scenario_fan -> drivers_ f' = drivers_ scenario_fan ->
       update E' f' (world_with (Some 64000) None)
         = update writable_env scenario_fan (world_with (Some 64000) None)).
Proof.
  apply (update_skips_on_missing_value writable_env scenario_fan
           (world_with (Some 64000) None)).
  exists (driver.make 2%nat 42000 50000). split.
  - simpl. apply elem_of_cons. right. apply elem_of_cons. left. reflexivity.
  - reflexivity.
Defined.

(** What [set_pwm] does, by the answer of the environment. *)
Lemma set_pwm_spec (E : env) (f : fan) (v : Z) (w : world) :
  let a := ofstream_answer E (now w) (pwm_ f) in
  let value := to_uint8 v in
  let w' := snd (set_pwm E f v w) in
  fst (set_pwm E f v w)
    = (if is_good a then Ok tt else Throw (set_pwm_failed (this f) (name f) value)) /\
  trace w' = trace w ++
    EvOpen (pwm_ f) (is_open a) :: EvWrite (pwm_ f) (pretty value) (is_good a) ::
    (if is_good a then [EvLog TRACE (msg_pwm_set value)] else []) /\
  files w' = match a with
             | WriteOk => <[pwm_ f := pretty value]> (files w)
             | WriteLost => <[pwm_ f := ""]> (files w)
             | OpenFails => files w
             end /\
  now w' = S (now w) /\
  last_value_ w' = last_value_ w.
Proof.
  unfold set_pwm, ofstream, stream_insert. unfold_M. simpl.
  destruct (ofstream_answer E (now w) (pwm_ f)); simpl;
    rewrite <- ?app_assoc; simpl; repeat split; try reflexivity.
  apply insert_insert_eq.
Qed.

(** The cast of a non-negative double takes the floor of its exact value. *)
Lemma cast_uint8_floor x t :
  (0 <=? x)%float = true -> cast_uint8 x = Some t -> floor_of t x.
Proof.
  unfold cast_uint8, floor_of. rewrite FloatAxioms.leb_spec.
  change (Prim2SF 0) with (S754_zero false). rewrite SFleb_zero_l.
  destruct (Prim2SF x) as [b|[]| |[] m e]; simpl; try contradiction; try discriminate;
    intros _ H.
  - destruct ((0 <=? 0) && (0 <=? 255)); congruence.
  - destruct ((0 <=? Z.shiftl (Zpos m) e) && (Z.shiftl (Zpos m) e <=? 255)); [|discriminate].
    injection H as <-.
    destruct (Z_le_gt_dec 0 e) as [He|He].
    + rewrite Z.shiftl_mul_pow2 by lia.
      replace (Z.max 0 (- e)) with 0 by lia. replace (Z.max 0 e) with e by lia.
      rewrite Z.pow_0_r. lia.
    + rewrite Z.shiftl_div_pow2 by lia.
      replace (Z.max 0 (- e)) with (- e) by lia. replace (Z.max 0 e) with 0 by lia.
      rewrite Z.pow_0_r, Z.mul_1_r.
      assert (H2 : 0 < 2 ^ (- e)) by (apply Z.pow_pos_nonneg; lia).
      pose proof (Z.mul_div_le (Zpos m) (2 ^ (- e)) H2).
      pose proof (Z.mul_succ_div_gt (Zpos m) (2 ^ (- e)) H2).
      lia.
Qed.

(** The statements of [fan::update] once every coefficient is available. *)
Lemma update_unfold (E : env) (f : fan) (w : world) values scale c :
  collect_coeffs (drivers_ f) [] w = inr values ->
  accum_fn_ f values = Some scale ->
  cast_uint8 (double_of_int (pwm_max_ f - pwm_min_ f) * scale)%float = Some c ->
  update E f w =
    (set_pwm E f (pwm_min_ f + c);; log INFO (msg_fan_set (pwm_ f) (pwm_min_ f + c)))
      (emit (EvAccum values) (emit (EvLog TRACE (msg_coefficients values)) w)).
Proof.
  intros Hc Ha Hcast. unfold update. rewrite Hc. unfold_M. simpl.
  rewrite Ha, Hcast. reflexivity.
Qed.

(** C2. For a fan with [pwm_min < pwm_max] whose accumulation function returns
    a scale between 0.0 and 1.0, [fan::update] passes to [set_pwm] the duty
    [pwm_min + t], where [t] is the floor of the double product of the range
    and the scale (truncation, not rounding); the cast is defined, the duty
    lies in [pwm_min, pwm_max] and so survives the conversion to [uint8_t]
    unchanged, it is [pwm_min] for scale 0.0 and [pwm_max] for scale 1.0, and
    its decimal text is what is written to the actuator. *)
Theorem update_duty (E : env) (f : fan) (w : world) (values : list float) (scale : float) :
  uint8 (pwm_min_ f) -> uint8 (pwm_max_ f) -> pwm_min_ f < pwm_max_ f ->
  collect_coeffs (drivers_ f) [] w = inr values ->
  accum_fn_ f values = Some scale ->
  (0 <=? scale)%float = true -> (scale <=? 1)%float = true ->
  exists t duty,
    cast_uint8 (double_of_int (pwm_max_ f - pwm_min_ f) * scale)%float = Some t /\
    floor_of t (double_of_int (pwm_max_ f - pwm_min_ f) * scale)%float /\
    duty = pwm_min_ f + t /\
    pwm_min_ f <= duty <= pwm_max_ f /\
    to_uint8 duty = duty /\
    ((scale =? 0)%float = true -> duty = pwm_min_ f) /\
    (scale = 1%float -> duty = pwm_max_ f) /\
    update E f w =
      (set_pwm E f duty;; log INFO (msg_fan_set (pwm_ f) duty))
        (emit (EvAccum values) (emit (EvLog TRACE (msg_coefficients values)) w)) /\
    exists good, EvWrite (pwm_ f) (pretty duty) good ∈ new_events w (snd (update E f w)).
Proof.
  intros Hmin Hmax Hlt Hc Ha H0 H1. unfold uint8 in *.
  destruct (scale_cast (pwm_max_ f - pwm_min_ f) scale) as (t & Hcast & Ht & Hpos & Hz & Ho);
    [lia | assumption | assumption |].
  exists t, (pwm_min_ f + t).
  assert (Hu8 : to_uint8 (pwm_min_ f + t) = pwm_min_ f + t)
    by (unfold to_uint8; apply Z.mod_small; lia).
  pose proof (update_unfold E f w values scale t Hc Ha Hcast) as Hupd.
  repeat split; try lia; try assumption.
  - apply cast_uint8_floor; assumption.
  - intros H. rewrite (Hz H). lia.
  - intros H. rewrite (Ho H). lia.
  - set (w0 := emit (EvAccum values) (emit (EvLog TRACE (msg_coefficients values)) w)) in *.
    destruct (set_pwm_spec E f (pwm_min_ f + t) w0) as (Hfst & Htr & _).
    rewrite Hu8 in Htr, Hfst.
    exists (is_good (ofstream_answer E (now w0) (pwm_ f))).
    assert (Hpre : exists evs, trace (snd (update E f w)) =
              trace w ++ [EvLog TRACE (msg_coefficients values); EvAccum values;
                          EvOpen (pwm_ f) (is_open (ofstream_answer E (now w0) (pwm_ f)));
                          EvWrite (pwm_ f) (pretty (pwm_min_ f + t))
                            (is_good (ofstream_answer E (now w0) (pwm_ f)))] ++ evs).
    { rewrite Hupd. unfold_M.
      destruct (set_pwm E f (pwm_min_ f + t) w0) as [[[]|e|] w1] eqn:Hs; simpl in *;
        rewrite Htr; unfold w0; simpl; rewrite <- !app_assoc; simpl;
        eexists; f_equal; f_equal; f_equal; f_equal; f_equal; rewrite <- ?app_assoc; reflexivity. }
    destruct Hpre as [evs Hpre]. unfold new_events. rewrite Hpre.
    rewrite drop_app_length, elem_of_app, !elem_of_cons.
    left. do 3 right. left. reflexivity.
Qed.

Lemma update_duty_witness :
  exists t duty,
    cast_uint8 (double_of_int (240 - 60) * 0.5)%float = Some t /\
    floor_of t (double_of_int (240 - 60) * 0.5)%float /\
    duty = 60 + t /\
    60 <= duty <= 240 /\
    to_uint8 duty = duty /\
    ((0.5 =? 0)%float = true -> duty = 60) /\
    (0.5%float = 1%float -> duty = 240) /\
    update writable_env single_driver_fan (world_with (Some 70000) None) =
      (set_pwm writable_env single_driver_fan duty;;
       log INFO (msg_fan_set (pwm_ single_driver_fan) duty))
        (emit (EvAccum [0.5%float])
           (emit (EvLog TRACE (msg_coefficients [0.5%float]))
              (world_with (Some 70000) None))) /\
    exists good,
      EvWrite (pwm_ single_driver_fan) (pretty duty) good
        ∈ new_events (world_with (Some 70000) None)
            (snd (update writable_env single_driver_fan (world_with (Some 70000) None))).
Proof.
  apply (update_duty writable_env single_driver_fan (world_with (Some 70000) None)
           [0.5%float] 0.5%float).
  - unfold uint8. simpl. lia.
  - unfold uint8. simpl. lia.
  - simpl. lia.
  - reflexivity.
  - reflexivity.
  - reflexivity.
  - reflexivity.
Defined.

(** The worked example of the specification: range 60..240, one driver with
    thresholds 60000 and 80000, reading 70000: coefficient 0.5, duty 150. *)
Example update_scenario_150 :
  collect_coeffs (drivers_ single_driver_fan) [] (world_with (Some 70000) None)
    = inr [0.5%float] /\
  files (snd (update writable_env single_driver_fan (world_with (Some 70000) None)))
    !! pwm_ single_driver_fan = Some "150" /\
  fst (update writable_env single_driver_fan (world_with (Some 70000) None)) = Ok tt.
Proof. vm_compute. repeat split; reflexivity. Qed.

(** The product is the rounded double product: for a range of 3 and the double
    nearest to one third it is exactly 1.0, although the exact product of the
    two doubles is below 1. *)
Example product_is_rounded :
  Prim2SF (1 / 3)%float = S754_finite false 6004799503160661 (-54) /\
  3 * 6004799503160661 < 2 ^ 54 /\
  (double_of_int 3 * (1 / 3) =? 1)%float = true /\
  cast_uint8 (double_of_int 3 * (1 / 3))%float = Some 1.
Proof. vm_compute. repeat split; reflexivity. Qed.

(** Truncation, not rounding: a product of 168.75 yields 168. *)
Example cast_truncates :
  (double_of_int 180 * 0.9375 =? 168.75)%float = true /\
  cast_uint8 (double_of_int 180 * 0.9375)%float = Some 168.
Proof. vm_compute. split; reflexivity. Qed.

(** ** Reset *)

Ltac trace_norm :=
  unfold new_events; simpl; rewrite <- ?app_assoc; simpl; rewrite ?drop_app_length.

Lemma string_length_app (s t : string) :
  String.length (s +:+ t) = (String.length s + String.length t)%nat.
Proof. induction s as [|c s IH]; simpl; [reflexivity | rewrite IH; reflexivity]. Qed.

Lemma enable_path_neq (f : fan) : enable_path f <> pwm_ f.
Proof.
  unfold enable_path. intros H. apply (f_equal String.length) in H.
  rewrite string_length_app in H. simpl in H. lia.
Qed.

Lemma to_uint8_range v : uint8 (to_uint8 v).
Proof.
  unfold uint8, to_uint8. pose proof (Z.mod_pos_bound v 256 ltac:(lia)). lia.
Qed.

(** The three ways [fan::reset] can go at the enable step. *)
Lemma reset_unfold (E : env) (f : fan) (w : world) :
  reset E f w =
    match ofstream_answer E (now w) (enable_path f) with
    | OpenFails =>
        set_pwm E f 255
          (emit (EvLog DEBUG (msg_no_enable (enable_path f)))
             (emit (EvOpen (enable_path f) false) (tick w)))
    | WriteLost =>
        set_pwm E f 255
          (emit (EvWrite (enable_path f) "1" true)
             (store_file (enable_path f) ""
                (emit (EvOpen (enable_path f) true) (tick w))))
    | WriteOk =>
        set_pwm E f 255
          (store_file (enable_path f) "1"
             (emit (EvWrite (enable_path f) "1" true)
                (store_file (enable_path f) ""
                   (emit (EvOpen (enable_path f) true) (tick w)))))
    end.
Proof.
  unfold reset, ofstream, stream_insert. unfold_M.
  destruct (ofstream_answer E (now w) (enable_path f)); reflexivity.
Qed.

(** C6. The defect, on a fan whose enable resource and actuator both open
    while the device rejects what is written to them: the marker and the 255
    only fill the buffers of their streams, both streams are good after the
    insertion, and the failed flushes in the destructors go unnoticed.
    [fan::reset] returns normally - neither [reset_failed] nor
    [set_pwm_failed] is thrown - and neither resource holds what was written. *)
Theorem reset_write_failure_undetected :
  let w' := snd (reset rejecting_env scenario_fan initial_world) in
  ofstream_answer rejecting_env 0%nat (enable_path scenario_fan) = WriteLost /\
  ofstream_answer rejecting_env 1%nat (pwm_ scenario_fan) = WriteLost /\
  fst (reset rejecting_env scenario_fan initial_world) = Ok tt /\
  new_events initial_world w'
    = [EvOpen (enable_path scenario_fan) true;
       EvWrite (enable_path scenario_fan) "1" true;
       EvOpen (pwm_ scenario_fan) true;
       EvWrite (pwm_ scenario_fan) "255" true;
       EvLog TRACE (msg_pwm_set 255)] /\
  files w' !! enable_path scenario_fan <> Some "1" /\
  files w' !! pwm_ scenario_fan <> Some "255".
Proof. vm_compute. repeat split; try reflexivity; discriminate. Qed.

(** X16. What [fan::reset] does, by the answers of the environment: the
    enable resource, the actuator path with the suffix [_enable], is opened
    first; when it does not open, a debug message is all that happens before
    the full-speed write, and when it opens, the marker is inserted and the
    stream is good, whether or not the device takes the marker. The 255 is then
    written in every case; [set_pwm_failed] is thrown exactly when the actuator
    does not open, and [reset_failed] is never thrown. *)
Theorem reset_protocol (E : env) (f : fan) (w : world) :
  let a1 := ofstream_answer E (now w) (enable_path f) in
  let a2 := ofstream_answer E (S (now w)) (pwm_ f) in
  let r := fst (reset E f w) in
  let w' := snd (reset E f w) in
  enable_path f = pwm_ f +:+ "_enable" /\
  (exists evs, new_events w w' = EvOpen (enable_path f) (is_open a1) :: evs) /\
  match a1 with
  | OpenFails =>
      exists w0,
        new_events w w0 = [EvOpen (enable_path f) false;
                           EvLog DEBUG (msg_no_enable (enable_path f))] /\
        files w0 = files w /\ now w0 = S (now w) /\
        reset E f w = set_pwm E f 255 w0
  | WriteLost =>
      exists w0,
        new_events w w0 = [EvOpen (enable_path f) true;
                           EvWrite (enable_path f) "1" true] /\
        files w0 !! enable_path f = Some "" /\ now w0 = S (now w) /\
        reset E f w = set_pwm E f 255 w0
  | WriteOk =>
      exists w0,
        new_events w w0 = [EvOpen (enable_path f) true;
                           EvWrite (enable_path f) "1" true] /\
        files w0 !! enable_path f = Some "1" /\ now w0 = S (now w) /\
        reset E f w = set_pwm E f 255 w0
  end /\
  EvOpen (pwm_ f) (is_open a2) ∈ new_events w w' /\
  EvWrite (pwm_ f) "255" (is_good a2) ∈ new_events w w' /\
  r = (if is_good a2 then Ok tt
       else Throw (set_pwm_failed (this f) (name f) 255)) /\
  r <> Throw (reset_failed (this f) (name f)).
Proof.
  intros a1 a2 r w'. split; [reflexivity|].
  pose proof (reset_unfold E f w) as Hr. fold a1 in Hr.
  unfold r, w'. rewrite Hr. clear Hr.
  destruct a1 eqn:Ha1;
    match goal with
    | |- context [set_pwm E f 255 ?w1] => set (w0 := w1)
    end;
    destruct (set_pwm_spec E f 255 w0) as (Hfst & Htr & _);
    change (ofstream_answer E (now w0) (pwm_ f)) with a2 in *;
    change (pretty (to_uint8 255)) with "255" in Htr;
    change (to_uint8 255) with 255 in *;
    (split; [unfold new_events; rewrite Htr; trace_norm; eauto|]);
    (split; [exists w0; split; [|split; [|split]]; trace_norm;
                    rewrite ?lookup_insert_eq; reflexivity|]);
    rewrite Hfst; unfold new_events; rewrite Htr; trace_norm;
    rewrite !elem_of_cons;
    (split; [auto 10|]); (split; [auto 10|]); (split; [reflexivity|]);
    destruct (is_good a2); discriminate.
Qed.

(** When [fan::reset] returns normally, and what the resources then hold. *)
Lemma reset_success (E : env) (f : fan) (w : world) :
  let a1 := ofstream_answer E (now w) (enable_path f) in
  let a2 := ofstream_answer E (S (now w)) (pwm_ f) in
  (fst (reset E f w) = Ok tt <-> a2 <> OpenFails) /\
  (fst (reset E f w) = Ok tt ->
   files (snd (reset E f w)) =
     <[pwm_ f := match a2 with WriteOk => "255" | _ => "" end]>
       (match a1 with
        | WriteOk => <[enable_path f := "1"]> (files w)
        | WriteLost => <[enable_path f := ""]> (files w)
        | OpenFails => files w
        end) /\
   now (snd (reset E f w)) = S (S (now w))).
Proof.
  intros a1 a2. rewrite reset_unfold. fold a1.
  destruct a1 eqn:Ha1;
    match goal with
    | |- context [set_pwm E f 255 ?w1] => set (w0 := w1)
    end;
    destruct (set_pwm_spec E f 255 w0) as (Hfst & _ & Hfiles & Hnow & _);
    change (ofstream_answer E (now w0) (pwm_ f)) with a2 in *;
    change (pretty (to_uint8 255)) with "255" in Hfiles;
    rewrite Hfst, Hfiles, Hnow; destruct a2; simpl;
    (split; [split; [intros H; try discriminate H; discriminate
                    | intros H; try congruence; reflexivity]|]);
    intros H; try discriminate H;
    rewrite ?insert_insert_eq; split; reflexivity.
Qed.

(** C9. The defect of the undetected write failure, on two calls in a row:
    in an environment that answers both calls alike and rejects what is
    written, [reset()] reports no error either time, and the actuator holds
    255 after neither call. *)
Theorem reset_twice_write_failure_undetected :
  let w1 := snd (reset rejecting_env scenario_fan initial_world) in
  let w2 := snd (reset rejecting_env scenario_fan w1) in
  reset rejecting_env scenario_fan initial_world = (Ok tt, w1) /\
  same_answers rejecting_env scenario_fan initial_world w1 /\
  reset rejecting_env scenario_fan w1 = (Ok tt, w2) /\
  files w1 !! pwm_ scenario_fan <> Some "255" /\
  files w2 !! pwm_ scenario_fan <> Some "255".
Proof. vm_compute. repeat split; try reflexivity; discriminate. Qed.

(** X17. Where the device takes the duty written by a [reset()] that
    returned, and the environment answers the next [reset()] the same way, the
    second [reset()] returns normally too; the actuator holds ["255"] after
    each of them, and the second call leaves every resource as the first one
    left it. *)
Theorem reset_idempotent (E : env) (f : fan) (w w1 : world) :
  reset E f w = (Ok tt, w1) ->
  ofstream_answer E (S (now w)) (pwm_ f) <> WriteLost ->
  same_answers E f w w1 ->
  exists w2,
    reset E f w1 = (Ok tt, w2) /\
    files w1 !! pwm_ f = Some "255" /\
    files w2 !! pwm_ f = Some "255" /\
    files w2 = files w1.
Proof.
  intros Hr Htaken [Hsame1 Hsame2].
  destruct (reset_success E f w) as [Hiff Hfiles].
  assert (Hok : fst (reset E f w) = Ok tt) by (rewrite Hr; reflexivity).
  pose proof (proj1 Hiff Hok) as Ha2.
  destruct (Hfiles Hok) as [Hf1 _]. rewrite Hr in Hf1. simpl in Hf1.
  destruct (reset_success E f w1) as [Hiff' Hfiles'].
  assert (Hok' : fst (reset E f w1) = Ok tt).
  { apply Hiff'. rewrite Hsame2. exact Ha2. }
  destruct (Hfiles' Hok') as [Hf2 _].
  exists (snd (reset E f w1)).
  rewrite Hsame1, Hsame2 in Hf2.
  pose proof (enable_path_neq f) as Hne.
  destruct (ofstream_answer E (S (now w)) (pwm_ f)) eqn:Ha; try congruence.
  split; [|split; [|split]].
  - destruct (reset E f w1) as [r w2]. simpl in *. congruence.
  - rewrite Hf1. apply lookup_insert_eq.
  - rewrite Hf2. apply lookup_insert_eq.
  - rewrite Hf2, Hf1. apply map_eq. intros k.
    destruct (ofstream_answer E (now w) (enable_path f));
      destruct (decide (k = pwm_ f)) as [Hk1|Hk1];
      destruct (decide (k = enable_path f)) as [Hk2|Hk2];
      try congruence; simplify_map_eq; reflexivity.
Qed.

Lemma reset_idempotent_witness :
  exists w2,
    reset writable_env scenario_fan (snd (reset writable_env scenario_fan initial_world))
      = (Ok tt, w2) /\
    files (snd (reset writable_env scenario_fan initial_world)) !! pwm_ scenario_fan
      = Some "255" /\
    files w2 !! pwm_ scenario_fan = Some "255" /\
    files w2 = files (snd (reset writable_env scenario_fan initial_world)).
Proof.
  apply (reset_idempotent writable_env scenario_fan initial_world
           (snd (reset writable_env scenario_fan initial_world))).
  - reflexivity.
  - discriminate.
  - split; reflexivity.
Defined.

(** ** What reaches the actuator *)

Section Emits.
Context (P : event -> Prop).

Lemma emits_weaken {A} (Q : event -> Prop) (m : M A) :
  (forall ev, Q ev -> P ev) -> emits Q m -> emits P m.
Proof.
  intros HQ Hm w. destruct (Hm w) as (evs & Htr & Hall).
  exists evs. split; [assumption|]. eapply Forall_impl; eauto.
Qed.

Lemma emits_ret {A} (a : A) : emits P (mret a).
Proof. intros w. exists []. rewrite app_nil_r. split; [reflexivity | constructor]. Qed.

Lemma emits_throw {A} (e : exn) : emits P (@throw A e).
Proof. intros w. exists []. rewrite app_nil_r. split; [reflexivity | constructor]. Qed.

Lemma emits_undefined {A} : emits P (@undefined A).
Proof. intros w. exists []. rewrite app_nil_r. split; [reflexivity | constructor]. Qed.

Lemma emits_bind {A B} (m : M A) (k : A -> M B) :
  emits P m -> (forall a, emits P (k a)) -> emits P (m ≫= k).
Proof.
  intros Hm Hk w. unfold mbind, M_bind.
  destruct (Hm w) as (evs1 & Htr1 & Hall1).
  destruct (m w) as [[a|e|] w1]; simpl in *.
  - destruct (Hk a w1) as (evs2 & Htr2 & Hall2).
    exists (evs1 ++ evs2). rewrite Htr2, Htr1, app_assoc.
    split; [reflexivity | apply Forall_app; auto].
  - exists evs1. auto.
  - exists evs1. auto.
Qed.

Lemma emits_event {A} (a : A) (ev : event) :
  P ev -> emits P (fun w => (Ok a, emit ev w)).
Proof. intros Hev w. exists [ev]. split; [reflexivity | repeat constructor; assumption]. Qed.

Lemma emits_log l msg : P (EvLog l msg) -> emits P (log l msg).
Proof. apply emits_event. Qed.

Lemma emits_ofstream E path :
  (forall b, P (EvOpen path b)) -> emits P (ofstream E path).
Proof.
  intros HP w. exists [EvOpen path (is_open (ofstream_answer E (now w) path))].
  unfold ofstream. simpl.
  destruct (is_open (ofstream_answer E (now w) path)); simpl;
    (split; [reflexivity | repeat constructor; apply HP]).
Qed.

Lemma emits_stream_insert path a data :
  (forall b, P (EvWrite path data b)) -> emits P (stream_insert path a data).
Proof.
  intros HP w. unfold stream_insert.
  destruct a; simpl; eexists; (split; [reflexivity | repeat constructor; apply HP]).
Qed.

Lemma emits_try_catch_fan {A} (body : M A) (handler : exn -> M A) :
  emits P body -> (forall e, emits P (handler e)) -> emits P (try_catch_fan body handler).
Proof.
  intros Hb Hh w. unfold try_catch_fan.
  destruct (Hb w) as (evs1 & Htr1 & Hall1).
  destruct (body w) as [[a|e|] w1]; simpl in *; try (exists evs1; auto; fail).
  destruct (is_fan_exception e); [|exists evs1; auto].
  destruct (Hh e w1) as (evs2 & Htr2 & Hall2).
  exists (evs1 ++ evs2). rewrite Htr2, Htr1, app_assoc.
  split; [reflexivity | apply Forall_app; auto].
Qed.

Lemma emits_for_each {A} (body : A -> M unit) (xs : list A) :
  (forall x, emits P (body x)) -> emits P (for_each body xs).
Proof.
  intros Hb. induction xs as [|x xs IH]; simpl.
  - apply emits_ret.
  - apply emits_bind; auto.
Qed.

(** The events between two states satisfy what the computation emits. *)
Lemma emits_new_events {A} (m : M A) (w : world) (ev : event) :
  emits P m -> ev ∈ new_events w (snd (m w)) -> P ev.
Proof.
  intros Hm Hin. destruct (Hm w) as (evs & Htr & Hall).
  unfold new_events in Hin. rewrite Htr, drop_app_length in Hin.
  rewrite Forall_forall in Hall. auto.
Qed.
End Emits.

Lemma set_pwm_emits (E : env) (f : fan) (v : Z) :
  emits (writes_only (pwm_ f) (to_uint8 v)) (set_pwm E f v).
Proof.
  unfold set_pwm. apply emits_bind; [apply emits_ofstream; intros; exact I|].
  intros a. apply emits_bind; [apply emits_stream_insert; intros; split; reflexivity|].
  intros [|]; [apply emits_log; exact I | apply emits_throw].
Qed.

Lemma update_emits (E : env) (f : fan) : emits (update_event f) (update E f).
Proof.
  intros w. unfold update.
  destruct (collect_coeffs (drivers_ f) [] w) as [d|values].
  { apply (emits_log _ WARN). exact I. }
  revert w. apply emits_bind; [apply emits_log; exact I|]. intros _.
  apply emits_bind; [apply emits_event; exact I|]. intros _.
  destruct (accum_fn_ f values) as [scale|]; [|apply emits_undefined].
  destruct (cast_uint8 _) as [c|]; [|apply emits_undefined].
  apply emits_bind; [|intros _; apply emits_log; exact I].
  eapply emits_weaken; [|apply set_pwm_emits].
  intros [] H; simpl in *; auto.
  destruct H as [-> ->]. split; [reflexivity|]. eauto using to_uint8_range.
Qed.

Lemma reset_emits (E : env) (f : fan) : emits (reset_event f) (reset E f).
Proof.
  unfold reset. apply emits_bind; [apply emits_ofstream; intros; exact I|]. intros a.
  apply emits_bind.
  - destruct (is_open a); [|apply emits_log; exact I].
    apply emits_bind; [apply emits_stream_insert; intros; right; split; reflexivity|].
    intros [|]; [apply emits_ret | apply emits_throw].
  - intros _. eapply emits_weaken; [|apply set_pwm_emits].
    intros [] H; simpl in *; auto.
Qed.

Lemma uint8_text_of_update f ev : update_event f ev -> uint8_text ev.
Proof. destruct ev; simpl; auto. intros [_ H]. exact H. Qed.

Lemma uint8_text_of_reset f ev : reset_event f ev -> uint8_text ev.
Proof.
  destruct ev; simpl; auto. intros [[_ ->] | [_ ->]].
  - exists 255. split; [unfold uint8; lia | reflexivity].
  - exists 1. split; [unfold uint8; lia | reflexivity].
Qed.

Lemma reset_fans_emits (E : env) (fans : list fan) : emits uint8_text (reset_fans E fans).
Proof.
  unfold reset_fans. apply emits_bind; [apply emits_log; exact I|]. intros _.
  induction fans as [|f fans IH]; simpl; [apply emits_ret|].
  apply emits_bind; [|intros _; exact IH].
  apply emits_try_catch_fan.
  - eapply emits_weaken; [apply (uint8_text_of_reset f) | apply reset_emits].
  - intros e. apply emits_bind; [apply emits_log; exact I | intros _; apply emits_throw].
Qed.

Lemma source_update_emits (E : env) (s : source) : emits uint8_text (source_update E s).
Proof.
  intros w. unfold source_update.
  destruct (get s E (now w)); eexists; (split; [reflexivity | repeat constructor]).
Qed.

Lemma main_loop_emits (E : env) (n : nat) sources fans :
  emits uint8_text (main_loop E n sources fans).
Proof.
  induction n as [|n IH]; simpl; [apply emits_ret|].
  apply emits_bind; [apply emits_for_each, source_update_emits|]. intros _.
  apply emits_bind.
  { apply emits_for_each. intros f.
    eapply emits_weaken; [apply (uint8_text_of_update f) | apply update_emits]. }
  intros _. apply emits_bind; [apply emits_event; exact I | intros _; exact IH].
Qed.

Lemma run_emits (E : env) sources fans (w : world) :
  exists evs, trace (snd (run E sources fans w)) = trace w ++ evs /\ Forall uint8_text evs.
Proof.
  assert (Hg : emits uint8_text (guarded E sources fans)).
  { unfold guarded. apply emits_bind; [apply reset_fans_emits|]. intros _.
    apply emits_bind; [apply main_loop_emits | intros _; apply emits_log; exact I]. }
  assert (Ht : emits uint8_text (try_block E sources fans)).
  { intros w0. unfold try_block. destruct (Hg w0) as (evs & Htr & Hall).
    destruct (guarded E sources fans w0) as [[[]|e|] w1]; simpl in *; try (exists evs; auto; fail).
    exists (evs ++ [EvLog WARN (msg_exception e)]). rewrite Htr, app_assoc.
    split; [reflexivity|]. apply Forall_app. split; [assumption | repeat constructor]. }
  unfold run. destruct (Ht w) as (evs1 & Htr1 & Hall1).
  destruct (try_block E sources fans w) as [[rv|e|] w1]; simpl in *; try (exists evs1; auto; fail).
  destruct (reset_fans_emits E fans w1) as (evs2 & Htr2 & Hall2).
  exists (evs1 ++ evs2).
  destruct (reset_fans E fans w1) as [[[]|e|] w2]; simpl in *;
    rewrite Htr2, Htr1, app_assoc; (split; [reflexivity | apply Forall_app; auto]).
Qed.

(** C10. Whatever [set_pwm] is given, what it writes to the actuator is the
    decimal text of the value reduced to [uint8_t], a number from 0 to 255.
    Hence every write of [fan::update] goes to the fan's actuator and carries
    such a text, every write of [fan::reset] to the actuator carries ["255"],
    and no write of a whole run carries anything but the decimal text of a
    number from 0 to 255. *)
Theorem actuator_writes_are_uint8 (E : env) (f : fan) (w : world) :
  (forall v p data good,
     EvWrite p data good ∈ new_events w (snd (set_pwm E f v w)) ->
     p = pwm_ f /\ data = pretty (to_uint8 v) /\ uint8 (to_uint8 v)) /\
  (forall p data good,
     EvWrite p data good ∈ new_events w (snd (update E f w)) ->
     p = pwm_ f /\ exists n, uint8 n /\ data = pretty n) /\
  (forall data good,
     EvWrite (pwm_ f) data good ∈ new_events w (snd (reset E f w)) ->
     data = "255") /\
  (forall sources fans p data good,
     EvWrite p data good ∈ new_events w (snd (run E sources fans w)) ->
     exists n, uint8 n /\ data = pretty n).
Proof.
  split; [|split; [|split]].
  - intros v p data good H.
    apply (emits_new_events _ _ _ _ (set_pwm_emits E f v)) in H.
    destruct H as [-> ->]. auto using to_uint8_range.
  - intros p data good H.
    apply (emits_new_events _ _ _ _ (update_emits E f)) in H. exact H.
  - intros data good H.
    apply (emits_new_events _ _ _ _ (reset_emits E f)) in H.
    destruct H as [[_ ->] | [Hp _]]; [reflexivity|].
    exfalso. exact (enable_path_neq f (eq_sym Hp)).
  - intros sources fans p data good H.
    destruct (run_emits E sources fans w) as (evs & Htr & Hall).
    unfold new_events in H. rewrite Htr, drop_app_length in H.
    rewrite Forall_forall in Hall. exact (Hall _ H).
Qed.

(** ** Absence of undefined behaviour *)

Lemma defined_ret {A} (a : A) : defined (mret a : M A).
Proof. intros w. discriminate. Qed.

Lemma defined_throw {A} (e : exn) : defined (@throw A e).
Proof. intros w. discriminate. Qed.

Lemma defined_log l msg : defined (log l msg).
Proof. intros w. discriminate. Qed.

Lemma defined_bind {A B} (m : M A) (k : A -> M B) :
  defined m -> (forall a, defined (k a)) -> defined (m ≫= k).
Proof.
  intros Hm Hk w. unfold mbind, M_bind. specialize (Hm w).
  destruct (m w) as [[a|e|] w1]; simpl in *; [apply Hk | discriminate | congruence].
Qed.

Lemma defined_for_each {A} (body : A -> M unit) (xs : list A) :
  (forall x, x ∈ xs -> defined (body x)) -> defined (for_each body xs).
Proof.
  induction xs as [|x xs IH]; intros Hb; simpl; [apply defined_ret|].
  apply defined_bind; [apply Hb; left | intros _; apply IH; intros y Hy; apply Hb; right; exact Hy].
Qed.

Lemma set_pwm_defined (E : env) (f : fan) (v : Z) : defined (set_pwm E f v).
Proof.
  intros w. destruct (set_pwm_spec E f v w) as [-> _].
  destruct (is_good _); discriminate.
Qed.

Lemma reset_defined (E : env) (f : fan) : defined (reset E f).
Proof.
  intros w. rewrite reset_unfold.
  destruct (ofstream_answer E (now w) (enable_path f));
    try discriminate; apply set_pwm_defined.
Qed.

Lemma reset_fans_defined (E : env) (fans : list fan) : defined (reset_fans E fans).
Proof.
  unfold reset_fans. apply defined_bind; [apply defined_log|]. intros _.
  induction fans as [|f fans IH]; simpl; [apply defined_ret|].
  apply defined_bind; [|intros _; exact IH].
  intros w. unfold try_catch_fan. pose proof (reset_defined E f w) as Hd.
  destruct (reset E f w) as [[[]|e|] w1]; simpl in *; try congruence.
  destruct (is_fan_exception e); [|discriminate].
  apply defined_bind; [apply defined_log | intros _; apply defined_throw].
Qed.

Lemma source_update_defined (E : env) (s : source) : defined (source_update E s).
Proof. intros w. unfold source_update. destruct (get s E (now w)); discriminate. Qed.

Lemma collect_coeffs_in_unit (ds : list driver.t) (w : world) :
  forall values vs,
    Forall fitting ds -> Forall in_unit values ->
    collect_coeffs ds values w = inr vs ->
    Forall in_unit vs /\ length vs = (length values + length ds)%nat.
Proof.
  induction ds as [|d ds IH]; intros values vs Hfit Hunit Hc; simpl in Hc.
  - injection Hc as <-. split; [assumption | simpl; lia].
  - apply Forall_cons in Hfit. destruct Hfit as [[Hlt Hdiff] Hfit].
    unfold get_coeff in Hc.
    destruct (last_value_ w (driver.src d)) as [v|]; [|discriminate].
    destruct (IH _ _ Hfit (proj2 (Forall_app in_unit values _)
                (conj Hunit (Forall_cons_2 _ _ _ (coeff_in_unit v _ _ Hlt Hdiff) (Forall_nil_2 _)))) Hc)
      as [Hall Hlen].
    split; [assumption|]. rewrite Hlen, length_app. simpl. lia.
Qed.

Lemma max_element_from_in_unit (vals : list float) :
  forall largest, in_unit largest -> Forall in_unit vals ->
                  in_unit (max_element_from largest vals).
Proof.
  induction vals as [|v vals IH]; intros largest Hl Hall; simpl; [assumption|].
  apply Forall_cons in Hall. destruct Hall as [Hv Hall].
  apply IH; [|assumption]. destruct (largest <? v)%float; assumption.
Qed.

(** With fitting thresholds and the maximum as accumulation function the
    scaled value always fits [uint8_t]: [fan::update] is free of undefined
    behaviour. *)
Lemma update_defined (E : env) (f : fan) : max_fan f -> defined (update E f).
Proof.
  intros (Hmin & Hmax & Hlt & Hne & Hfit & Hacc) w. unfold update.
  destruct (collect_coeffs (drivers_ f) [] w) as [d|values] eqn:Hc; [discriminate|].
  destruct (collect_coeffs_in_unit _ w [] values Hfit (Forall_nil_2 _) Hc) as [Hall Hlen].
  rewrite Hacc.
  destruct values as [|v values].
  { destruct (drivers_ f); [congruence | simpl in Hlen; lia]. }
  apply Forall_cons in Hall. destruct Hall as [Hv Hall].
  destruct (max_element_from_in_unit values v Hv Hall) as [H0 H1].
  unfold uint8 in *.
  destruct (scale_cast (pwm_max_ f - pwm_min_ f) (max_element_from v values))
    as (t & Hcast & _); [lia | assumption | assumption |].
  unfold mbind, M_bind, log. simpl. rewrite Hcast.
  apply (defined_bind (set_pwm E f (pwm_min_ f + t))); [apply set_pwm_defined|].
  intros _. apply defined_log.
Qed.

Lemma main_loop_defined (E : env) (n : nat) sources fans :
  Forall max_fan fans -> defined (main_loop E n sources fans).
Proof.
  intros Hfans. induction n as [|n IH]; simpl; [apply defined_ret|].
  apply defined_bind; [apply defined_for_each; intros; apply source_update_defined|].
  intros _. apply defined_bind.
  { apply defined_for_each. intros f Hf. apply update_defined.
    rewrite Forall_forall in Hfans. auto. }
  intros _. apply defined_bind; [intros w; discriminate | intros _; exact IH].
Qed.

Lemma guarded_defined (E : env) sources fans :
  Forall max_fan fans -> defined (guarded E sources fans).
Proof.
  intros Hfans. unfold guarded.
  apply defined_bind; [apply reset_fans_defined|]. intros _.
  apply defined_bind; [apply main_loop_defined; assumption | intros _; apply defined_log].
Qed.

(** ** The exit sequence *)

(** Events of a computation that passes through [w1] on its way to [w2]. *)
Lemma new_events_app (w w1 w2 : world) evs1 evs2 :
  trace w1 = trace w ++ evs1 -> trace w2 = trace w1 ++ evs2 ->
  new_events w w1 = evs1 /\ new_events w1 w2 = evs2 /\ new_events w w2 = evs1 ++ evs2.
Proof.
  intros H1 H2. unfold new_events. rewrite H2, H1.
  rewrite <- app_assoc, !drop_app_length. rewrite app_assoc, drop_app_length. auto.
Qed.

Lemma reset_each_extends (E : env) (fans : list fan) (w : world) :
  exists evs, trace (snd (reset_each E fans w)) = trace w ++ evs.
Proof.
  assert (He : emits (fun _ => True) (reset_each E fans)).
  { induction fans as [|f fans IH]; simpl; [apply emits_ret|].
    apply emits_bind; [|intros _; exact IH].
    apply emits_try_catch_fan.
    - eapply emits_weaken; [|apply reset_emits]. auto.
    - intros e. apply emits_bind; [apply emits_log; exact I | intros _; apply emits_throw]. }
  destruct (He w) as (evs & Htr & _). eauto.
Qed.

(** A successful [reset()] has written full speed to the actuator. *)
Lemma reset_ok_writes (E : env) (f : fan) (w w1 : world) :
  reset E f w = (Ok tt, w1) ->
  exists evs, trace w1 = trace w ++ evs /\ EvWrite (pwm_ f) "255" true ∈ evs.
Proof.
  rewrite reset_unfold.
  destruct (ofstream_answer E (now w) (enable_path f));
    match goal with
    | |- set_pwm E f 255 ?w0 = _ -> _ =>
        destruct (set_pwm_spec E f 255 w0) as (Hfst & Htr & _);
        change (pretty (to_uint8 255)) with "255" in Htr;
        intros Hs; rewrite Hs in Hfst, Htr; cbn [fst snd] in Hfst, Htr;
        destruct (is_good (ofstream_answer E (now w0) (pwm_ f)));
        [|discriminate Hfst];
        rewrite Htr; simpl; rewrite <- ?app_assoc; simpl;
        eexists; split; [reflexivity|];
        rewrite !elem_of_cons; auto 10
    end.
Qed.

(** Every [reset()] begins by opening the enable resource. *)
Lemma reset_opens_enable (E : env) (f : fan) (w : world) :
  exists b evs, trace (snd (reset E f w)) = trace w ++ EvOpen (enable_path f) b :: evs.
Proof.
  rewrite reset_unfold.
  destruct (ofstream_answer E (now w) (enable_path f));
    try (eexists _, _; simpl; rewrite <- ?app_assoc; reflexivity);
    match goal with
    | |- context [set_pwm E f 255 ?w0] =>
        destruct (set_pwm_spec E f 255 w0) as (_ & Htr & _);
        rewrite Htr; simpl; rewrite <- ?app_assoc; simpl; eauto
    end.
Qed.

(** A pass that succeeds has written full speed to every fan; any pass over
    a non-empty list begins with the first fan. *)
Lemma reset_each_spec (E : env) (fans : list fan) :
  forall w,
    (fst (reset_each E fans w) = Ok tt ->
     forall f, f ∈ fans ->
       EvWrite (pwm_ f) "255" true ∈ new_events w (snd (reset_each E fans w))) /\
    (forall f fans', fans = f :: fans' ->
       exists b, EvOpen (enable_path f) b ∈ new_events w (snd (reset_each E fans w))).
Proof.
  induction fans as [|f0 fans IH]; intros w.
  { split; [intros _ f Hf; inversion Hf | intros f fans' H; discriminate]. }
  simpl. unfold mbind, M_bind, try_catch_fan.
  destruct (reset_opens_enable E f0 w) as (b & evs0 & Hopen).
  pose proof (reset_ok_writes E f0 w) as Hok.
  destruct (reset E f0 w) as [[[]|e|] w1] eqn:Hr; simpl in Hopen.
  - destruct (Hok w1 eq_refl) as (evs1 & Htr1 & Hw1).
    destruct (reset_each_extends E fans w1) as (evs2 & Htr2).
    destruct (new_events_app w w1 _ _ _ Htr1 Htr2) as (_ & H12 & H02).
    destruct (IH w1) as [IHok _].
    split.
    + intros Hfst f Hf. rewrite H02. apply elem_of_app.
      apply elem_of_cons in Hf. destruct Hf as [->|Hf]; [left; assumption|].
      right. rewrite <- H12. apply IHok; assumption.
    + intros f fans' Hcons. injection Hcons as <- <-. exists b.
      rewrite H02, elem_of_app. left.
      rewrite Hopen in Htr1. apply app_inv_head in Htr1. subst evs1.
      apply elem_of_cons. left. reflexivity.
  - split.
    + destruct (is_fan_exception e); simpl; discriminate.
    + intros f fans' Hcons. injection Hcons as <- <-. exists b.
      destruct (is_fan_exception e); unfold new_events; simpl;
        rewrite Hopen, <- ?app_assoc, drop_app_length; simpl;
        apply elem_of_cons; left; reflexivity.
  - split; [discriminate|].
    intros f fans' Hcons. injection Hcons as <- <-. exists b.
    unfold new_events. simpl. rewrite Hopen, drop_app_length.
    apply elem_of_cons. left. reflexivity.
Qed.

(** The same for [reset_fans], which logs before it starts. *)
Lemma reset_fans_spec (E : env) (fans : list fan) (w : world) :
  EvLog INFO msg_resetting_all ∈ new_events w (snd (reset_fans E fans w)) /\
  (fst (reset_fans E fans w) = Ok tt ->
   forall f, f ∈ fans ->
     EvWrite (pwm_ f) "255" true ∈ new_events w (snd (reset_fans E fans w))) /\
  (forall f fans', fans = f :: fans' ->
     exists b, EvOpen (enable_path f) b ∈ new_events w (snd (reset_fans E fans w))).
Proof.
  unfold reset_fans, mbind, M_bind, log. simpl.
  set (w0 := emit (EvLog INFO msg_resetting_all) w).
  destruct (reset_each_extends E fans w0) as (evs & Htr).
  destruct (new_events_app w w0 (snd (reset_each E fans w0))
              [EvLog INFO msg_resetting_all] evs eq_refl Htr) as (_ & H12 & H02).
  destruct (reset_each_spec E fans w0) as [Hok Hfirst].
  rewrite H02. split; [|split].
  - apply elem_of_cons. left. reflexivity.
  - intros Hfst f Hf. apply elem_of_cons. right. rewrite <- H12. auto.
  - intros f fans' Hcons. destruct (Hfirst f fans' Hcons) as [b Hb].
    exists b. apply elem_of_cons. right. rewrite <- H12. exact Hb.
Qed.

(** C5. Whichever way the [try] block of [main] ends - the loop saw the
    cancellation flag, or an exception (from the initial reset pass or from an
    actuator write of the loop) was caught and logged - [reset_fans] is run once
    more from the state reached: it starts with the first fan and, unless it
    fails, writes full speed to every fan. The exit status is 0 exactly when
    the block ended by cancellation and the final pass succeeded; after an
    exception it is 1, or, when the final pass fails as well, that of
    [std::terminate]; a failing final pass always ends the process through
    [std::terminate]. The warning naming the original exception stays in the
    log either way. *)
Theorem exit_reset_and_status (E : env) (sources : list source) (fans : list fan)
    (w : world) (r : outcome unit) (w1 : world) :
  guarded E sources fans w = (r, w1) ->
  r <> Undefined ->
  let w1' := match r with
             | Throw ex => emit (EvLog WARN (msg_exception ex)) w1
             | _ => w1
             end in
  let rv := match r with Ok _ => 0 | _ => 1 end in
  exists r2 w2,
    reset_fans E fans w1' = (r2, w2) /\
    run E sources fans w =
      (match r2 with
       | Ok _ => Exited rv
       | Throw ex2 => Terminated ex2
       | Undefined => Unspecified
       end, w2) /\
    r2 <> Undefined /\
    EvLog INFO msg_resetting_all ∈ new_events w1' w2 /\
    (forall f fans', fans = f :: fans' ->
       exists b, EvOpen (enable_path f) b ∈ new_events w1' w2) /\
    (r2 = Ok tt ->
     forall f, f ∈ fans -> EvWrite (pwm_ f) "255" true ∈ new_events w1' w2) /\
    (exit_status (fst (run E sources fans w)) = Some 0 <-> r = Ok tt /\ r2 = Ok tt) /\
    (forall ex, r = Throw ex ->
       EvLog WARN (msg_exception ex) ∈ trace w2 /\
       (r2 = Ok tt -> exit_status (fst (run E sources fans w)) = Some 1) /\
       exists status, exit_status (fst (run E sources fans w)) = Some status /\ status <> 0) /\
    (forall ex2, r2 = Throw ex2 ->
       fst (run E sources fans w) = Terminated ex2 /\
       exit_status (fst (run E sources fans w)) = Some 134) /\
    (forall ex w0, reset_fans E fans w = (Throw ex, w0) -> r = Throw ex /\ w1 = w0).
Proof.
  intros Hg Hdef w1' rv.
  pose proof (reset_fans_defined E fans w1') as Hd2.
  destruct (reset_fans_spec E fans w1') as (Hlog & Hall & Hfirst).
  destruct (reset_fans_emits E fans w1') as (evs & Htr & _).
  destruct (reset_fans E fans w1') as [r2 w2] eqn:Hr2. simpl in Hd2, Hlog, Hall, Hfirst, Htr.
  exists r2, w2.
  assert (Hrun : run E sources fans w =
            (match r2 with
             | Ok _ => Exited rv
             | Throw ex2 => Terminated ex2
             | Undefined => Unspecified
             end, w2)).
  { unfold run, try_block. rewrite Hg.
    destruct r as [[]|ex|]; [| |congruence]; unfold w1' in Hr2; rewrite Hr2;
      destruct r2 as [[]|ex2|]; reflexivity. }
  rewrite Hrun. simpl.
  split; [reflexivity|]. split; [reflexivity|]. split; [assumption|].
  split; [assumption|]. split; [assumption|]. split; [assumption|].
  split; [|split; [|split]].
  - unfold rv. destruct r2 as [[]|ex2|]; destruct r as [[]|ex|]; simpl;
      split; try congruence; try (intros [? ?]; congruence); auto.
  - intros ex ->. split; [|split].
    + rewrite Htr. unfold w1'. simpl.
      rewrite elem_of_app, elem_of_app, elem_of_cons. auto.
    + intros ->. reflexivity.
    + destruct r2 as [[]|ex2|]; simpl; [exists 1 | exists 134 | congruence];
        (split; [reflexivity | lia]).
  - intros ex2 ->. split; reflexivity.
  - intros ex w0 Hinit. unfold guarded in Hg. unfold mbind, M_bind in Hg.
    rewrite Hinit in Hg. injection Hg as <- <-. auto.
Qed.

Lemma exit_reset_and_status_witness :
  let E := failing_write_env in
  let sources := [cpu_source; hdd_source] in
  let fans := [scenario_fan] in
  let w := initial_world in
  let r : outcome unit := Throw (set_pwm_failed 3%nat (pwm_ scenario_fan) 240) in
  let w1 := snd (guarded E sources fans w) in
  let w1' := match r with
             | Throw ex => emit (EvLog WARN (msg_exception ex)) w1
             | _ => w1
             end in
  let rv := match r with Ok _ => 0 | _ => 1 end in
  exists r2 w2,
    reset_fans E fans w1' = (r2, w2) /\
    run E sources fans w =
      (match r2 with
       | Ok _ => Exited rv
       | Throw ex2 => Terminated ex2
       | Undefined => Unspecified
       end, w2) /\
    r2 <> Undefined /\
    EvLog INFO msg_resetting_all ∈ new_events w1' w2 /\
    (forall f fans', fans = f :: fans' ->
       exists b, EvOpen (enable_path f) b ∈ new_events w1' w2) /\
    (r2 = Ok tt ->
     forall f, f ∈ fans -> EvWrite (pwm_ f) "255" true ∈ new_events w1' w2) /\
    (exit_status (fst (run E sources fans w)) = Some 0 <-> r = Ok tt /\ r2 = Ok tt) /\
    (forall ex, r = Throw ex ->
       EvLog WARN (msg_exception ex) ∈ trace w2 /\
       (r2 = Ok tt -> exit_status (fst (run E sources fans w)) = Some 1) /\
       exists status, exit_status (fst (run E sources fans w)) = Some status /\ status <> 0) /\
    (forall ex2, r2 = Throw ex2 ->
       fst (run E sources fans w) = Terminated ex2 /\
       exit_status (fst (run E sources fans w)) = Some 134) /\
    (forall ex w0, reset_fans E fans w = (Throw ex, w0) -> r = Throw ex /\ w1 = w0).
Proof.
  intros E sources fans w r w1.
  apply (exit_reset_and_status E sources fans w r w1).
  - vm_compute. reflexivity.
  - discriminate.
Defined.

(** [main] itself never runs into undefined behaviour: whatever the
    environment does, the process exits with 0 or 1 or ends in
    [std::terminate]. *)
Lemma main_status (E : env) :
  exists st, exit_status (fst (main E)) = Some st /\ (st = 0 \/ st = 1 \/ st = 134).
Proof.
  unfold main, main_with. simpl.
  set (fan0 := add_driver _ hdd_source 42000 50000).
  assert (Hfan : Forall max_fan [fan0]).
  { repeat constructor; unfold uint8, fitting; simpl; try lia; try discriminate. }
  set (sources := [cpu_source; hdd_source]).
  pose proof (guarded_defined E sources [fan0] Hfan initial_world) as Hd.
  pose proof (reset_fans_defined E [fan0]) as Hd2.
  unfold run, try_block.
  destruct (guarded E sources [fan0] initial_world) as [[[]|ex|] w1]; simpl in Hd;
    [| |congruence].
  - specialize (Hd2 w1). destruct (reset_fans E [fan0] w1) as [[[]|ex2|] w2];
      simpl in *; [exists 0 | exists 134 | congruence]; auto.
  - specialize (Hd2 (emit (EvLog WARN (msg_exception ex)) w1)).
    destruct (reset_fans E [fan0] _) as [[[]|ex2|] w2];
      simpl in *; [exists 1 | exists 134 | congruence]; auto.
Qed.

(** Three runs of [main]: a clean cancellation exits with 0; a failed actuator
    write in the loop exits with 1 after the final pass restored full speed; a
    final pass that fails too ends in [std::terminate]. *)
Example main_exit_statuses :
  fst (main writable_env) = Exited 0 /\
  fst (main failing_write_env) = Exited 1 /\
  files (snd (main failing_write_env)) !! pwm_ scenario_fan = Some "255" /\
  fst (main failing_from_env)
    = Terminated (set_pwm_failed 3%nat (pwm_ scenario_fan) 255) /\
  exit_status (fst (main failing_from_env)) = Some 134.
Proof. vm_compute. repeat split; reflexivity. Qed.

(* ================================================================= *)
(** * Part IV: further properties of the code *)
(* ================================================================= *)

(** ** Sensor files: the text of a reading *)

(** The digits [pretty] prints are the digits [from_chars] reads. *)
Lemma pretty_N_char_digit (d : N) :
  (d < 10)%N ->
  is_digit (pretty_N_char d) = true /\ digit_value (pretty_N_char d) = Z.of_N d.
Proof.
  intros Hd.
  assert (d = 0 \/ d = 1 \/ d = 2 \/ d = 3 \/ d = 4 \/ d = 5 \/ d = 6 \/ d = 7 \/ d = 8 \/ d = 9)%N
    as H by lia.
  repeat (destruct H as [->|H]); try subst d; split; reflexivity.
Qed.

Lemma pretty_N_go_app (x : N) : forall s r,
  pretty_N_go x s +:+ r = pretty_N_go x (s +:+ r).
Proof.
  induction (N.lt_wf_0 x) as [x _ IH]; intros s r.
  destruct (N.eq_dec x 0%N) as [->|Hx].
  - rewrite !pretty_N_go_0. reflexivity.
  - rewrite (pretty_N_go_step x s), (pretty_N_go_step x (s +:+ r)) by lia.
    rewrite IH by (apply N.div_lt; lia). reflexivity.
Qed.

Lemma pretty_N_go_digits (x : N) : forall s,
  exists ds,
    leading_digits (pretty_N_go x s) = ds ++ leading_digits s /\
    (forall acc, fold_left (fun acc d => acc * 10 + d) ds acc
                 = acc * 10 ^ Z.of_nat (length ds) + Z.of_N x) /\
    ((0 < x)%N -> ds <> []).
Proof.
  induction (N.lt_wf_0 x) as [x _ IH]; intros s.
  destruct (N.eq_dec x 0%N) as [->|Hx].
  - exists []. rewrite pretty_N_go_0. split; [reflexivity|]. split; [|lia].
    intros acc. simpl. lia.
  - rewrite pretty_N_go_step by lia.
    destruct (IH (x `div` 10)%N ltac:(apply N.div_lt; lia)
                (String (pretty_N_char (x `mod` 10)%N) s)) as (ds & Hds & Hval & _).
    destruct (pretty_N_char_digit (x `mod` 10)%N) as [Hdig Hdv].
    { apply N.mod_lt. lia. }
    exists (ds ++ [Z.of_N (x `mod` 10)%N]).
    split; [|split].
    + rewrite Hds. simpl. rewrite Hdig, Hdv, <- app_assoc. reflexivity.
    + intros acc. rewrite fold_left_app. simpl. rewrite Hval.
      rewrite length_app. simpl. rewrite Nat2Z.inj_add. simpl Z.of_nat.
      rewrite Z.pow_add_r by lia. rewrite Z.pow_1_r.
      pose proof (N.div_mod x 10%N ltac:(lia)) as Hdm.
      rewrite Hdm at 3. rewrite N2Z.inj_add, N2Z.inj_mul. simpl Z.of_N. lia.
    + intros _. destruct ds; discriminate.
Qed.

Lemma from_chars_digit_head (c : ascii) (t : string) :
  is_digit c = true ->
  from_chars (String c t) =
    match leading_digits (String c t) with
    | [] => inr invalid_argument
    | ds =>
        let val := fold_left (fun acc d => acc * 10 + d) ds 0 in
        if (- 2 ^ 31 <=? val) && (val <? 2 ^ 31) then inl val
        else inr result_out_of_range
    end.
Proof.
  intros Hc. unfold from_chars.
  destruct c as [[] [] [] [] [] [] [] []]; try discriminate Hc; reflexivity.
Qed.

Lemma leading_digits_head (s : string) :
  leading_digits s <> [] -> exists c t, s = String c t /\ is_digit c = true.
Proof.
  destruct s as [|c t]; simpl; [congruence|].
  destruct (is_digit c) eqn:Hc; [eauto | congruence].
Qed.

Lemma from_chars_pretty_pos (p : positive) (rest : string) :
  leading_digits rest = [] ->
  exists ds, ds <> [] /\
    leading_digits (pretty (Npos p) +:+ rest) = ds /\
    fold_left (fun acc d => acc * 10 + d) ds 0 = Zpos p.
Proof.
  intros Hrest. unfold pretty, pretty_N.
  destruct (decide (Npos p = 0%N)) as [H|_]; [discriminate|].
  rewrite pretty_N_go_app. change ("" +:+ rest) with rest.
  destruct (pretty_N_go_digits (Npos p) rest) as (ds & Hds & Hval & Hne).
  exists ds. rewrite Hds, Hrest, app_nil_r, Hval. simpl.
  repeat split; auto. apply Hne. reflexivity.
Qed.

(** [from_chars] on the text of any integer: the value when it fits
    [int32_t], [result_out_of_range] otherwise. *)
Lemma from_chars_pretty_range (z : Z) (rest : string) :
  leading_digits rest = [] ->
  from_chars (pretty z +:+ rest)
    = if (- 2 ^ 31 <=? z) && (z <? 2 ^ 31) then inl z else inr result_out_of_range.
Proof.
  intros Hrest.
  destruct z as [|p|p].
  - change (pretty 0 +:+ rest) with (String "0" rest).
    rewrite from_chars_digit_head by reflexivity.
    simpl. rewrite Hrest. reflexivity.
  - change (pretty (Zpos p)) with (pretty (Npos p)).
    destruct (from_chars_pretty_pos p rest Hrest) as (ds & Hne & Hds & Hval).
    destruct (leading_digits_head (pretty (Npos p) +:+ rest)) as (c & t & Hs & Hc);
      [congruence|].
    rewrite Hs, from_chars_digit_head by assumption. rewrite <- Hs, Hds.
    destruct ds; [congruence|]. cbv zeta. rewrite Hval. reflexivity.
  - change (pretty (Zneg p) +:+ rest) with (String "-" (pretty (Npos p) +:+ rest)).
    destruct (from_chars_pretty_pos p rest Hrest) as (ds & Hne & Hds & Hval).
    unfold from_chars. rewrite Hds.
    destruct ds; [congruence|]. rewrite Hval. reflexivity.
Qed.

(** [from_chars] reads back what [pretty] prints, whatever follows the digits. *)
Lemma from_chars_pretty (z : Z) (rest : string) :
  int32 z -> leading_digits rest = [] ->
  from_chars (pretty z +:+ rest) = inl z.
Proof.
  intros Hz Hrest. unfold int32 in Hz. rewrite from_chars_pretty_range by assumption.
  assert (Hrange : (- 2 ^ 31 <=? z) && (z <? 2 ^ 31) = true).
  { apply andb_true_iff. split; [apply Z.leb_le | apply Z.ltb_lt]; lia. }
  rewrite Hrange. reflexivity.
Qed.

Lemma pretty_N_go_length (k : nat) : forall x s,
  (x < 10 ^ N.of_nat k)%N ->
  (String.length (pretty_N_go x s) <= k + String.length s)%nat.
Proof.
  induction k as [|k IH]; intros x s Hx.
  - assert (x = 0%N) by (simpl in Hx; lia). subst x. rewrite pretty_N_go_0. lia.
  - destruct (N.eq_dec x 0%N) as [->|Hne]; [rewrite pretty_N_go_0; lia|].
    rewrite pretty_N_go_step by lia.
    etransitivity; [apply IH|simpl; lia].
    rewrite Nat2N.inj_succ, N.pow_succ_r' in Hx.
    apply N.Div0.div_lt_upper_bound. lia.
Qed.

(** The text of an [int32_t] has at most 11 characters, well inside the buffer. *)
Lemma pretty_int32_length (z : Z) :
  int32 z -> (String.length (pretty z) <= 11)%nat.
Proof.
  unfold int32. intros Hz.
  assert (Hpos : forall p, Zpos p <= 2 ^ 31 -> (String.length (pretty (Npos p)) <= 10)%nat).
  { intros p Hp. unfold pretty, pretty_N.
    destruct (decide (Npos p = 0%N)); [discriminate|].
    pose proof (pretty_N_go_length 10 (Npos p) "") as H. simpl String.length in H.
    rewrite Nat.add_0_r in H. apply H.
    change (2 ^ 31) with 2147483648 in Hp. 
    change (10 ^ N.of_nat 10)%N with 10000000000%N. lia. }
  destruct z as [|p|p].
  - simpl. lia.
  - change (pretty (Zpos p)) with (pretty (Npos p)). specialize (Hpos p). lia.
  - change (pretty (Zneg p)) with (String "-" (pretty (Npos p))). simpl.
    specialize (Hpos p). lia.
Qed.

Lemma substring_app (a b : string) (n : nat) :
  (String.length a <= n)%nat ->
  String.substring 0 n (a +:+ b) = a +:+ String.substring 0 (n - String.length a) b.
Proof.
  revert n. induction a as [|c a IH]; intros n Hn; simpl in *.
  - rewrite Nat.sub_0_r. reflexivity.
  - destruct n as [|n]; [lia|]. simpl. rewrite IH by lia. reflexivity.
Qed.

Lemma leading_digits_substring (s : string) (n : nat) :
  leading_digits s = [] -> leading_digits (String.substring 0 n s) = [].
Proof.
  destruct s as [|c s]; destruct n; simpl; try reflexivity.
  destruct (is_digit c); [discriminate | reflexivity].
Qed.

(** X1. A sensor file that starts with the decimal text of an [int32_t] value
    (an optional minus sign and digits), followed by anything that does not
    begin with a digit - a newline, say - is read as that value: [from_chars]
    parses it, [file_source::get] returns it, and after [source::update] it is
    the source's [last_value()]. *)
Theorem file_source_reads_decimal (E : env) (this0 : addr) (path : string)
    (w : world) (z : Z) (rest : string) :
  int32 z -> leading_digits rest = [] ->
  ifstream_bytes E (now w) path = pretty z +:+ rest ->
  from_chars (pretty z +:+ rest) = inl z /\
  get (file_source this0 path) E (now w) = inl z /\
  exists w', source_update E (file_source this0 path) w = (Ok tt, w') /\
             last_value_ w' this0 = Some z.
Proof.
  intros Hz Hrest Hbytes.
  assert (Hget : file_source_get path E (now w) = inl z).
  { unfold file_source_get. rewrite Hbytes.
    rewrite substring_app by (pose proof (pretty_int32_length z Hz); lia).
    rewrite from_chars_pretty; auto using leading_digits_substring. }
  split; [apply from_chars_pretty; assumption|]. split; [exact Hget|].
  unfold source_update. simpl. rewrite Hget. eexists. split; [reflexivity|].
  simpl. apply fn_lookup_insert.
Qed.

Lemma file_source_reads_decimal_witness :
  from_chars (pretty 42000 +:+ String "010"%char EmptyString) = inl 42000 /\
  get cpu_source newline_env (now initial_world) = inl 42000 /\
  exists w', source_update newline_env cpu_source initial_world = (Ok tt, w') /\
             last_value_ w' 1%nat = Some 42000.
Proof.
  apply (file_source_reads_decimal newline_env 1%nat _ initial_world 42000
           (String "010"%char EmptyString)).
  - unfold int32. lia.
  - reflexivity.
  - reflexivity.
Defined.

(** X14. A sensor file that starts with the decimal text of a number outside
    [int32_t] is a failed read: [file_source::get] throws the
    [result_out_of_range] error of [from_chars], and [source::update] leaves the
    source without a value instead of a wrapped or clamped one. *)
Theorem file_source_out_of_range (E : env) (this0 : addr) (path : string)
    (w : world) (z : Z) (rest : string) :
  ~ int32 z -> (String.length (pretty z) <= 32)%nat -> leading_digits rest = [] ->
  ifstream_bytes E (now w) path = pretty z +:+ rest ->
  get (file_source this0 path) E (now w) = inr (system_error result_out_of_range) /\
  exists w', source_update E (file_source this0 path) w = (Ok tt, w') /\
             last_value_ w' this0 = None.
Proof.
  intros Hz Hlen Hrest Hbytes.
  assert (Hrange : (- 2 ^ 31 <=? z) && (z <? 2 ^ 31) = false).
  { apply not_true_is_false. intros H. apply andb_true_iff in H. destruct H as [H1 H2].
    apply Z.leb_le in H1. apply Z.ltb_lt in H2. apply Hz. unfold int32. lia. }
  assert (Hget : file_source_get path E (now w) = inr (system_error result_out_of_range)).
  { unfold file_source_get. rewrite Hbytes, substring_app by assumption.
    rewrite from_chars_pretty_range by auto using leading_digits_substring.
    rewrite Hrange. reflexivity. }
  split; [exact Hget|].
  unfold source_update. simpl. rewrite Hget. eexists. split; [reflexivity|].
  simpl. apply fn_lookup_insert.
Qed.

Lemma file_source_out_of_range_witness :
  get cpu_source overflow_env (now initial_world)
    = inr (system_error result_out_of_range) /\
  exists w', source_update overflow_env cpu_source initial_world = (Ok tt, w') /\
             last_value_ w' 1%nat = None.
Proof.
  apply (file_source_out_of_range overflow_env 1%nat _ initial_world 3000000000
           (String "010"%char EmptyString)).
  - unfold int32. lia.
  - vm_compute. lia.
  - reflexivity.
  - reflexivity.
Defined.

(** ** Coefficients strictly inside the unit interval *)

Lemma Zdigits2_gt_of_le m k : 0 <= k -> 2 ^ k <= m -> k < Zdigits2 m.
Proof.
  intros Hk Hle. assert (0 < 2 ^ k) by (apply Z.pow_pos_nonneg; lia).
  destruct m as [|p|p]; try lia.
  destruct (Zdigits2_bounds p) as [_ Hhi]. pose proof (Zdigits2_pos p).
  apply (Z.pow_lt_mono_r_iff 2); lia.
Qed.

(** A mantissa of at least 53 bits well above the subnormal range does not
    round to zero. *)
Lemma binary_round_aux_nonzero sx mx ex lx :
  2 ^ 52 <= mx -> -1074 <= ex ->
  forall b, binary_round_aux prec emax sx mx ex lx <> S754_zero b.
Proof.
  intros Hmx Hex b. unfold binary_round_aux.
  assert (H252 : 0 < 2 ^ 52) by reflexivity.
  assert (Hmx0 : 0 <= mx) by lia.
  destruct (shr_fexp_spec mx ex lx Hmx0) as [Hm1 He1].
  destruct (shr_fexp prec emax mx ex lx) as [mrs1 e1]. simpl fst in *; simpl snd in *.
  rewrite <- He1 in Hm1. set (m1 := shr_m mrs1) in *.
  pose proof (Zdigits2_gt_of_le mx 52 ltac:(lia) Hmx) as Hd.
  set (d := Zdigits2 mx) in *.
  rewrite fexp64_eq in He1.
  assert (He1' : e1 = d + ex - 53) by lia.
  assert (Hmxd : 2 ^ (d - 1) <= mx < 2 ^ d).
  { unfold d. destruct mx as [|p|p]; try lia. apply Zdigits2_bounds. }
  assert (Hk : 0 < 2 ^ (d - 53)) by (apply Z.pow_pos_nonneg; lia).
  assert (Hsplit : 2 ^ (d - 1) = 2 ^ (d - 53) * 2 ^ 52)
    by (rewrite <- Z.pow_add_r by lia; f_equal; lia).
  assert (Hsplit' : 2 ^ d = 2 ^ (d - 53) * 2 ^ 53)
    by (rewrite <- Z.pow_add_r by lia; f_equal; lia).
  assert (Hm1r : 2 ^ 52 <= m1 < 2 ^ 53).
  { rewrite Hm1. replace (e1 - ex) with (d - 53) by lia. split.
    - apply Z.div_le_lower_bound; lia.
    - apply Z.div_lt_upper_bound; lia. }
  pose proof (round_nearest_even_bounds m1 (loc_of_shr_record mrs1)) as Hrnd.
  set (m2 := round_nearest_even m1 (loc_of_shr_record mrs1)) in *.
  assert (Hm2 : 0 <= m2) by lia.
  destruct (shr_fexp_spec m2 e1 loc_Exact Hm2) as [Hm3 He2].
  destruct (shr_fexp prec emax m2 e1 loc_Exact) as [mrs2 e2]. simpl fst in *; simpl snd in *.
  rewrite <- He2 in Hm3.
  pose proof (Zdigits2_gt_of_le m2 52 ltac:(lia) ltac:(lia)) as Hd2.
  assert (Hd2' : Zdigits2 m2 <= 54).
  { apply Zdigits2_le_of_lt; [lia | lia |].
    apply Z.le_lt_trans with (2 ^ 53); [lia | reflexivity]. }
  rewrite fexp64_eq in He2.
  assert (Hshift : e2 - e1 = 0 \/ e2 - e1 = 1) by lia.
  assert (Hm3pos : 0 < shr_m mrs2).
  { rewrite Hm3. destruct Hshift as [-> | ->].
    - rewrite Z.pow_0_r, Z.div_1_r. lia.
    - apply Z.div_str_pos. change (2 ^ 1) with 2. lia. }
  destruct (shr_m mrs2) as [|m3|m3]; try lia.
  destruct (e2 <=? emax - prec); discriminate.
Qed.

Lemma Prim2SF_largest_interior :
  Prim2SF largest_interior = S754_finite false 9007199250546688 (-53).
Proof. reflexivity. Qed.

(** Quotient of converted integers [0 < a < b < 2^31]: at most [1 - 2^-31]. *)
Lemma SFdiv_interior a ma ea b mb eb :
  0 < a < b -> b < 2 ^ 31 ->
  -52 <= ea <= 0 -> Zpos ma = a * 2 ^ (- ea) -> Zdigits2 (Zpos ma) = 53 ->
  -52 <= eb <= 0 -> Zpos mb = b * 2 ^ (- eb) -> Zdigits2 (Zpos mb) = 53 ->
  exists m e,
    SF64div (S754_finite false ma ea) (S754_finite false mb eb) = S754_finite false m e /\
    e <= -31 /\ Zpos m <= (2 ^ 31 - 1) * 2 ^ (-31 - e).
Proof.
  intros Hab Hb31 Hea Hma Hda Heb Hmb Hdb. unfold SF64div, SFdiv. simpl xorb.
  destruct (Zdigits2_bounds ma) as [Hloa Hhia]. destruct (Zdigits2_bounds mb) as [Hlob Hhib].
  rewrite Hda in Hloa, Hhia. rewrite Hdb in Hlob, Hhib.
  change (2 ^ (53 - 1)) with 4503599627370496 in *.
  change (2 ^ 53) with 9007199254740992 in *.
  change (2 ^ 31) with 2147483648 in *.
  assert (Hee : ea <= eb).
  { destruct (Z_le_gt_dec ea eb) as [|Hgt]; [assumption|exfalso].
    assert (E : 2 ^ (- eb) = 2 ^ (ea - eb) * 2 ^ (- ea))
      by (rewrite <- Z.pow_add_r by lia; f_equal; lia).
    assert (2 <= 2 ^ (ea - eb)) by (change 2 with (2 ^ 1) at 1; apply Z.pow_le_mono_r; lia).
    assert (0 < 2 ^ (- ea)) by (apply Z.pow_pos_nonneg; lia).
    nia. }
  unfold SFdiv_core_binary. rewrite Hda, Hdb.
  replace (53 + ea - (53 + eb)) with (ea - eb) by lia.
  rewrite fexp64_eq.
  replace (Z.min (Z.max (ea - eb - 53) (-1074)) (ea - eb)) with (ea - eb - 53) by lia.
  replace (ea - eb - (ea - eb - 53)) with 53 by lia.
  change (IntDef.Z.div_eucl (IntDef.Z.shiftl (Zpos ma) 53) (Zpos mb))
    with (Z.div_eucl (Z.shiftl (Zpos ma) 53) (Zpos mb)).
  rewrite Z.shiftl_mul_pow2 by lia.
  change (2 ^ 53) with 9007199254740992.
  pose proof (Z.div_eucl_eq (Zpos ma * 9007199254740992) (Zpos mb) ltac:(lia)) as Heq.
  pose proof (Z.mod_pos_bound (Zpos ma * 9007199254740992) (Zpos mb) ltac:(lia)) as Hmod.
  unfold Z.modulo in Hmod.
  destruct (Z.div_eucl (Zpos ma * 9007199254740992) (Zpos mb)) as [qq rr].
  assert (Hpow : 2 ^ (- ea) = 2 ^ (eb - ea) * 2 ^ (- eb))
    by (rewrite <- Z.pow_add_r by lia; f_equal; lia).
  assert (H2eb : 0 < 2 ^ (- eb)) by (apply Z.pow_pos_nonneg; lia).
  assert (H2ba : 0 < 2 ^ (eb - ea)) by (apply Z.pow_pos_nonneg; lia).
  (* a * 2^31 < b * (2^31 - 1) *)
  assert (Hfrac : a * 2147483648 < b * 2147483647) by nia.
  assert (Hkey : Zpos ma * 2147483648 < Zpos mb * 2 ^ (eb - ea) * 2147483647).
  { rewrite Hma, Hmb, Hpow. 
    assert (0 < 2 ^ (eb - ea) * 2 ^ (- eb)) by lia. nia. }
  assert (Hqlo : 4503599627370496 <= qq) by nia.
  assert (Hqhi : qq < 2147483647 * 2 ^ (-31 - (ea - eb - 53))).
  { replace (-31 - (ea - eb - 53)) with (22 + (eb - ea)) by lia.
    rewrite Z.pow_add_r by lia. change (2 ^ 22) with 4194304. nia. }
  pose proof (binary_round_aux_nonzero false qq (ea - eb - 53)
                (new_location (Zpos mb) rr) ltac:(exact Hqlo) ltac:(lia) false) as Hnz.
  destruct (binary_round_aux_le false qq (ea - eb - 53) (new_location (Zpos mb) rr)
              2147483647 (-31)) as [H|H]; try lia.
  - simpl. lia.
  - contradiction.
  - destruct H as (m & e & H & He & Hm). exists m, e. auto.
Qed.

Lemma SFleb_largest_interior m e :
  bounded prec emax m e = true -> e <= -31 -> Zpos m <= (2 ^ 31 - 1) * 2 ^ (-31 - e) ->
  e <= -53 /\ SFleb (S754_finite false m e) (S754_finite false 9007199250546688 (-53)) = true.
Proof.
  intros Hv He Hm. apply canonical_digits in Hv. destruct Hv as (Hd & Hr & Hsub).
  destruct (Zdigits2_bounds m) as [Hlo Hhi].
  assert (He53 : e <= -53).
  { destruct (Z_le_gt_dec e (-53)) as [|Hgt]; [assumption|exfalso].
    assert (Hd53 : Zdigits2 (Zpos m) = 53) by lia.
    rewrite Hd53 in Hlo. change (2 ^ (53 - 1)) with (2 ^ 52) in Hlo.
    assert (Hp : 2 ^ (-31 - e) <= 2 ^ 21) by (apply Z.pow_le_mono_r; lia).
    assert (0 < 2 ^ (-31 - e)) by (apply Z.pow_pos_nonneg; lia).
    change (2 ^ 31) with 2147483648 in Hm. change (2 ^ 21) with 2097152 in Hp.
    change (2 ^ 52) with 4503599627370496 in Hlo. nia. }
  split; [assumption|]. apply SFleb_finite_pos.
  destruct (Z.eq_dec e (-53)) as [->|Hne]; [right | left; lia].
  split; [reflexivity|]. exact Hm.
Qed.

(** The quotient of converted integers [0 < a < b < 2^31] is positive and at
    most [1 - 2^-31]. *)
Lemma div_interior a b :
  0 < a < b -> b < 2 ^ 31 ->
  let c := (double_of_int a / double_of_int b)%float in
  (0 <? c)%float = true /\ (c <=? largest_interior)%float = true.
Proof.
  intros Hab Hb c.
  assert (H53 : 2 ^ 31 < 2 ^ 53) by reflexivity.
  destruct (double_of_int_pos a ltac:(lia)) as (ma & ea & Ha & Hea & Hma & Hda).
  destruct (double_of_int_pos b ltac:(lia)) as (mb & eb & Hb' & Heb & Hmb & Hdb).
  pose proof (Prim2SF_valid c) as Hv.
  destruct (SFdiv_interior a ma ea b mb eb Hab Hb Hea Hma Hda Heb Hmb Hdb)
    as (m & e & Hf & He & Hm).
  assert (Hc : Prim2SF c = S754_finite false m e)
    by (unfold c; rewrite FloatAxioms.div_spec, Ha, Hb'; exact Hf).
  rewrite Hc in Hv. simpl in Hv.
  split.
  - rewrite FloatAxioms.ltb_spec, Hc. reflexivity.
  - rewrite FloatAxioms.leb_spec, Hc, Prim2SF_largest_interior.
    apply SFleb_largest_interior; assumption.
Qed.

(** Scaling by a factor of at most [1 - 2^-31] stays below the range. *)
Lemma scale_cast_interior r s :
  1 <= r <= 255 -> (0 <=? s)%float = true -> (s <=? largest_interior)%float = true ->
  exists t, cast_uint8 (double_of_int r * s)%float = Some t /\ 0 <= t <= r - 1.
Proof.
  intros Hr H0 HB.
  destruct (double_of_int_pos r) as (mr & er & Hsr & Her & Hmr & Hdr).
  { split; [lia|]. apply Z.le_lt_trans with 255; [lia | reflexivity]. }
  pose proof (Prim2SF_valid s) as Hv.
  rewrite FloatAxioms.leb_spec in H0, HB.
  change (Prim2SF 0) with (S754_zero false) in H0. rewrite SFleb_zero_l in H0.
  rewrite Prim2SF_largest_interior in HB.
  destruct (Prim2SF s) as [b|b| |b ms es] eqn:Hs; try contradiction.
  - exists 0. unfold cast_uint8. rewrite FloatAxioms.mul_spec, Hsr, Hs. simpl. split; [reflexivity | lia].
  - destruct b; [contradiction | discriminate].
  - destruct b; [contradiction|].
    apply SFleb_finite_pos in HB. simpl in Hv.
    apply canonical_digits in Hv. destruct Hv as (Hd & Hrange & _).
    destruct (Zdigits2_bounds ms) as [_ Hhi].
    assert (Hms53 : Zpos ms < 2 ^ 53).
    { apply Z.lt_le_trans with (2 ^ Zdigits2 (Zpos ms)); [lia|].
      apply Z.pow_le_mono_r; lia. }
    assert (Hes : es <= -53) by lia.
    assert (Hms : Zpos ms <= 2147483647 * 2 ^ (-31 - es)).
    { destruct HB as [Hlt | [-> Hle]].
      - assert (2 ^ 23 <= 2 ^ (-31 - es)) by (apply Z.pow_le_mono_r; lia).
        change (2 ^ 53) with 9007199254740992 in Hms53.
        change (2 ^ 23) with 8388608 in *. lia.
      - change (2 ^ (-31 - -53)) with 4194304. lia. }
    assert (Hp : SF64mul (S754_finite false mr er) (S754_finite false ms es)
                 = binary_round_aux prec emax false (Zpos (mr * ms)) (er + es) loc_Exact)
      by reflexivity.
    assert (Hprod : Prim2SF (double_of_int r * s)
                    = binary_round_aux prec emax false (Zpos (mr * ms)) (er + es) loc_Exact)
      by (rewrite FloatAxioms.mul_spec, Hsr, Hs; exact Hp).
    assert (H2er : 0 < 2 ^ (- er)) by (apply Z.pow_pos_nonneg; lia).
    assert (H2es : 0 < 2 ^ (-31 - es)) by (apply Z.pow_pos_nonneg; lia).
    destruct (binary_round_aux_le false (Zpos (mr * ms)) (er + es) loc_Exact
                (r * 4294967295) (-32)) as [Hz | (m & e & Hf & He & Hm)].
    + lia.
    + lia.
    + apply Zdigits2_le_of_lt; [lia | lia |].
      apply Z.le_lt_trans with (255 * 4294967295); [nia | reflexivity].
    + lia.
    + lia.
    + rewrite Pos2Z.inj_mul, Hmr.
      replace (-32 - (er + es)) with (- er + (-31 - es) + -1 + 0) by lia.
      replace (- er + (-31 - es) + -1 + 0) with ((- er) + ((-31 - es) - 1)) by lia.
      rewrite Z.pow_add_r by lia.
      assert (Hhalf : 2 ^ (-31 - es) = 2 * 2 ^ (-31 - es - 1)).
      { rewrite <- Z.pow_succ_r by lia. f_equal. lia. }
      assert (0 < 2 ^ (-31 - es - 1)) by (apply Z.pow_pos_nonneg; lia).
      nia.
    + exists 0. unfold cast_uint8. rewrite Hprod, Hz. simpl. split; [reflexivity | lia].
    + assert (Hlt : Zpos m < r * 2 ^ (- e)).
      { replace (- e) with (32 + (-32 - e)) by lia. rewrite Z.pow_add_r by lia.
        assert (0 < 2 ^ (-32 - e)) by (apply Z.pow_pos_nonneg; lia).
        change (2 ^ 32) with 4294967296. nia. }
      exists (Zpos m / 2 ^ (- e)). unfold cast_uint8. rewrite Hprod, Hf. simpl.
      rewrite Z.shiftl_div_pow2 by lia.
      assert (H2e : 0 < 2 ^ (- e)) by (apply Z.pow_pos_nonneg; lia).
      assert (Hq : 0 <= Zpos m / 2 ^ (- e) <= r - 1).
      { split; [apply Z.div_pos; lia|].
        assert (Zpos m / 2 ^ (- e) < r) by (apply Z.div_lt_upper_bound; lia). lia. }
      replace ((0 <=? Zpos m / 2 ^ (- e)) && (Zpos m / 2 ^ (- e) <=? 255)) with true
        by (symmetry; apply andb_true_iff; split; apply Z.leb_le; lia).
      split; [reflexivity | exact Hq].
Qed.

(** ** The order of doubles and the maximum *)

Lemma finite_key_bounds m e :
  bounded prec emax m e = true -> 0 < Zpos m * 2 ^ (e + 1074) < key_infinity.
Proof.
  intros Hv. apply canonical_digits in Hv. destruct Hv as (Hd & He & _).
  destruct (Zdigits2_bounds m) as [_ Hhi].
  assert (H53 : Zpos m < 2 ^ 53).
  { apply Z.lt_le_trans with (2 ^ Zdigits2 (Zpos m)); [lia|].
    apply Z.pow_le_mono_r; lia. }
  assert (Hp : 0 < 2 ^ (e + 1074)) by (apply Z.pow_pos_nonneg; lia).
  split; [lia|]. unfold key_infinity.
  apply Z.lt_le_trans with (2 ^ 53 * 2 ^ (e + 1074)).
  - apply Z.mul_lt_mono_pos_r; assumption.
  - rewrite <- Z.pow_add_r by lia. apply Z.pow_le_mono_r; lia.
Qed.

(** Two canonical positive doubles compare as their keys do. *)
Lemma finite_compare_key m1 e1 m2 e2 :
  bounded prec emax m1 e1 = true -> bounded prec emax m2 e2 = true ->
  match Z.compare e1 e2 with
  | Lt => Lt
  | Gt => Gt
  | Eq => Pos.compare_cont Eq m1 m2
  end = (Zpos m1 * 2 ^ (e1 + 1074) ?= Zpos m2 * 2 ^ (e2 + 1074)).
Proof.
  intros Hv1 Hv2.
  apply canonical_digits in Hv1. destruct Hv1 as (Hd1 & He1 & Hs1).
  apply canonical_digits in Hv2. destruct Hv2 as (Hd2 & He2 & Hs2).
  destruct (Zdigits2_bounds m1) as [Hlo1 Hhi1]. destruct (Zdigits2_bounds m2) as [Hlo2 Hhi2].
  assert (H1 : Zpos m1 < 2 ^ 53).
  { apply Z.lt_le_trans with (2 ^ Zdigits2 (Zpos m1)); [lia|]. apply Z.pow_le_mono_r; lia. }
  assert (H2 : Zpos m2 < 2 ^ 53).
  { apply Z.lt_le_trans with (2 ^ Zdigits2 (Zpos m2)); [lia|]. apply Z.pow_le_mono_r; lia. }
  symmetry.
  destruct (Z.compare_spec e1 e2) as [Heq|Hlt|Hgt].
  - subst e2. rewrite Pos.compare_cont_spec. simpl Pos.switch_Eq.
    assert (Hp : 0 < 2 ^ (e1 + 1074)) by (apply Z.pow_pos_nonneg; lia).
    change (Pos.compare m1 m2) with (Zpos m1 ?= Zpos m2).
    destruct (Z.compare_spec (Zpos m1) (Zpos m2)) as [E|L|G].
    + rewrite E. apply Z.compare_refl.
    + apply Z.compare_lt_iff. apply Z.mul_lt_mono_pos_r; assumption.
    + apply Z.compare_gt_iff. apply Z.mul_lt_mono_pos_r; assumption.
  - apply Z.compare_lt_iff.
    assert (Hd : Zdigits2 (Zpos m2) = 53) by lia.
    rewrite Hd in Hlo2. change (2 ^ (53 - 1)) with (2 ^ 52) in Hlo2.
    apply Z.lt_le_trans with (2 ^ 53 * 2 ^ (e1 + 1074)).
    + apply Z.mul_lt_mono_pos_r; [apply Z.pow_pos_nonneg; lia | assumption].
    + apply Z.le_trans with (2 ^ 52 * 2 ^ (e2 + 1074)).
      * rewrite <- !Z.pow_add_r by lia. apply Z.pow_le_mono_r; lia.
      * apply Z.mul_le_mono_nonneg_r; [apply Z.pow_nonneg; lia | assumption].
  - apply Z.compare_gt_iff.
    assert (Hd : Zdigits2 (Zpos m1) = 53) by lia.
    rewrite Hd in Hlo1. change (2 ^ (53 - 1)) with (2 ^ 52) in Hlo1.
    apply Z.lt_le_trans with (2 ^ 53 * 2 ^ (e2 + 1074)).
    + apply Z.mul_lt_mono_pos_r; [apply Z.pow_pos_nonneg; lia | assumption].
    + apply Z.le_trans with (2 ^ 52 * 2 ^ (e1 + 1074)).
      * rewrite <- !Z.pow_add_r by lia. apply Z.pow_le_mono_r; lia.
      * apply Z.mul_le_mono_nonneg_r; [apply Z.pow_nonneg; lia | assumption].
Qed.

(** Comparison of doubles other than NaN is comparison of their keys. *)
Lemma SFcompare_key x y :
  valid_binary x = true -> valid_binary y = true ->
  x <> S754_nan -> y <> S754_nan ->
  SFcompare x y = Some (SF_key x ?= SF_key y).
Proof.
  intros Hvx Hvy Hx Hy.
  assert (HK : 0 < key_infinity) by (apply Z.pow_pos_nonneg; lia).
  destruct x as [sx|sx| |sx mx ex]; try congruence;
    destruct y as [sy|sy| |sy my ey]; try congruence;
    cbn [SF_key SFcompare SpecFloat.valid_binary] in *;
    try (pose proof (finite_key_bounds mx ex Hvx) as Bx);
    try (pose proof (finite_key_bounds my ey Hvy) as By);
    try (rewrite (finite_compare_key mx ex my ey Hvx Hvy));
    try destruct sx; try destruct sy; cbn [cond_Zopp]; f_equal; symmetry;
    try reflexivity;
    try (apply Z.compare_lt_iff; lia);
    try (apply Z.compare_gt_iff; lia);
    try (apply Z.compare_eq_iff; lia).
  rewrite Z.compare_opp, (Z.compare_antisym (Zpos mx * 2 ^ (ex + 1074))).
  rewrite <- (finite_compare_key mx ex my ey Hvx Hvy).
  destruct (ex ?= ey); reflexivity.
Qed.

Lemma is_nan_spec x : is_nan x = true <-> Prim2SF x = S754_nan.
Proof.
  unfold is_nan. rewrite FloatAxioms.eqb_spec. pose proof (Prim2SF_valid x) as Hv.
  destruct (Prim2SF x) as [s|s| |s m e] eqn:Hx.
  - split; [discriminate | discriminate].
  - destruct s; split; discriminate.
  - split; reflexivity.
  - split; [|discriminate]. unfold SFeqb.
    rewrite (SFcompare_key _ _ Hv Hv) by discriminate. rewrite Z.compare_refl. discriminate.
Qed.

Lemma ltb_key x y :
  is_nan x = false -> is_nan y = false -> (x <? y)%float = (key x <? key y).
Proof.
  intros Hx Hy. rewrite FloatAxioms.ltb_spec. unfold SFltb, key, Z.ltb.
  rewrite SFcompare_key; try apply Prim2SF_valid.
  - reflexivity.
  - intros H. apply is_nan_spec in H. congruence.
  - intros H. apply is_nan_spec in H. congruence.
Qed.

Lemma leb_key x y :
  is_nan x = false -> is_nan y = false -> (x <=? y)%float = (key x <=? key y).
Proof.
  intros Hx Hy. rewrite FloatAxioms.leb_spec. unfold SFleb, key, Z.leb.
  rewrite SFcompare_key; try apply Prim2SF_valid.
  - destruct (SF_key (Prim2SF x) ?= SF_key (Prim2SF y)); reflexivity.
  - intros H. apply is_nan_spec in H. congruence.
  - intros H. apply is_nan_spec in H. congruence.
Qed.

Lemma ltb_not_nan x y : (x <? y)%float = true -> is_nan x = false /\ is_nan y = false.
Proof.
  rewrite FloatAxioms.ltb_spec. unfold SFltb. intros H.
  split; apply not_true_is_false; intros Hn; apply is_nan_spec in Hn; rewrite Hn in H;
    [|destruct (Prim2SF x)]; discriminate.
Qed.

Lemma max_element_from_elem (vals : list float) : forall largest,
  max_element_from largest vals ∈ largest :: vals.
Proof.
  induction vals as [|v vals IH]; intros largest; simpl.
  - left.
  - specialize (IH (if (largest <? v)%float then v else largest)).
    apply elem_of_cons in IH. destruct IH as [-> | IH].
    + destruct (largest <? v)%float; [right; left | left].
    + right. right. exact IH.
Qed.

Lemma max_element_from_nan (vals : list float) : forall largest,
  is_nan (max_element_from largest vals) = is_nan largest.
Proof.
  induction vals as [|v vals IH]; intros largest; simpl; [reflexivity|].
  rewrite IH. destruct (largest <? v)%float eqn:Hlt; [|reflexivity].
  apply ltb_not_nan in Hlt. destruct Hlt as [-> ->]. reflexivity.
Qed.

Lemma max_element_from_key (vals : list float) : forall largest,
  is_nan largest = false -> Forall (fun u => is_nan u = false) vals ->
  Forall (fun u => key u <= key (max_element_from largest vals)) (largest :: vals).
Proof.
  induction vals as [|v vals IH]; intros largest Hl Hall; simpl.
  - repeat constructor. lia.
  - apply Forall_cons in Hall. destruct Hall as [Hv Hall].
    assert (Hstep : is_nan (if (largest <? v)%float then v else largest) = false
                    /\ key largest <= key (if (largest <? v)%float then v else largest)
                    /\ key v <= key (if (largest <? v)%float then v else largest)).
    { rewrite (ltb_key largest v Hl Hv).
      destruct (Z.ltb_spec (key largest) (key v)); repeat split; auto; lia. }
    destruct Hstep as (Hn & Hkl & Hkv).
    specialize (IH _ Hn Hall). apply Forall_cons in IH. destruct IH as [Hk IH].
    repeat (apply Forall_cons; split); try lia. exact IH.
Qed.

(** X2. The accumulation function of [main]: on an empty span it has no
    defined result; otherwise it returns one of the coefficients it was given,
    which is NaN exactly when the first coefficient is NaN, and - when no
    coefficient is NaN - none of the coefficients is greater than it. *)
Theorem max_element_spec :
  max_element [] = None /\
  forall v vals,
    exists m,
      max_element (v :: vals) = Some m /\
      m ∈ v :: vals /\
      is_nan m = is_nan v /\
      (Forall (fun u => is_nan u = false) (v :: vals) ->
       Forall (fun u => (m <? u)%float = false) (v :: vals)).
Proof.
  split; [reflexivity|]. intros v vals. exists (max_element_from v vals).
  split; [reflexivity|]. split; [apply max_element_from_elem|].
  split; [apply max_element_from_nan|].
  intros Hall. apply Forall_cons in Hall. destruct Hall as [Hv Hall].
  pose proof (max_element_from_key vals v Hv Hall) as Hk.
  assert (Hm : is_nan (max_element_from v vals) = false)
    by (rewrite max_element_from_nan; exact Hv).
  pose proof (Forall_cons_2 _ _ _ Hv Hall) as Hall'.
  rewrite Forall_forall in Hk, Hall' |- *.
  intros u Hu. rewrite ltb_key by auto. apply Z.ltb_ge. auto.
Qed.

(** ** The scenarios *)

Lemma scenario_fan_max_fan : max_fan scenario_fan.
Proof. repeat constructor; unfold uint8, fitting; simpl; try lia; try discriminate. Qed.

Lemma second_fan_max_fan : max_fan second_fan.
Proof. repeat constructor; unfold uint8, fitting; simpl; try lia; try discriminate. Qed.

Lemma scenario_fans_max_fan : Forall max_fan [scenario_fan; second_fan].
Proof. repeat constructor; unfold uint8, fitting; simpl; try lia; try discriminate. Qed.

(** Readings of 65000 and 46000 give the coefficients 0.25 and 0.5. *)
Lemma scenario_coefficients :
  Forall2 (coeff_at (world_with (Some 65000) (Some 46000))) (drivers_ scenario_fan)
    [0.25%float; 0.5%float].
Proof.
  simpl. constructor; [exists 65000; split; reflexivity|].
  constructor; [exists 46000; split; reflexivity|]. constructor.
Qed.

(** ** The coefficients [fan::update] collects *)

Lemma collect_coeffs_spec (ds : list driver.t) (w : world) : forall acc vs,
  collect_coeffs ds acc w = inr vs <->
  exists cs, Forall2 (coeff_at w) ds cs /\ vs = acc ++ cs.
Proof.
  induction ds as [|d ds IH]; intros acc vs; simpl.
  - split.
    + intros [= <-]. exists []. rewrite app_nil_r. split; [constructor | reflexivity].
    + intros (cs & Hcs & ->). inversion Hcs. rewrite app_nil_r. reflexivity.
  - unfold get_coeff. destruct (last_value_ w (driver.src d)) as [v|] eqn:Hv.
    + rewrite IH. split.
      * intros (cs & Hcs & ->). exists (coeff v (driver.min d) (driver.max d) :: cs).
        rewrite <- app_assoc. split; [|reflexivity].
        constructor; [exists v; auto | assumption].
      * intros (cs & Hcs & ->). inversion Hcs as [|d' c ds' cs' Hc Hrest]; subst.
        destruct Hc as (v' & Hv' & ->). rewrite Hv in Hv'. injection Hv' as <-.
        exists cs'. rewrite <- app_assoc. auto.
    + split; [discriminate|].
      intros (cs & Hcs & _). inversion Hcs as [|d' c ds' cs' Hc Hrest]; subst.
      destruct Hc as (v' & Hv' & _). congruence.
Qed.

Lemma set_pwm_not_accum (E : env) (f : fan) (v : Z) : emits not_accum (set_pwm E f v).
Proof.
  unfold set_pwm. apply emits_bind; [apply emits_ofstream; intros; exact I|].
  intros a. apply emits_bind; [apply emits_stream_insert; intros; exact I|].
  intros [|]; [apply emits_log; exact I | apply emits_throw].
Qed.

(** X3. When every driver's source holds a value, [fan::update] collects one
    coefficient per driver, in the order the drivers were attached, logs them,
    and calls the accumulation function on them exactly once. *)
Theorem update_accumulates_in_order (E : env) (f : fan) (w : world) (cs : list float) :
  Forall2 (coeff_at w) (drivers_ f) cs ->
  collect_coeffs (drivers_ f) [] w = inr cs /\
  length cs = length (drivers_ f) /\
  exists evs,
    new_events w (snd (update E f w))
      = EvLog TRACE (msg_coefficients cs) :: EvAccum cs :: evs /\
    Forall not_accum evs.
Proof.
  intros Hcs.
  assert (Hc : collect_coeffs (drivers_ f) [] w = inr cs)
    by (apply collect_coeffs_spec; exists cs; auto).
  split; [exact Hc|]. split; [symmetry; eapply Forall2_length; eauto|].
  unfold update. rewrite Hc. unfold mbind, M_bind, log. simpl.
  set (w0 := emit (EvAccum cs) (emit (EvLog TRACE (msg_coefficients cs)) w)).
  assert (Hrest : emits not_accum
            (match accum_fn_ f cs with
             | Some pwm_scale =>
                 match cast_uint8 (double_of_int (pwm_max_ f - pwm_min_ f) * pwm_scale) with
                 | Some c =>
                     mbind (fun _ : unit => log INFO (msg_fan_set (pwm_ f) (pwm_min_ f + c)))
                           (set_pwm E f (pwm_min_ f + c))
                 | None => undefined
                 end
             | None => undefined
             end)).
  { destruct (accum_fn_ f cs); [|apply emits_undefined].
    destruct (cast_uint8 _); [|apply emits_undefined].
    apply emits_bind; [apply set_pwm_not_accum | intros _; apply emits_log; exact I]. }
  destruct (Hrest w0) as (evs & Htr & Hall).
  exists evs. split; [|exact Hall].
  unfold new_events.
  replace (trace (snd _)) with (trace w ++ EvLog TRACE (msg_coefficients cs) :: EvAccum cs :: evs).
  - apply drop_app_length.
  - symmetry. etransitivity; [|].
    2: { unfold w0 in Htr. simpl in Htr. rewrite <- !app_assoc in Htr. simpl in Htr. exact Htr. }
    reflexivity.
Qed.

Lemma update_accumulates_in_order_witness :
  collect_coeffs (drivers_ scenario_fan) [] (world_with (Some 65000) (Some 46000))
    = inr [0.25%float; 0.5%float] /\
  length [0.25%float; 0.5%float] = length (drivers_ scenario_fan) /\
  exists evs,
    new_events (world_with (Some 65000) (Some 46000))
      (snd (update writable_env scenario_fan (world_with (Some 65000) (Some 46000))))
      = EvLog TRACE (msg_coefficients [0.25%float; 0.5%float])
          :: EvAccum [0.25%float; 0.5%float] :: evs /\
    Forall not_accum evs.
Proof.
  apply (update_accumulates_in_order writable_env scenario_fan
           (world_with (Some 65000) (Some 46000)) [0.25%float; 0.5%float]).
  apply scenario_coefficients.
Defined.

(** ** The maximum as accumulation function *)

Lemma max_element_from_preserves (P : float -> Prop) (vals : list float) :
  forall largest, P largest -> Forall P vals -> P (max_element_from largest vals).
Proof.
  induction vals as [|v vals IH]; intros largest Hl Hall; simpl; [assumption|].
  apply Forall_cons in Hall. destruct Hall as [Hv Hall].
  apply IH; [|assumption]. destruct (largest <? v)%float; assumption.
Qed.

Lemma leb_not_nan x y : (x <=? y)%float = true -> is_nan x = false /\ is_nan y = false.
Proof.
  rewrite FloatAxioms.leb_spec. unfold SFleb. intros H.
  split; apply not_true_is_false; intros Hn; apply is_nan_spec in Hn; rewrite Hn in H;
    [|destruct (Prim2SF x)]; discriminate.
Qed.

Lemma in_unit_not_nan c : in_unit c -> is_nan c = false.
Proof. intros [H _]. apply leb_not_nan in H. tauto. Qed.

Lemma key_one : key 1 = 2 ^ 1074.
Proof. unfold key. rewrite Prim2SF_one. unfold SF_one, SF_key, cond_Zopp.
  change 4503599627370496 with (2 ^ 52). rewrite <- Z.pow_add_r by lia. reflexivity. Qed.

Lemma in_unit_one_or_below c : in_unit c -> c = 1%float \/ key c < key 1.
Proof.
  intros [H0 H1]. rewrite key_one.
  destruct (unit_interval_shape c H0 H1) as [[b Hz] | [-> | (m & e & Hs & He & Hm)]].
  - right. unfold key. rewrite Hz. cbn [SF_key]. apply Z.pow_pos_nonneg; lia.
  - left. reflexivity.
  - right. unfold key. rewrite Hs. cbn [SF_key cond_Zopp].
    pose proof (Prim2SF_valid c) as Hv. rewrite Hs in Hv.
    cbn [SpecFloat.valid_binary] in Hv.
    apply canonical_digits in Hv. destruct Hv as (_ & Hr & _).
    assert (Hp : 0 < 2 ^ (e + 1074)) by (apply Z.pow_pos_nonneg; lia).
    assert (Hsplit : 2 ^ 1074 = 2 ^ (- e) * 2 ^ (e + 1074)).
    { rewrite <- Z.pow_add_r by lia. f_equal. lia. }
    rewrite Hsplit. apply Z.mul_lt_mono_pos_r; assumption.
Qed.

(** With every coefficient in the unit interval and one of them 1.0, the
    maximum is 1.0. *)
Lemma max_element_from_one (vals : list float) (largest : float) :
  Forall in_unit (largest :: vals) -> 1%float ∈ largest :: vals ->
  max_element_from largest vals = 1%float.
Proof.
  intros Hall Hone.
  pose proof (max_element_from_preserves in_unit vals largest) as Hin.
  apply Forall_cons in Hall. destruct Hall as [Hl Hall].
  specialize (Hin Hl Hall).
  pose proof (max_element_from_key vals largest (in_unit_not_nan _ Hl)) as Hk.
  assert (Hnn : Forall (fun u => is_nan u = false) vals)
    by (eapply Forall_impl; [exact Hall | apply in_unit_not_nan]).
  specialize (Hk Hnn). rewrite Forall_forall in Hk. specialize (Hk _ Hone).
  destruct (in_unit_one_or_below _ Hin) as [-> | Hlt]; [reflexivity | lia].
Qed.

(** A coefficient strictly between its thresholds. *)
Lemma coeff_interior (v lo hi : Z) :
  lo < hi -> hi - lo < 2 ^ 31 -> lo < v < hi ->
  (0 <? coeff v lo hi)%float = true /\
  (coeff v lo hi <=? largest_interior)%float = true.
Proof.
  intros Hlt Hfit Hv.
  destruct (coeff_spec v lo hi Hlt Hfit) as (_ & _ & Hmid).
  destruct (Hmid Hv) as [-> _].
  apply div_interior; lia.
Qed.

(** Below the upper threshold, a coefficient is at most [1 - 2^-31]. *)
Lemma coeff_below_one (v lo hi : Z) :
  lo < hi -> hi - lo < 2 ^ 31 -> v < hi -> below_one (coeff v lo hi).
Proof.
  intros Hlt Hfit Hv.
  destruct (Z_le_gt_dec v lo) as [Hlo|Hlo].
  - destruct (coeff_spec v lo hi Hlt Hfit) as (H0 & _).
    rewrite H0 by assumption. split; reflexivity.
  - destruct (coeff_interior v lo hi Hlt Hfit ltac:(lia)) as [Hpos Hle].
    split; [|assumption].
    destruct (coeff_in_unit v lo hi Hlt Hfit) as [H0 _]. exact H0.
Qed.

Lemma Forall2_coeff_at (P : float -> Prop) (w : world) (ds : list driver.t) (cs : list float) :
  Forall2 (coeff_at w) ds cs ->
  (forall d v, d ∈ ds -> last_value_ w (driver.src d) = Some v ->
               P (coeff v (driver.min d) (driver.max d))) ->
  Forall P cs.
Proof.
  induction 1 as [|d c ds cs (v & Hv & ->) _ IH]; intros HP; constructor.
  - apply (HP d v); [left | assumption].
  - apply IH. intros d' v' Hin. apply HP. right. exact Hin.
Qed.

Lemma Forall2_coeff_at_elem (w : world) (ds : list driver.t) (cs : list float) d v :
  Forall2 (coeff_at w) ds cs -> d ∈ ds -> last_value_ w (driver.src d) = Some v ->
  coeff v (driver.min d) (driver.max d) ∈ cs.
Proof.
  induction 1 as [|d0 c ds cs (v0 & Hv0 & ->) _ IH]; intros Hin Hv.
  - inversion Hin.
  - apply elem_of_cons in Hin. destruct Hin as [-> | Hin].
    + rewrite Hv in Hv0. injection Hv0 as <-. left.
    + right. auto.
Qed.

(** ** The duty of a fan that takes the maximum *)

(** The duty of a fan as [main] builds them, from a state in which every
    sensor holds a value. *)
Lemma update_max_unfold (E : env) (f : fan) (w : world) (cs : list float) :
  max_fan f -> Forall2 (coeff_at w) (drivers_ f) cs ->
  exists c cs' t,
    cs = c :: cs' /\
    cast_uint8 (double_of_int (pwm_max_ f - pwm_min_ f) * max_element_from c cs')%float
      = Some t /\
    0 <= t <= pwm_max_ f - pwm_min_ f /\
    update E f w = (set_pwm E f (pwm_min_ f + t);;
                    log INFO (msg_fan_set (pwm_ f) (pwm_min_ f + t)))
                     (emit (EvAccum cs) (emit (EvLog TRACE (msg_coefficients cs)) w)).
Proof.
  intros (Hmin & Hmax & Hlt & Hne & Hfit & Hacc) Hcs.
  assert (Hc : collect_coeffs (drivers_ f) [] w = inr cs).
  { apply collect_coeffs_spec. exists cs. split; [assumption | reflexivity]. }
  rewrite Forall_forall in Hfit.
  assert (Hunit : Forall in_unit cs).
  { apply (Forall2_coeff_at in_unit w _ _ Hcs). intros d v Hd _.
    destruct (Hfit d Hd). apply coeff_in_unit; assumption. }
  destruct cs as [|c cs].
  { apply Forall2_nil_inv_r in Hcs. contradiction. }
  apply Forall_cons in Hunit. destruct Hunit as [Hc0 Hrest].
  destruct (max_element_from_in_unit cs c Hc0 Hrest) as [H0 H1].
  unfold uint8 in *.
  destruct (scale_cast (pwm_max_ f - pwm_min_ f) (max_element_from c cs))
    as (t & Hcast & Ht & _); [lia | assumption | assumption |].
  exists c, cs, t. repeat split; try assumption; try lia.
  apply update_unfold with (scale := max_element_from c cs); [assumption | | assumption].
  rewrite Hacc. reflexivity.
Qed.

(** X4. For a fan as [main] builds them (a proper [uint8_t] range, fitting
    thresholds, the maximum as accumulation function) whose sensors all hold a
    value, [fan::update] sets a duty between [pwm_min] and [pwm_max]: it is
    [pwm_min] when no reading exceeds its lower threshold, [pwm_max] when some
    reading has reached its upper threshold, and below [pwm_max] when every
    reading is below its upper threshold. *)
Theorem update_max_duty (E : env) (f : fan) (w : world) (cs : list float) :
  max_fan f -> Forall2 (coeff_at w) (drivers_ f) cs ->
  exists duty,
    update E f w = (set_pwm E f duty;; log INFO (msg_fan_set (pwm_ f) duty))
                     (emit (EvAccum cs) (emit (EvLog TRACE (msg_coefficients cs)) w)) /\
    pwm_min_ f <= duty <= pwm_max_ f /\
    ((forall d v, d ∈ drivers_ f -> last_value_ w (driver.src d) = Some v ->
                  v <= driver.min d) -> duty = pwm_min_ f) /\
    ((exists d v, d ∈ drivers_ f /\ last_value_ w (driver.src d) = Some v /\
                  driver.max d <= v) -> duty = pwm_max_ f) /\
    ((forall d v, d ∈ drivers_ f -> last_value_ w (driver.src d) = Some v ->
                  v < driver.max d) -> duty < pwm_max_ f).
Proof.
  intros Hfan Hcs.
  destruct (update_max_unfold E f w cs Hfan Hcs) as (c & cs' & t & -> & Hcast & Ht & Hupd).
  destruct Hfan as (Hmin & Hmax & Hlt & Hne & Hfit & Hacc).
  rewrite Forall_forall in Hfit.
  assert (Hunit : Forall in_unit (c :: cs')).
  { apply (Forall2_coeff_at in_unit w _ _ Hcs). intros d v Hd _.
    destruct (Hfit d Hd). apply coeff_in_unit; assumption. }
  pose proof Hunit as Hunit'.
  apply Forall_cons in Hunit'. destruct Hunit' as [Hc0 Hrest].
  destruct (max_element_from_in_unit cs' c Hc0 Hrest) as [H0 H1].
  unfold uint8 in *.
  destruct (scale_cast (pwm_max_ f - pwm_min_ f) (max_element_from c cs'))
    as (t' & Hcast' & _ & _ & Hzero & Hone); [lia | assumption | assumption |].
  rewrite Hcast in Hcast'. injection Hcast' as <-.
  exists (pwm_min_ f + t). split; [exact Hupd|]. split; [lia|]. split; [|split].
  - intros Hcold. rewrite Hzero; [lia|].
    assert (Hall : Forall (fun s => (s =? 0)%float = true) (c :: cs')).
    { apply (Forall2_coeff_at _ w _ _ Hcs). intros d v Hd Hv.
      destruct (Hfit d Hd) as [Hl Hf].
      destruct (coeff_spec v _ _ Hl Hf) as (Hz & _). rewrite Hz by eauto. reflexivity. }
    apply Forall_cons in Hall. destruct Hall as [Hz0 Hzrest].
    apply (max_element_from_preserves (fun s => (s =? 0)%float = true)); assumption.
  - intros (d & v & Hd & Hv & Hhot). rewrite Hone; [lia|].
    apply max_element_from_one; [assumption|].
    destruct (Hfit d Hd) as [Hl Hf].
    destruct (coeff_spec v _ _ Hl Hf) as (_ & Hh & _). rewrite <- (Hh Hhot).
    eapply Forall2_coeff_at_elem; eassumption.
  - intros Hbelow.
    assert (Hall : Forall below_one (c :: cs')).
    { apply (Forall2_coeff_at _ w _ _ Hcs). intros d v Hd Hv.
      destruct (Hfit d Hd) as [Hl Hf]. apply coeff_below_one; eauto. }
    apply Forall_cons in Hall. destruct Hall as [Hb0 Hbrest].
    destruct (max_element_from_preserves below_one cs' c Hb0 Hbrest) as [Hs0 Hs1].
    destruct (scale_cast_interior (pwm_max_ f - pwm_min_ f) _ ltac:(lia) Hs0 Hs1)
      as (t' & Hcast' & Ht').
    rewrite Hcast in Hcast'. injection Hcast' as <-. lia.
Qed.

Lemma update_max_duty_witness :
  exists duty,
    update writable_env scenario_fan (world_with (Some 65000) (Some 46000))
      = (set_pwm writable_env scenario_fan duty;;
         log INFO (msg_fan_set (pwm_ scenario_fan) duty))
          (emit (EvAccum [0.25%float; 0.5%float])
             (emit (EvLog TRACE (msg_coefficients [0.25%float; 0.5%float]))
                (world_with (Some 65000) (Some 46000)))) /\
    pwm_min_ scenario_fan <= duty <= pwm_max_ scenario_fan /\
    ((forall d v, d ∈ drivers_ scenario_fan ->
        last_value_ (world_with (Some 65000) (Some 46000)) (driver.src d) = Some v ->
        v <= driver.min d) -> duty = pwm_min_ scenario_fan) /\
    ((exists d v, d ∈ drivers_ scenario_fan /\
        last_value_ (world_with (Some 65000) (Some 46000)) (driver.src d) = Some v /\
        driver.max d <= v) -> duty = pwm_max_ scenario_fan) /\
    ((forall d v, d ∈ drivers_ scenario_fan ->
        last_value_ (world_with (Some 65000) (Some 46000)) (driver.src d) = Some v ->
        v < driver.max d) -> duty < pwm_max_ scenario_fan).
Proof.
  apply (update_max_duty writable_env scenario_fan
           (world_with (Some 65000) (Some 46000)) [0.25%float; 0.5%float]).
  - apply scenario_fan_max_fan.
  - apply scenario_coefficients.
Defined.

(** ** The endpoints of a coefficient *)

Lemma below_largest_interior c :
  (c <=? largest_interior)%float = true -> (c <? 1)%float = true.
Proof.
  intros H. destruct (leb_not_nan _ _ H) as [Hc HB].
  rewrite (leb_key _ _ Hc HB) in H. apply Z.leb_le in H.
  rewrite (ltb_key c 1 Hc eq_refl). apply Z.ltb_lt.
  apply Z.le_lt_trans with (key largest_interior); [assumption|].
  rewrite key_one. unfold key. rewrite Prim2SF_largest_interior.
  cbn [SF_key cond_Zopp]. reflexivity.
Qed.

(** X5. With fitting thresholds, the coefficient is 0.0 exactly when the
    reading is at most [min], 1.0 exactly when it is at least [max], and
    strictly between 0.0 and 1.0 exactly when the reading is strictly between
    the thresholds: the rounding of the division never reaches an endpoint. *)
Theorem get_coeff_endpoints (d : driver.t) (w : world) (v : Z) :
  last_value_ w (driver.src d) = Some v -> fitting d ->
  exists c,
    get_coeff d w = (Ok c, w) /\
    (c = 0%float <-> v <= driver.min d) /\
    (c = 1%float <-> driver.max d <= v) /\
    (driver.min d < v < driver.max d <->
     (0 <? c)%float = true /\ (c <? 1)%float = true).
Proof.
  intros Hv [Hlt Hfit]. unfold get_coeff. rewrite Hv.
  eexists. split; [reflexivity|].
  set (lo := driver.min d) in *. set (hi := driver.max d) in *.
  destruct (coeff_spec v lo hi Hlt Hfit) as (H0 & H1 & _).
  assert (Hin : lo < v < hi -> (0 <? coeff v lo hi)%float = true /\
                               (coeff v lo hi <? 1)%float = true).
  { intros Hmid. destruct (coeff_interior v lo hi Hlt Hfit Hmid) as [Hpos Hle].
    split; [assumption | apply below_largest_interior; assumption]. }
  destruct (Z_le_gt_dec v lo) as [Hlo|Hlo]; [|destruct (Z_le_gt_dec hi v) as [Hhi|Hhi]].
  - rewrite (H0 Hlo). split; [tauto|]. split.
    + split; [discriminate | lia].
    + split; [lia | intros [Hc _]; discriminate Hc].
  - rewrite (H1 Hhi). split; [|split; [tauto|]].
    + split; [discriminate | lia].
    + split; [lia | intros [_ Hc]; discriminate Hc].
  - destruct (Hin ltac:(lia)) as [Hpos Hone].
    split; [|split; [|split; [auto | lia]]];
      (split; [|lia]); intros Hc; rewrite Hc in *; discriminate.
Qed.

Lemma get_coeff_endpoints_witness :
  exists c,
    get_coeff (driver.make 1%nat 60000 80000) (world_with (Some 79999) None)
      = (Ok c, world_with (Some 79999) None) /\
    (c = 0%float <-> 79999 <= 60000) /\
    (c = 1%float <-> 80000 <= 79999) /\
    (60000 < 79999 < 80000 <-> (0 <? c)%float = true /\ (c <? 1)%float = true).
Proof.
  apply (get_coeff_endpoints (driver.make 1%nat 60000 80000)
           (world_with (Some 79999) None) 79999).
  - reflexivity.
  - unfold fitting. simpl. lia.
Defined.

(** ** Equal thresholds *)

Lemma mul_nan_r x : is_nan (x * nan)%float = true.
Proof.
  apply is_nan_spec. rewrite FloatAxioms.mul_spec.
  change (Prim2SF nan) with S754_nan.
  destruct (Prim2SF x) as [s|s| |s m e]; reflexivity.
Qed.

Lemma cast_uint8_nan x : is_nan x = true -> cast_uint8 x = None.
Proof. intros H. apply is_nan_spec in H. unfold cast_uint8. rewrite H. reflexivity. Qed.

Lemma is_nan_eq x : is_nan x = true -> x = nan.
Proof.
  intros H. apply is_nan_spec in H. apply Prim2SF_inj. rewrite H. reflexivity.
Qed.

(** X6. A driver with [min = max] whose sensor reads exactly that value has
    the coefficient 0/0, a NaN. When it is the first driver of a fan that takes
    the maximum, the NaN is the scale, and its conversion to [uint8_t] in
    [fan::update] has undefined behaviour; nothing has been written by then. *)
Theorem equal_thresholds_undefined (E : env) (f : fan) (w : world) (d : driver.t)
    (ds : list driver.t) (cs : list float) :
  accum_fn_ f = max_element ->
  drivers_ f = d :: ds ->
  driver.min d = driver.max d ->
  last_value_ w (driver.src d) = Some (driver.min d) ->
  Forall2 (coeff_at w) ds cs ->
  get_coeff d w = (Ok nan, w) /\
  update E f w
    = (Undefined, emit (EvAccum (nan :: cs))
                    (emit (EvLog TRACE (msg_coefficients (nan :: cs))) w)).
Proof.
  intros Hacc Hds Heq Hv Hcs.
  assert (Hnan : coeff (driver.min d) (driver.min d) (driver.max d) = nan).
  { rewrite <- Heq. unfold coeff.
    rewrite Z.ltb_irrefl, Z.gtb_ltb, Z.ltb_irrefl, Z.sub_diag. reflexivity. }
  split.
  { unfold get_coeff. rewrite Hv, Hnan. reflexivity. }
  assert (Hc : collect_coeffs (drivers_ f) [] w = inr (nan :: cs)).
  { apply collect_coeffs_spec. exists (nan :: cs). split; [|reflexivity].
    rewrite Hds. constructor; [|assumption].
    exists (driver.min d). split; [assumption | symmetry; exact Hnan]. }
  unfold update. rewrite Hc, Hacc. unfold mbind, M_bind, log, undefined.
  cbn [max_element fst snd].
  rewrite (is_nan_eq (max_element_from nan cs)) by (rewrite max_element_from_nan; reflexivity).
  rewrite cast_uint8_nan by apply mul_nan_r. reflexivity.
Qed.

Lemma equal_thresholds_undefined_witness :
  get_coeff (driver.make 1%nat 70000 70000) (world_with (Some 70000) None)
    = (Ok nan, world_with (Some 70000) None) /\
  update writable_env flat_fan (world_with (Some 70000) None)
    = (Undefined, emit (EvAccum [nan])
                    (emit (EvLog TRACE (msg_coefficients [nan]))
                       (world_with (Some 70000) None))).
Proof.
  apply (equal_thresholds_undefined writable_env flat_fan
           (world_with (Some 70000) None) (driver.make 1%nat 70000 70000) [] []).
  - reflexivity.
  - reflexivity.
  - reflexivity.
  - reflexivity.
  - constructor.
Defined.

(** ** Exceptions *)

Lemma throws_weaken {A} (P Q : exn -> Prop) (m : M A) :
  (forall e, P e -> Q e) -> throws P m -> throws Q m.
Proof. intros HPQ Hm w e w' H. eauto. Qed.

Lemma throws_ret {A} (Q : exn -> Prop) (a : A) : throws Q (mret a).
Proof. intros w e w' H. discriminate H. Qed.

Lemma throws_log (Q : exn -> Prop) l msg : throws Q (log l msg).
Proof. intros w e w' H. discriminate H. Qed.

Lemma throws_bind {A B} (Q : exn -> Prop) (m : M A) (k : A -> M B) :
  throws Q m -> (forall a, throws Q (k a)) -> throws Q (m ≫= k).
Proof.
  intros Hm Hk w e w' H. unfold mbind, M_bind in H.
  destruct (m w) as [[a|e0|] w1] eqn:Hmw.
  - exact (Hk a w1 e w' H).
  - injection H as <- <-. exact (Hm w e0 w1 Hmw).
  - discriminate H.
Qed.

Lemma throws_for_each {A} (Q : exn -> Prop) (body : A -> M unit) (xs : list A) :
  (forall x, x ∈ xs -> throws Q (body x)) -> throws Q (for_each body xs).
Proof.
  induction xs as [|x xs IH]; intros Hb; simpl; [apply throws_ret|].
  apply throws_bind; [apply Hb; left|].
  intros _. apply IH. intros y Hy. apply Hb. right. exact Hy.
Qed.

Lemma set_pwm_throws (E : env) (f : fan) (v : Z) :
  throws (fun e => e = set_pwm_failed (this f) (name f) (to_uint8 v)) (set_pwm E f v).
Proof.
  intros w e w' H. destruct (set_pwm_spec E f v w) as (Hfst & _).
  rewrite H in Hfst. cbn [fst] in Hfst.
  destruct (is_good _); [discriminate Hfst | congruence].
Qed.

Lemma reset_throws (E : env) (f : fan) : throws (reset_exception f) (reset E f).
Proof.
  intros w e w' H. rewrite reset_unfold in H.
  destruct (ofstream_answer E (now w) (enable_path f));
    right; exact (set_pwm_throws E f 255 _ _ _ H).
Qed.

Lemma update_throws (E : env) (f : fan) : throws (update_exception f) (update E f).
Proof.
  intros w e w' H. unfold update in H.
  destruct (collect_coeffs (drivers_ f) [] w) as [d|values]; [discriminate H|].
  unfold mbind, M_bind, log, undefined in H. cbn [fst snd] in H.
  destruct (accum_fn_ f values) as [scale|]; [|discriminate H].
  destruct (cast_uint8 _) as [c|]; [|discriminate H].
  match type of H with
  | context [set_pwm E f ?v ?w0] =>
      pose proof (set_pwm_throws E f v w0) as Ht;
      destruct (set_pwm E f v w0) as [[[]|e0|] w1]; [discriminate H | | discriminate H]
  end.
  injection H as <- <-. exists (to_uint8 (pwm_min_ f + c)).
  split; [apply to_uint8_range | exact (Ht _ _ eq_refl)].
Qed.

Lemma source_update_throws (Q : exn -> Prop) (E : env) (s : source) :
  throws Q (source_update E s).
Proof.
  intros w e w' H. unfold source_update, log in H.
  destruct (get s E (now w)); discriminate H.
Qed.

Lemma reset_exception_is_fan (f : fan) (e : exn) :
  reset_exception f e -> is_fan_exception e = true /\ exception_fan_name e = name f.
Proof. intros [-> | ->]; split; reflexivity. Qed.

Lemma reset_each_throws (E : env) (fans : list fan) :
  throws (fun e => exists f, f ∈ fans /\ reset_exception f e) (reset_each E fans).
Proof.
  induction fans as [|f fans IH]; simpl; [apply throws_ret|].
  apply throws_bind.
  - intros w e w' H. unfold try_catch_fan in H.
    pose proof (reset_throws E f w) as Ht.
    destruct (reset E f w) as [[[]|e0|] w1]; [discriminate H | | discriminate H].
    specialize (Ht e0 w1 eq_refl).
    destruct (reset_exception_is_fan f e0 Ht) as [Hfan _]. rewrite Hfan in H.
    unfold mbind, M_bind, log, throw in H. injection H as <- <-.
    exists f. split; [left | assumption].
  - intros _. eapply throws_weaken; [|exact IH].
    intros e (g & Hg & He). exists g. split; [right|]; assumption.
Qed.

Lemma reset_fans_throws (E : env) (fans : list fan) :
  throws (fun e => exists f, f ∈ fans /\ reset_exception f e) (reset_fans E fans).
Proof.
  unfold reset_fans. apply throws_bind; [apply throws_log|].
  intros _. apply reset_each_throws.
Qed.

Lemma main_loop_throws (E : env) (n : nat) sources fans :
  throws (fun e => exists f, f ∈ fans /\ update_exception f e)
    (main_loop E n sources fans).
Proof.
  induction n as [|n IH]; simpl; [apply throws_ret|].
  apply throws_bind; [apply throws_for_each; intros; apply source_update_throws|].
  intros _. apply throws_bind.
  { apply throws_for_each. intros f Hf. eapply throws_weaken; [|apply update_throws].
    intros e He. exists f. auto. }
  intros _. apply throws_bind; [intros w e w' H; discriminate H | intros _; exact IH].
Qed.

(** X7. No failure of a sensor ever leaves the loop: an exception that
    reaches the [catch] of [main] is a [reset_failed] or a [set_pwm_failed] of
    one of the fans, an exception of [reset_fans] is a [reset_failed] or a
    [set_pwm_failed] for full speed, and so is the exception of a process that
    ends in [std::terminate]. *)
Theorem only_actuator_failures_escape (E : env) (sources : list source)
    (fans : list fan) (w : world) :
  (forall e w', guarded E sources fans w = (Throw e, w') ->
     exists f, f ∈ fans /\ (reset_exception f e \/ update_exception f e)) /\
  (forall e w', reset_fans E fans w = (Throw e, w') ->
     exists f, f ∈ fans /\ reset_exception f e) /\
  (forall e, fst (run E sources fans w) = Terminated e ->
     exists f, f ∈ fans /\ reset_exception f e).
Proof.
  split; [|split].
  - assert (Hg : throws (fun e => exists f, f ∈ fans /\
                            (reset_exception f e \/ update_exception f e))
                   (guarded E sources fans)).
    { unfold guarded. apply throws_bind.
      - eapply throws_weaken; [|apply reset_fans_throws].
        intros e (f & Hf & He). eauto.
      - intros _. apply throws_bind; [|intros _; apply throws_log].
        eapply throws_weaken; [|apply main_loop_throws].
        intros e (f & Hf & He). eauto. }
    intros e w'. apply Hg.
  - intros e w'. apply reset_fans_throws.
  - intros e H. unfold run, try_block in H.
    destruct (guarded E sources fans w) as [[[]|ex|] w1]; cbn [fst] in H;
      try discriminate H;
      match type of H with
      | context [reset_fans E fans ?w0] =>
          pose proof (reset_fans_throws E fans w0) as Ht;
          destruct (reset_fans E fans w0) as [[[]|e2|] w2]; try discriminate H
      end;
      injection H as <-; exact (Ht _ _ eq_refl).
Qed.

(** X8. A run over fans as [main] builds them never has undefined behaviour:
    it returns 0 after a cancellation, returns 1 after a caught exception, or
    ends in [std::terminate] on a fan exception. *)
Theorem run_outcome (E : env) (sources : list source) (fans : list fan) (w : world) :
  Forall max_fan fans ->
  let st := fst (run E sources fans w) in
  (st = Exited 0 /\ fst (guarded E sources fans w) = Ok tt) \/
  (st = Exited 1 /\ exists e, fst (guarded E sources fans w) = Throw e) \/
  (exists e, st = Terminated e /\ is_fan_exception e = true).
Proof.
  intros Hfans st. unfold st, run, try_block.
  pose proof (guarded_defined E sources fans Hfans w) as Hd.
  destruct (guarded E sources fans w) as [[[]|ex|] w1]; cbn [fst] in Hd;
    [| |congruence];
    match goal with
    | |- context [reset_fans E fans ?w0] =>
        pose proof (reset_fans_defined E fans w0) as Hd2;
        pose proof (reset_fans_throws E fans w0) as Ht;
        destruct (reset_fans E fans w0) as [[[]|e2|] w2]; cbn [fst] in Hd2 |- *;
        [ | | congruence]
    end; eauto;
    right; right; exists e2; (split; [reflexivity|]);
    destruct (Ht _ _ eq_refl) as (f & _ & He);
    apply (reset_exception_is_fan f e2 He).
Qed.

Lemma run_outcome_witness :
  let st := fst (run writable_env [cpu_source; hdd_source] [scenario_fan; second_fan]
                   initial_world) in
  (st = Exited 0 /\
   fst (guarded writable_env [cpu_source; hdd_source] [scenario_fan; second_fan]
          initial_world) = Ok tt) \/
  (st = Exited 1 /\
   exists e, fst (guarded writable_env [cpu_source; hdd_source]
                    [scenario_fan; second_fan] initial_world) = Throw e) \/
  (exists e, st = Terminated e /\ is_fan_exception e = true).
Proof.
  apply (run_outcome writable_env [cpu_source; hdd_source] [scenario_fan; second_fan]
           initial_world).
  apply scenario_fans_max_fan.
Defined.



(** ** What a run opens and writes *)

Lemma emits_for_each_in {A} (P : event -> Prop) (body : A -> M unit) (xs : list A) :
  (forall x, x ∈ xs -> emits P (body x)) -> emits P (for_each body xs).
Proof.
  induction xs as [|x xs IH]; intros Hb; simpl; [apply emits_ret|].
  apply emits_bind; [apply Hb; left|].
  intros _. apply IH. intros y Hy. apply Hb. right. exact Hy.
Qed.

Lemma to_uint8_id v : uint8 v -> to_uint8 v = v.
Proof. unfold uint8, to_uint8. intros H. apply Z.mod_small. lia. Qed.

Lemma set_pwm_fan_event (E : env) (fans : list fan) (f : fan) (v : Z) :
  f ∈ fans -> pwm_min_ f <= to_uint8 v <= pwm_max_ f \/ to_uint8 v = 255 ->
  emits (fan_event fans) (set_pwm E f v).
Proof.
  intros Hf Hv. unfold set_pwm.
  apply emits_bind; [apply emits_ofstream; intros b; exists f; auto|].
  intros a. apply emits_bind.
  - apply emits_stream_insert. intros b. exists f. split; [assumption|]. left.
    split; [reflexivity|]. exists (to_uint8 v). auto.
  - intros [|]; [apply emits_log; exact I | apply emits_throw].
Qed.

Lemma reset_fan_event (E : env) (fans : list fan) (f : fan) :
  f ∈ fans -> emits (fan_event fans) (reset E f).
Proof.
  intros Hf. unfold reset.
  apply emits_bind; [apply emits_ofstream; intros b; exists f; auto|]. intros a.
  apply emits_bind.
  - destruct (is_open a); [|apply emits_log; exact I].
    apply emits_bind; [apply emits_stream_insert; intros b; exists f; auto|].
    intros [|]; [apply emits_ret | apply emits_throw].
  - intros _. apply set_pwm_fan_event; [assumption | right; reflexivity].
Qed.

Lemma reset_each_fan_event (E : env) (fans all : list fan) :
  (forall f, f ∈ fans -> f ∈ all) -> emits (fan_event all) (reset_each E fans).
Proof.
  induction fans as [|f fans IH]; intros Hsub; simpl; [apply emits_ret|].
  apply emits_bind; [|intros _; apply IH; intros g Hg; apply Hsub; right; exact Hg].
  apply emits_try_catch_fan; [apply reset_fan_event, Hsub; left|].
  intros e. apply emits_bind; [apply emits_log; exact I | intros _; apply emits_throw].
Qed.

Lemma reset_fans_fan_event (E : env) (fans : list fan) :
  emits (fan_event fans) (reset_fans E fans).
Proof.
  unfold reset_fans. apply emits_bind; [apply emits_log; exact I|].
  intros _. apply reset_each_fan_event. auto.
Qed.

Lemma update_fan_event (E : env) (fans : list fan) (f : fan) :
  f ∈ fans -> max_fan f -> emits (fan_event fans) (update E f).
Proof.
  intros Hf Hfan w.
  destruct (collect_coeffs (drivers_ f) [] w) as [d|cs] eqn:Hc.
  { unfold update. rewrite Hc. apply (emits_log _ WARN). exact I. }
  apply collect_coeffs_spec in Hc. destruct Hc as (cs' & Hcs & ->).
  cbn [app] in *.
  destruct (update_max_unfold E f w cs' Hfan Hcs) as (c & cs0 & t & -> & _ & Ht & ->).
  destruct Hfan as (Hmin & Hmax & Hlt & _).
  assert (Hduty : to_uint8 (pwm_min_ f + t) = pwm_min_ f + t).
  { apply to_uint8_id. unfold uint8 in *. lia. }
  assert (He : emits (fan_event fans)
                 (set_pwm E f (pwm_min_ f + t);;
                  log INFO (msg_fan_set (pwm_ f) (pwm_min_ f + t)))).
  { apply emits_bind; [|intros _; apply emits_log; exact I].
    apply set_pwm_fan_event; [assumption|]. left. rewrite Hduty. lia. }
  match goal with
  | |- context [(_ ≫= _) ?w0] => destruct (He w0) as (evs & Htr & Hall)
  end.
  eexists (_ :: _ :: evs). split.
  - rewrite Htr. simpl. rewrite <- !app_assoc. reflexivity.
  - repeat constructor. assumption.
Qed.

Lemma main_loop_fan_event (E : env) (n : nat) sources fans :
  Forall max_fan fans -> emits (fan_event fans) (main_loop E n sources fans).
Proof.
  intros Hfans. rewrite Forall_forall in Hfans.
  induction n as [|n IH]; simpl; [apply emits_ret|].
  apply emits_bind.
  { apply emits_for_each. intros s w. unfold source_update.
    destruct (get s E (now w)); eexists; (split; [reflexivity | repeat constructor]). }
  intros _. apply emits_bind.
  { apply emits_for_each_in. intros f Hf. apply update_fan_event; auto. }
  intros _. apply emits_bind; [apply emits_event; exact I | intros _; exact IH].
Qed.

(** X9. A run over fans as [main] builds them opens nothing for writing but
    the actuators and enable resources of its fans; what it writes to an
    actuator is the decimal text of a duty in that fan's range from [pwm_min]
    to [pwm_max], or of 255, and what it writes to an enable resource is
    ["1"]. *)
Theorem run_touches_only_its_fans (E : env) (sources : list source) (fans : list fan)
    (w : world) :
  Forall max_fan fans ->
  (forall p b, EvOpen p b ∈ new_events w (snd (run E sources fans w)) ->
     exists f, f ∈ fans /\ (p = pwm_ f \/ p = enable_path f)) /\
  (forall p data good,
     EvWrite p data good ∈ new_events w (snd (run E sources fans w)) ->
     exists f, f ∈ fans /\
       ((p = pwm_ f /\
         exists n, data = pretty n /\ (pwm_min_ f <= n <= pwm_max_ f \/ n = 255)) \/
        (p = enable_path f /\ data = "1"))).
Proof.
  intros Hfans.
  assert (Hg : emits (fan_event fans) (guarded E sources fans)).
  { unfold guarded. apply emits_bind; [apply reset_fans_fan_event|]. intros _.
    apply emits_bind; [apply main_loop_fan_event; assumption|].
    intros _. apply emits_log. exact I. }
  assert (Hrun : exists evs, trace (snd (run E sources fans w)) = trace w ++ evs /\
                             Forall (fan_event fans) evs).
  { unfold run, try_block.
    destruct (Hg w) as (evs1 & Htr1 & Hall1).
    destruct (guarded E sources fans w) as [[[]|ex|] w1]; simpl in Htr1.
    - destruct (reset_fans_fan_event E fans w1) as (evs2 & Htr2 & Hall2).
      exists (evs1 ++ evs2).
      destruct (reset_fans E fans w1) as [[[]|e|] w2]; simpl in *;
        rewrite Htr2, Htr1, app_assoc; (split; [reflexivity | apply Forall_app; auto]).
    - destruct (reset_fans_fan_event E fans (emit (EvLog WARN (msg_exception ex)) w1))
        as (evs2 & Htr2 & Hall2).
      exists (evs1 ++ EvLog WARN (msg_exception ex) :: evs2).
      destruct (reset_fans E fans _) as [[[]|e|] w2]; simpl in *;
        rewrite Htr2, Htr1, <- !app_assoc; simpl;
        (split; [reflexivity | apply Forall_app; split; [assumption|]]);
        constructor; auto; exact I.
    - exists evs1. auto. }
  destruct Hrun as (evs & Htr & Hall). rewrite Forall_forall in Hall.
  unfold new_events. rewrite Htr, drop_app_length.
  split; [intros p b H | intros p data good H]; exact (Hall _ H).
Qed.

Lemma run_touches_only_its_fans_witness :
  (forall p b,
     EvOpen p b ∈ new_events initial_world
                    (snd (run writable_env [cpu_source; hdd_source]
                            [scenario_fan; second_fan] initial_world)) ->
     exists f, f ∈ [scenario_fan; second_fan] /\ (p = pwm_ f \/ p = enable_path f)) /\
  (forall p data good,
     EvWrite p data good ∈ new_events initial_world
                              (snd (run writable_env [cpu_source; hdd_source]
                                      [scenario_fan; second_fan] initial_world)) ->
     exists f, f ∈ [scenario_fan; second_fan] /\
       ((p = pwm_ f /\
         exists n, data = pretty n /\ (pwm_min_ f <= n <= pwm_max_ f \/ n = 255)) \/
        (p = enable_path f /\ data = "1"))).
Proof.
  apply (run_touches_only_its_fans writable_env [cpu_source; hdd_source]
           [scenario_fan; second_fan] initial_world).
  apply scenario_fans_max_fan.
Defined.



(** ** The reset pass *)

Lemma reset_each_app (E : env) (fans1 fans2 : list fan) (w : world) :
  reset_each E (fans1 ++ fans2) w = (reset_each E fans1;; reset_each E fans2) w.
Proof.
  revert w. induction fans1 as [|f fans1 IH]; intros w; [reflexivity|].
  simpl. unfold mbind, M_bind in *.
  destruct (try_catch_fan _ _ w) as [[[]|e|] w1]; [apply IH | reflexivity | reflexivity].
Qed.

(** X10. [reset_fans] stops at the first fan whose [reset()] fails: the fans
    before it have been reset, the failure is logged as critical with that fan's
    name and rethrown, and the fans after it are not touched. *)
Theorem reset_fans_stops_at_first_failure (E : env) (fans1 fans2 : list fan) (f : fan)
    (w w1 w2 : world) (e : exn) :
  reset_fans E fans1 w = (Ok tt, w1) ->
  reset E f w1 = (Throw e, w2) ->
  reset_exception f e /\
  reset_fans E (fans1 ++ f :: fans2) w
    = (Throw e, emit (EvLog CRITICAL (msg_reset_failed (name f))) w2).
Proof.
  intros H1 Hf.
  pose proof (reset_throws E f w1 e w2 Hf) as He.
  split; [assumption|].
  destruct (reset_exception_is_fan f e He) as [Hfan Hname].
  unfold reset_fans, mbind, M_bind, log in *. cbn [fst snd] in *.
  rewrite reset_each_app. unfold mbind, M_bind. rewrite H1.
  simpl. unfold mbind, M_bind, try_catch_fan. rewrite Hf, Hfan.
  unfold log, throw. rewrite Hname. reflexivity.
Qed.

Lemma reset_fans_stops_at_first_failure_witness :
  reset_exception second_fan (set_pwm_failed 4%nat (name second_fan) 255) /\
  reset_fans failing_second_env ([scenario_fan] ++ second_fan :: [flat_fan]) initial_world
    = (Throw (set_pwm_failed 4%nat (name second_fan) 255),
       emit (EvLog CRITICAL (msg_reset_failed (name second_fan)))
         (snd (reset failing_second_env second_fan
                 (snd (reset_fans failing_second_env [scenario_fan] initial_world))))).
Proof.
  apply (reset_fans_stops_at_first_failure failing_second_env [scenario_fan] [flat_fan]
           second_fan initial_world
           (snd (reset_fans failing_second_env [scenario_fan] initial_world))).
  - vm_compute. reflexivity.
  - vm_compute. reflexivity.
Defined.

(** ** The final state of the actuators *)

Lemma set_pwm_ok_files (E : env) (f : fan) (v : Z) (w w1 : world) :
  accepting E ->
  set_pwm E f v w = (Ok tt, w1) ->
  files w1 = <[pwm_ f := pretty (to_uint8 v)]> (files w).
Proof.
  intros Hacc H. destruct (set_pwm_spec E f v w) as (Hfst & _ & Hfiles & _).
  rewrite H in Hfst, Hfiles. cbn [fst snd] in Hfst, Hfiles.
  pose proof (Hacc (now w) (pwm_ f)) as Ha.
  destruct (ofstream_answer E (now w) (pwm_ f)); simpl in Hfst;
    [discriminate Hfst | congruence | exact Hfiles].
Qed.

(** Where the devices take what is written, a [reset()] that returns leaves
    ["255"] in the actuator and changes no file but the actuator and the enable
    resource. *)
Lemma reset_ok_files (E : env) (f : fan) (w w1 : world) (p : string) :
  accepting E ->
  reset E f w = (Ok tt, w1) ->
  files w1 !! pwm_ f = Some "255" /\
  (p <> pwm_ f -> p <> enable_path f -> files w1 !! p = files w !! p).
Proof.
  intros Hacc. rewrite reset_unfold.
  pose proof (Hacc (now w) (enable_path f)) as Ha.
  destruct (ofstream_answer E (now w) (enable_path f)); [| congruence |];
    intros H; apply (set_pwm_ok_files E f 255 _ _ Hacc) in H; rewrite H;
    change (pretty (to_uint8 255)) with "255";
    (split; [apply lookup_insert_eq|]); intros Hp He;
    rewrite lookup_insert_ne by congruence; simpl;
    rewrite ?lookup_insert_ne by congruence; reflexivity.
Qed.

Lemma reset_each_ok_files (E : env) (fans : list fan) (p : string) :
  accepting E ->
  (forall g, g ∈ fans -> enable_path g <> p) ->
  forall w w1,
    reset_each E fans w = (Ok tt, w1) ->
    (p ∈ map pwm_ fans -> files w1 !! p = Some "255") /\
    (p ∉ map pwm_ fans -> files w1 !! p = files w !! p).
Proof.
  intros Hacc.
  induction fans as [|f fans IH]; intros Hen w w1 H.
  { injection H as <-. split; [intros Hp; inversion Hp | reflexivity]. }
  simpl in H. unfold mbind, M_bind, try_catch_fan in H.
  destruct (reset E f w) as [[[]|e|] w0] eqn:Hr.
  - destruct (IH ltac:(intros g Hg; apply Hen; right; exact Hg) w0 w1 H) as [IH1 IH2].
    destruct (reset_ok_files E f w w0 p Hacc Hr) as [Hown Hother].
    assert (Hfe : p <> enable_path f) by (intros ->; apply (Hen f); [left | reflexivity]).
    cbn [map]. rewrite elem_of_cons. split.
    + intros Hp.
      destruct (decide (p ∈ map pwm_ fans)) as [Hin|Hnot]; [exact (IH1 Hin)|].
      rewrite (IH2 Hnot). destruct Hp as [-> | Hp]; [exact Hown | contradiction].
    + intros Hno. rewrite IH2 by tauto. apply Hother; [tauto | assumption].
  - destruct (is_fan_exception e); discriminate H.
  - discriminate H.
Qed.

(** X11. When the process exits through [return rv] in an environment whose
    devices take every write that reaches them, every actuator holds full
    speed - provided no fan's enable resource is a fan's actuator. (Without
    the first condition the process can return 0 with no actuator at full
    speed: a rejected write goes unnoticed.) *)
Theorem exit_leaves_full_speed (E : env) (sources : list source) (fans : list fan)
    (w w' : world) (rv : Z) :
  accepting E ->
  (forall f g, f ∈ fans -> g ∈ fans -> enable_path g <> pwm_ f) ->
  run E sources fans w = (Exited rv, w') ->
  forall f, f ∈ fans -> files w' !! pwm_ f = Some "255".
Proof.
  intros Hacc Hen Hrun f Hf. unfold run, try_block in Hrun.
  assert (Hfinal : forall w0, reset_fans E fans w0 = (Ok tt, w') ->
                              files w' !! pwm_ f = Some "255").
  { intros w0 H0. unfold reset_fans, mbind, M_bind, log in H0. cbn [fst snd] in H0.
    apply (reset_each_ok_files E fans (pwm_ f) Hacc) in H0;
      [|intros g Hg; apply Hen; assumption].
    apply H0. apply (list_elem_of_fmap_2 pwm_). exact Hf. }
  destruct (guarded E sources fans w) as [[[]|ex|] w1]; [| |discriminate Hrun];
    match type of Hrun with
    | context [reset_fans E fans ?w0] =>
        specialize (Hfinal w0);
        destruct (reset_fans E fans w0) as [[[]|e2|] w2]; try discriminate Hrun
    end;
    injection Hrun as _ <-; apply Hfinal; reflexivity.
Qed.

Lemma exit_leaves_full_speed_witness :
  files (snd (run writable_env [cpu_source; hdd_source] [scenario_fan; second_fan]
                initial_world)) !! pwm_ scenario_fan = Some "255" /\
  files (snd (run writable_env [cpu_source; hdd_source] [scenario_fan; second_fan]
                initial_world)) !! pwm_ second_fan = Some "255".
Proof.
  assert (Hall : forall f, f ∈ [scenario_fan; second_fan] ->
            files (snd (run writable_env [cpu_source; hdd_source]
                          [scenario_fan; second_fan] initial_world)) !! pwm_ f
              = Some "255").
  { apply (exit_leaves_full_speed writable_env [cpu_source; hdd_source]
             [scenario_fan; second_fan] initial_world _ 0).
    - intros t path. discriminate.
    - intros f g Hf Hg. rewrite !elem_of_cons, elem_of_nil in Hf, Hg.
      destruct Hf as [-> | [-> | []]]; destruct Hg as [-> | [-> | []]];
        intros H; vm_compute in H; discriminate H.
    - vm_compute. reflexivity. }
  split; apply Hall; rewrite !elem_of_cons; auto.
Defined.

(** A run of [main] whose devices reject every write still exits with 0, and
    its actuator does not hold full speed. *)
Example main_rejected_writes :
  fst (main rejecting_env) = Exited 0 /\
  files (snd (main rejecting_env)) !! pwm_ scenario_fan <> Some "255".
Proof. vm_compute. split; [reflexivity | discriminate]. Qed.

(** ** The refresh pass over the sources *)

Lemma source_update_state (E : env) (s : source) (w : world) :
  fst (source_update E s w) = Ok tt /\
  now (snd (source_update E s w)) = S (now w) /\
  files (snd (source_update E s w)) = files w /\
  last_value_ (snd (source_update E s w))
    = <[source_this s := match get s E (now w) with
                         | inl v => Some v
                         | inr _ => None
                         end]> (last_value_ w).
Proof. unfold source_update, log. destruct (get s E (now w)); repeat split. Qed.

Lemma sources_pass_ok (E : env) (sources : list source) (w : world) :
  fst (for_each (source_update E) sources w) = Ok tt.
Proof.
  revert w. induction sources as [|s sources IH]; intros w; [reflexivity|].
  simpl. unfold mbind, M_bind.
  destruct (source_update_state E s w) as (Hfst & _).
  destruct (source_update E s w) as [r w1]. cbn [fst] in Hfst. subst r. apply IH.
Qed.

(** The value a source holds after the pass is the one read in the pass. *)
Lemma sources_pass_values (E : env) (sources : list source) : forall w,
  NoDup (map source_this sources) ->
  (forall i s, sources !! i = Some s ->
     last_value_ (snd (for_each (source_update E) sources w)) (source_this s)
       = match get s E (now w + i)%nat with inl v => Some v | inr _ => None end) /\
  (forall a, a ∉ map source_this sources ->
     last_value_ (snd (for_each (source_update E) sources w)) a = last_value_ w a).
Proof.
  induction sources as [|s sources IH]; intros w Hnd.
  { split; [intros i s H; discriminate H | reflexivity]. }
  apply NoDup_cons in Hnd. destruct Hnd as [Hs Hnd].
  simpl for_each. unfold mbind, M_bind.
  destruct (source_update_state E s w) as (Hfst & Hnow & _ & Hlast).
  destruct (source_update E s w) as [r w1]. cbn [fst snd] in *. subst r.
  destruct (IH w1 Hnd) as (IHval & IHother). split.
  - intros [|i] s' Hi.
    + injection Hi as <-. rewrite (IHother _ Hs), Hlast.
      rewrite Nat.add_0_r. apply fn_lookup_insert.
    + rewrite (IHval i s' Hi), Hnow.
      replace (S (now w) + i)%nat with (now w + S i)%nat by lia. reflexivity.
  - intros a Ha. cbn [map] in Ha. apply not_elem_of_cons in Ha. destruct Ha as [Hne Ha].
    rewrite (IHother a Ha), Hlast. apply fn_lookup_insert_ne. congruence.
Qed.

(** X12. The pass of [main_loop] over the sources never throws and writes no
    file: each source is read once, in order, and afterwards holds the value
    read, or nothing when its read failed; other sources keep what they had.
    (The sources are distinct objects.) *)
Theorem sources_refresh (E : env) (sources : list source) (w : world) :
  NoDup (map source_this sources) ->
  let w' := snd (for_each (source_update E) sources w) in
  fst (for_each (source_update E) sources w) = Ok tt /\
  now w' = (now w + length sources)%nat /\
  files w' = files w /\
  (forall i s, sources !! i = Some s ->
     last_value_ w' (source_this s)
       = match get s E (now w + i)%nat with inl v => Some v | inr _ => None end) /\
  (forall a, a ∉ map source_this sources -> last_value_ w' a = last_value_ w a).
Proof.
  intros Hnd w'. unfold w'.
  destruct (sources_pass_values E sources w Hnd) as [Hval Hother].
  split; [apply sources_pass_ok|].
  assert (Hclock : forall w0,
            now (snd (for_each (source_update E) sources w0))
              = (now w0 + length sources)%nat /\
            files (snd (for_each (source_update E) sources w0)) = files w0).
  { clear. induction sources as [|s sources IH]; intros w0.
    - simpl. split; [lia | reflexivity].
    - simpl for_each. unfold mbind, M_bind.
      destruct (source_update_state E s w0) as (Hfst & Hnow & Hfiles & _).
      destruct (source_update E s w0) as [r w1]. cbn [fst snd] in *. subst r.
      destruct (IH w1) as [IHnow IHfiles].
      split; [rewrite IHnow, Hnow; cbn [length]; lia | congruence]. }
  destruct (Hclock w) as [Hnow Hfiles]. auto.
Qed.

Lemma sources_refresh_witness :
  let w' := snd (for_each (source_update newline_env) [cpu_source; hdd_source]
                   initial_world) in
  fst (for_each (source_update newline_env) [cpu_source; hdd_source] initial_world)
    = Ok tt /\
  now w' = (now initial_world + length [cpu_source; hdd_source])%nat /\
  files w' = files initial_world /\
  (forall i s, [cpu_source; hdd_source] !! i = Some s ->
     last_value_ w' (source_this s)
       = match get s newline_env (now initial_world + i)%nat with
         | inl v => Some v
         | inr _ => None
         end) /\
  (forall a, a ∉ map source_this [cpu_source; hdd_source] ->
     last_value_ w' a = last_value_ initial_world a).
Proof.
  apply (sources_refresh newline_env [cpu_source; hdd_source] initial_world).
  apply (bool_decide_unpack _). vm_compute. exact I.
Defined.

(** ** One iteration of the loop *)

Lemma update_keeps_values (E : env) (f : fan) (w : world) :
  last_value_ (snd (update E f w)) = last_value_ w.
Proof.
  unfold update.
  destruct (collect_coeffs (drivers_ f) [] w) as [d|values]; [reflexivity|].
  unfold mbind, M_bind, log, undefined. cbn [fst snd].
  destruct (accum_fn_ f values) as [scale|]; [|reflexivity].
  destruct (cast_uint8 _) as [c|]; [|reflexivity].
  match goal with
  | |- context [set_pwm E f ?v ?w0] =>
      destruct (set_pwm_spec E f v w0) as (_ & _ & _ & _ & Hl);
      destruct (set_pwm E f v w0) as [[[]|e|] w1]; exact Hl
  end.
Qed.

Lemma updates_keep_values (E : env) (fans : list fan) : forall w,
  last_value_ (snd (for_each (update E) fans w)) = last_value_ w.
Proof.
  induction fans as [|f fans IH]; intros w; [reflexivity|].
  simpl. unfold mbind, M_bind.
  pose proof (update_keeps_values E f w) as Hf.
  destruct (update E f w) as [[[]|e|] w1]; cbn [fst snd] in Hf |- *;
    [rewrite IH | |]; exact Hf.
Qed.

(** X15. Within one iteration of [main_loop] a fan works on the readings of
    that iteration: after the pass over the (distinct) sources and the updates
    of the fans before it, the coefficients [fan::update] collects are those of
    the values just read; and when the read of one of its sensors failed in this
    pass, the update is skipped with a warning, whatever that sensor held
    before. *)
Theorem iteration_uses_fresh_readings (E : env) (sources : list source)
    (fans1 : list fan) (f : fan) (w : world) :
  NoDup (map source_this sources) ->
  let w1 := snd (for_each (source_update E) sources w) in
  let w2 := snd (for_each (update E) fans1 w1) in
  (forall cs, Forall2 (fresh_coeff E sources (now w)) (drivers_ f) cs ->
     Forall2 (coeff_at w2) (drivers_ f) cs /\
     collect_coeffs (drivers_ f) [] w2 = inr cs) /\
  (forall d i s e,
     d ∈ drivers_ f -> sources !! i = Some s -> source_this s = driver.src d ->
     get s E (now w + i)%nat = inr e ->
     exists d', d' ∈ drivers_ f /\
       update E f w2
         = (Ok tt, emit (EvLog WARN (msg_no_value (this f) (driver.src d'))) w2)).
Proof.
  intros Hnd w1 w2.
  destruct (sources_pass_values E sources w Hnd) as [Hval _]. fold w1 in Hval.
  assert (Hkeep : last_value_ w2 = last_value_ w1) by apply updates_keep_values.
  split.
  - intros cs Hcs.
    assert (Hat : Forall2 (coeff_at w2) (drivers_ f) cs).
    { eapply Forall2_impl; [exact Hcs|].
      intros d c (i & s & v & Hi & Hsrc & Hget & ->).
      exists v. split; [|reflexivity].
      rewrite Hkeep, <- Hsrc, (Hval i s Hi), Hget. reflexivity. }
    split; [exact Hat|]. apply collect_coeffs_spec. exists cs. auto.
  - intros d i s e Hd Hi Hsrc Hget.
    assert (Hnone : last_value_ w2 (driver.src d) = None).
    { rewrite Hkeep, <- Hsrc, (Hval i s Hi), Hget. reflexivity. }
    destruct (first_missing_split (drivers_ f) w2) as (ds1 & d' & ds2 & Hds & Hall & Hd');
      [eauto|].
    exists d'. split; [rewrite Hds, elem_of_app, elem_of_cons; auto|].
    unfold update. rewrite Hds, collect_coeffs_first_missing by assumption. reflexivity.
Qed.

Lemma iteration_uses_fresh_readings_witness :
  let w1 := snd (for_each (source_update newline_env) [cpu_source; hdd_source]
                   initial_world) in
  let w2 := snd (for_each (update newline_env) [scenario_fan] w1) in
  (forall cs,
     Forall2 (fresh_coeff newline_env [cpu_source; hdd_source] (now initial_world))
       (drivers_ second_fan) cs ->
     Forall2 (coeff_at w2) (drivers_ second_fan) cs /\
     collect_coeffs (drivers_ second_fan) [] w2 = inr cs) /\
  (forall d i s e,
     d ∈ drivers_ second_fan -> [cpu_source; hdd_source] !! i = Some s ->
     source_this s = driver.src d ->
     get s newline_env (now initial_world + i)%nat = inr e ->
     exists d', d' ∈ drivers_ second_fan /\
       update newline_env second_fan w2
         = (Ok tt, emit (EvLog WARN (msg_no_value (this second_fan) (driver.src d'))) w2)).
Proof.
  apply (iteration_uses_fresh_readings newline_env [cpu_source; hdd_source]
           [scenario_fan] second_fan initial_world).
  apply (bool_decide_unpack _). vm_compute. exact I.
Defined.

(** ** Sleeping *)

Lemma filter_no_sleep (evs : list event) :
  Forall (fun ev => is_sleep ev = false) evs -> List.filter is_sleep evs = [].
Proof.
  induction 1 as [|ev evs Hev _ IH]; [reflexivity|].
  simpl. rewrite Hev. exact IH.
Qed.

Lemma sources_no_sleep (E : env) (sources : list source) :
  emits (fun ev => is_sleep ev = false) (for_each (source_update E) sources).
Proof.
  apply emits_for_each. intros s w. unfold source_update.
  destruct (get s E (now w)); eexists; (split; [reflexivity | repeat constructor]).
Qed.

Lemma updates_no_sleep (E : env) (fans : list fan) :
  emits (fun ev => is_sleep ev = false) (for_each (update E) fans).
Proof.
  apply emits_for_each. intros f w. unfold update.
  destruct (collect_coeffs (drivers_ f) [] w) as [d|values].
  { apply (emits_log _ WARN). reflexivity. }
  revert w. apply emits_bind; [apply emits_log; reflexivity|]. intros _.
  apply emits_bind; [apply emits_event; reflexivity|]. intros _.
  destruct (accum_fn_ f values) as [scale|]; [|apply emits_undefined].
  destruct (cast_uint8 _) as [c|]; [|apply emits_undefined].
  apply emits_bind; [|intros _; apply emits_log; reflexivity].
  unfold set_pwm. apply emits_bind; [apply emits_ofstream; reflexivity|].
  intros a. apply emits_bind; [apply emits_stream_insert; reflexivity|].
  intros [|]; [apply emits_log; reflexivity | apply emits_throw].
Qed.

(** X13. [main_loop] sleeps once at the end of every iteration, always for
    [timespec{5, 0}]: a loop that returns after [n] iterations has slept [n]
    times, and a loop that an exception left slept fewer times. *)
Theorem main_loop_sleeps (E : env) (n : nat) (sources : list source) (fans : list fan)
    (w : world) :
  exists k,
    List.filter is_sleep (new_events w (snd (main_loop E n sources fans w)))
      = replicate k (EvSleep 5 0) /\
    (fst (main_loop E n sources fans w) = Ok tt -> k = n) /\
    (fst (main_loop E n sources fans w) <> Ok tt -> (k < n)%nat).
Proof.
  assert (Htrace : forall n w0, exists evs k,
            trace (snd (main_loop E n sources fans w0)) = trace w0 ++ evs /\
            List.filter is_sleep evs = replicate k (EvSleep 5 0) /\
            (fst (main_loop E n sources fans w0) = Ok tt -> k = n) /\
            (fst (main_loop E n sources fans w0) <> Ok tt -> (k < n)%nat)).
  { clear n w. intros n.
    induction n as [|n IH]; intros w.
    { exists [], 0%nat. simpl. rewrite app_nil_r. repeat split. congruence. }
    simpl main_loop. unfold mbind, M_bind.
    pose proof (sources_pass_ok E sources w) as Hok.
    destruct (sources_no_sleep E sources w) as (evs1 & Htr1 & Hall1).
    destruct (for_each (source_update E) sources w) as [r1 w1].
    cbn [fst snd] in Hok, Htr1. subst r1.
    destruct (updates_no_sleep E fans w1) as (evs2 & Htr2 & Hall2).
    destruct (for_each (update E) fans w1) as [[[]|e|] w2]; cbn [fst snd] in Htr2 |- *.
    - unfold interruptible_sleep.
      change ((poll_interval * 1000000000) mod 1000000000) with 0.
      change poll_interval with 5.
      destruct (IH (emit (EvSleep 5 0) w2)) as (evs3 & k & Htr3 & Hf & Hfst & Hk).
      exists (evs1 ++ evs2 ++ EvSleep 5 0 :: evs3), (S k).
      split; [|split; [|split]].
      + rewrite Htr3. simpl. rewrite Htr2, Htr1, <- !app_assoc. reflexivity.
      + rewrite !List.filter_app, (filter_no_sleep _ Hall1), (filter_no_sleep _ Hall2).
        simpl. rewrite Hf. reflexivity.
      + intros H. rewrite (Hfst H). reflexivity.
      + intros H. specialize (Hk H). lia.
    - exists (evs1 ++ evs2), 0%nat. split; [|split; [|split]].
      + rewrite Htr2, Htr1, <- app_assoc. reflexivity.
      + rewrite List.filter_app, (filter_no_sleep _ Hall1), (filter_no_sleep _ Hall2).
        reflexivity.
      + discriminate.
      + lia.
    - exists (evs1 ++ evs2), 0%nat. split; [|split; [|split]].
      + rewrite Htr2, Htr1, <- app_assoc. reflexivity.
      + rewrite List.filter_app, (filter_no_sleep _ Hall1), (filter_no_sleep _ Hall2).
        reflexivity.
      + discriminate.
      + lia. }
  destruct (Htrace n w) as (evs & k & Htr & Hf & Hok & Hno).
  exists k. unfold new_events. rewrite Htr, drop_app_length. auto.
Qed.
